(** * RandomIFS: the random iterated function system of [rand-ifs.ts]

    A shallow embedding of the class [RandomIFS] (src/ts/fractals/rand-ifs.ts)
    and of the statements its specification makes about it.

    The class computes with JavaScript [number]s.  The embedding is written
    once, over an interface [JSNumber] of the operations the source uses
    ([+ - * /], unary minus, [Math.abs], [Math.floor], [<=]), and is read at
    two instances:

    - [Binary64]: IEEE 754 binary64 (the kernel's primitive floats), which is
      what a JavaScript engine executes;
    - [Exact]: the rationals [Q], the "real" numbers the specification
      speaks of.

    Everything that follows only from the shape of the code is proved for
    every instance; arithmetic facts are proved at [Exact]. *)

From Stdlib Require Import ZArith QArith Qround Qabs Lia Lqa List Bool.
From Stdlib Require Import Floats.PrimFloat Floats.SpecFloat Floats.FloatOps.
From Stdlib Require Import Numbers.Cyclic.Int63.Uint63.
From stdpp Require Import base option list strings gmap.

Set Default Proof Using "Type".

(** ** JavaScript numbers *)

Declare Scope js_scope.
Delimit Scope js_scope with js.

Class JSNumber (N : Type) : Type := {
  num_add : N -> N -> N;
  num_sub : N -> N -> N;
  num_mul : N -> N -> N;
  num_div : N -> N -> N;
  num_neg : N -> N;
  (** [Math.abs] *)
  num_abs : N -> N;
  (** [Math.floor] *)
  num_floor : N -> N;
  (** [a <= b] *)
  num_le : N -> N -> bool;
  (** an integer literal, or an integer-valued DOM attribute *)
  num_of_Z : Z -> N
}.

(** [a >= b] is [b <= a] for numbers (both are false when either is NaN). *)
Definition num_ge {N} `{JSNumber N} (a b : N) : bool := num_le b a.

Infix "+" := num_add : js_scope.
Infix "-" := num_sub : js_scope.
Infix "*" := num_mul : js_scope.
Infix "/" := num_div : js_scope.
Notation "- a" := (num_neg a) : js_scope.
Infix "<=?" := num_le : js_scope.
Infix ">=?" := num_ge (at level 70) : js_scope.

(** *** The exact instance

    Rational arithmetic without rounding.  [Qdiv] by zero is zero, where
    JavaScript yields NaN or an infinity: what the class does on a degenerate
    window is read at [Binary64]. *)

Module Exact.

Definition floor (q : Q) : Q := inject_Z (Qfloor q).

#[global] Instance number : JSNumber Q := {|
  num_add := Qplus;
  num_sub := Qminus;
  num_mul := Qmult;
  num_div := Qdiv;
  num_neg := Qopp;
  num_abs := Qabs;
  num_floor := floor;
  num_le := Qle_bool;
  num_of_Z := inject_Z
|}.

End Exact.

(** *** The binary64 instance *)

Module Binary64.

(** An integer of magnitude below [2^63] as a float (exact below [2^53]). *)
Definition of_Z (z : Z) : float :=
  match z with
  | Z0 => PrimFloat.zero
  | Zpos _ => PrimFloat.of_uint63 (Uint63.of_Z z)
  | Zneg p => PrimFloat.opp (PrimFloat.of_uint63 (Uint63.of_Z (Zpos p)))
  end.

(** [Math.floor]: zeros, infinities and NaN are returned as they are; a
    finite [(-1)^s * m * 2^e] with [e >= 0] is an integer already; otherwise
    the mantissa is shifted right by [-e] bits (a quotient below [2^53]),
    rounding towards minus infinity. *)
Definition floor (v : float) : float :=
  match Prim2SF v with
  | S754_finite s m e =>
      if (0 <=? e)%Z then v
      else
        let q := Z.shiftr (Zpos m) (- e) in
        if s then
          let exact := (Z.shiftl q (- e) =? Zpos m)%Z in
          of_Z (- (if exact then q else q + 1))
        else of_Z q
  | _ => v
  end.

#[global] Instance number : JSNumber float := {|
  num_add := PrimFloat.add;
  num_sub := PrimFloat.sub;
  num_mul := PrimFloat.mul;
  num_div := PrimFloat.div;
  num_neg := PrimFloat.opp;
  num_abs := PrimFloat.abs;
  num_floor := floor;
  num_le := PrimFloat.leb;
  num_of_Z := of_Z
|}.

End Binary64.

(** ** Data *)

(** [Coordinate] (types.ts): a point of the canvas or of the window. *)
Record Coordinate (N : Type) : Type := { x : N; y : N }.
Arguments Build_Coordinate {N}.
Arguments x {N}.
Arguments y {N}.

(** [WindowCoordinates] (window-table.ts). *)
Record WindowCoordinates (N : Type) : Type := {
  win_a1 : N; win_b1 : N; win_a2 : N; win_b2 : N
}.
Arguments Build_WindowCoordinates {N}.
Arguments win_a1 {N}.
Arguments win_b1 {N}.
Arguments win_a2 {N}.
Arguments win_b2 {N}.

(** The fields of an [AffineTransform] object that [RandomIFS] reads and
    writes ([e] and [f] are assigned by [calibrateAffineTransforms]). *)
Record AffineTransform (N : Type) : Type := {
  a : N; b : N; c : N; d : N; e : N; f : N
}.
Arguments Build_AffineTransform {N}.
Arguments a {N}.
Arguments b {N}.
Arguments c {N}.
Arguments d {N}.
Arguments e {N}.
Arguments f {N}.

(** The [number[]] that [AffineTransform.createMatrix] returns: six entries,
    read by [applyMatrix] at the indices 0 to 5. *)
Record Matrix (N : Type) : Type := {
  m0 : N; m1 : N; m2 : N; m3 : N; m4 : N; m5 : N
}.
Arguments Build_Matrix {N}.
Arguments m0 {N}.
Arguments m1 {N}.
Arguments m2 {N}.
Arguments m3 {N}.
Arguments m4 {N}.
Arguments m5 {N}.

(** Modelled from the spec: [AffineTransform.createMatrix] (affine-transform.ts
    is not among the sources).  The specification gives the transform as
    [x' = a x + b y + e], [y' = c x + d y + f] with a "2x3 matrix form", and
    [applyMatrix] computes [matrix[0]*x + matrix[1]*y + matrix[4]] and
    [matrix[2]*x + matrix[3]*y + matrix[5]]: the matrix lists the coefficients
    in the order [a, b, c, d, e, f]. *)
Definition createMatrix {N} (t : AffineTransform N) : Matrix N :=
  {| m0 := a t; m1 := b t; m2 := c t; m3 := d t; m4 := e t; m5 := f t |}.

(** The attributes of the [HTMLCanvasElement] the class reads. *)
Record HTMLCanvasElement (N : Type) : Type := { width : N; height : N }.
Arguments Build_HTMLCanvasElement {N}.
Arguments width {N}.
Arguments height {N}.

(** One [ctx.fillRect(x, y, w, h)] call, with the [ctx.fillStyle] in force. *)
Record FillRect (N : Type) : Type := {
  fillStyle : string;
  rect_x : N; rect_y : N; rect_w : Z; rect_h : Z
}.
Arguments Build_FillRect {N}.
Arguments fillStyle {N}.
Arguments rect_x {N}.
Arguments rect_y {N}.
Arguments rect_w {N}.
Arguments rect_h {N}.

(** [AffineTransform] objects live in a store and are passed by reference:
    [calibrateAffineTransforms] assigns to the objects it is handed. *)
Abbreviation Ref := nat.

(** What a [ProbabilityAffineTable] hands to the constructor (affine-table.ts
    is not among the sources): the array of transform objects and the array
    of probabilities, which [randomMatrix] reads as cumulative bounds. *)
Record ProbabilityAffineTable (N : Type) : Type := {
  collectTransforms : list Ref;
  collectProbabilities : list N
}.
Arguments Build_ProbabilityAffineTable {N}.
Arguments collectTransforms {N}.
Arguments collectProbabilities {N}.

(** Everything outside the [RandomIFS] object that its methods touch: the
    store of transform objects, the values [Math.random()] returns (the
    [k]-th call returns [random k]) with the number of calls made so far, and
    the rectangles filled on the canvas, oldest first. *)
Record World (N : Type) : Type := {
  heap : gmap nat (AffineTransform N);
  random : nat -> N;
  randomCalls : nat;
  fills : list (FillRect N)
}.
Arguments Build_World {N}.
Arguments heap {N}.
Arguments random {N}.
Arguments randomCalls {N}.
Arguments fills {N}.

(** The fields of [RandomIFS] that the constructor assigns before it seeds
    the orbit and that no method assigns afterwards.  The constant fields are
    the definitions [POINT_TOLERANCE] and [FIXED_PT_TRIES] below. *)
Record Frame (N : Type) : Type := {
  canvas : HTMLCanvasElement N;
  matrices : list (Matrix N);
  transformProbs : list N;
  x0 : N; y0 : N;
  a1 : N; b1 : N; a2 : N; b2 : N
}.
Arguments Build_Frame {N}.
Arguments canvas {N}.
Arguments matrices {N}.
Arguments transformProbs {N}.
Arguments x0 {N}.
Arguments y0 {N}.
Arguments a1 {N}.
Arguments b1 {N}.
Arguments a2 {N}.
Arguments b2 {N}.

(** A constructed [RandomIFS]: the frame and the fields that change while the
    orbit runs.  [numIters] and [pointsDrawn] start at 0 and only ever grow by
    one, [numPoints] is a count: they are integers. *)
Record RandomIFS (N : Type) : Type := {
  frame :> Frame N;
  currentPoint : Coordinate N;
  numPoints : Z;
  numIters : Z;
  pointsDrawn : Z
}.
Arguments Build_RandomIFS {N}.
Arguments frame {N}.
Arguments currentPoint {N}.
Arguments numPoints {N}.
Arguments numIters {N}.
Arguments pointsDrawn {N}.

(** ** Effects *)

Inductive JSError : Type := TypeError.

(** A call returns, throws, or is still running when the model's fuel for
    the [while (true)] loop is spent. *)
Inductive Outcome (A : Type) : Type :=
| Returned (v : A)
| Thrown (err : JSError)
| OutOfFuel.
Arguments Returned {A}.
Arguments Thrown {A}.
Arguments OutOfFuel {A}.

Definition M (N A : Type) : Type := World N -> Outcome (A * World N).

Definition ret {N A} (v : A) : M N A := fun w => Returned (v, w).

Definition bind {N A B} (m : M N A) (k : A -> M N B) : M N B :=
  fun w =>
    match m w with
    | Returned (v, w') => k v w'
    | Thrown err => Thrown err
    | OutOfFuel => OutOfFuel
    end.

Definition throw {N A} (err : JSError) : M N A := fun _ => Thrown err.

Notation "'let*' v ':=' m 'in' k" := (bind m (fun v => k))
  (at level 10, v name, m at level 100, k at level 200, only parsing).
Notation "m1 ';;' m2" := (bind m1 (fun _ => m2))
  (at level 100, m2 at level 200, right associativity, only parsing).

(** ** The methods of [RandomIFS] *)

Section Methods.
Context {N : Type} `{JSNumber N}.
Local Open Scope js_scope.

(** [readonly POINT_TOLERANCE = 2] *)
Definition POINT_TOLERANCE : N := num_of_Z 2.

(** [private readonly FIXED_PT_TRIES = 1000] *)
Definition FIXED_PT_TRIES : nat := 1000.

(** [Math.random()] *)
Definition Math_random : M N N :=
  fun w =>
    Returned (random w (randomCalls w),
              {| heap := heap w; random := random w;
                 randomCalls := S (randomCalls w); fills := fills w |}).

(** [ctx.fillStyle = style; ctx.fillRect(px, py, w, h)] *)
Definition fillRect (style : string) (px py : N) (w h : Z) : M N unit :=
  fun wd =>
    Returned (tt,
              {| heap := heap wd; random := random wd;
                 randomCalls := randomCalls wd;
                 fills := fills wd ++ [Build_FillRect style px py w h] |}).

(** *** Coordinate changes *)

Definition windowTransform (this : Frame N) (p : Coordinate N) : Coordinate N :=
  {| x := (x p - x0 this) * (b1 this - a1 this);
     y := (y p - y0 this) * (b2 this - a2 this) |}.

Definition invWindowTransform (this : Frame N) (p : Coordinate N) : Coordinate N :=
  {| x := num_floor (x p / (b1 this - a1 this) + x0 this);
     y := num_floor (y p / (b2 this - a2 this) + y0 this) |}.

(** *** Matrices *)

Definition applyMatrix (matrix : Matrix N) (p : Coordinate N) : Coordinate N :=
  {| x := num_floor (m0 matrix * x p + m1 matrix * y p + m4 matrix);
     y := num_floor (m2 matrix * x p + m3 matrix * y p + m5 matrix) |}.

(** [applyMatrix] called with what [randomMatrix] returned: indexing
    [undefined] throws. *)
Definition applyMatrix_call (matrix : option (Matrix N)) (p : Coordinate N)
  : M N (Coordinate N) :=
  match matrix with
  | Some m => ret (applyMatrix m p)
  | None => throw TypeError
  end.

(** The test of [randomMatrix] at index [i]; a bound read past the end of
    [transformProbs] is [undefined], and a comparison with it is false. *)
Definition probTest (this : Frame N) (rand : N) (i : nat) : bool :=
  match transformProbs this !! i, transformProbs this !! (S i) with
  | Some thisProb, Some nextProb => (rand >=? thisProb) && (rand <=? nextProb)
  | _, _ => false
  end.

(** The [for] loop of [randomMatrix] from index [i] with [n] indices to go,
    and the [return] after it ([last] of an empty array is [undefined]). *)
Fixpoint randomMatrix_loop (this : Frame N) (rand : N) (i n : nat)
  : option (Matrix N) :=
  match n with
  | O => last (matrices this)
  | S n' =>
      if probTest this rand i then matrices this !! i
      else randomMatrix_loop this rand (S i) n'
  end.

Definition randomMatrix (this : Frame N) : M N (option (Matrix N)) :=
  let* rand := Math_random in
  ret (randomMatrix_loop this rand 0 (length (matrices this))).

(** *** The seed of the orbit *)

(** [getRandomInt] of [findFixedPointStochastic]. *)
Definition getRandomInt (max : N) : M N N :=
  let* r := Math_random in ret (num_floor (r * max)).

(** The [for] loop of [findFixedPointStochastic] with [tries] trials to go:
    [Some p] when a trial returned [p], [None] when the loop ran out. *)
Fixpoint tryFixedPoint (this : Frame N) (matrix : option (Matrix N))
    (tries : nat) : M N (option (Coordinate N)) :=
  match tries with
  | O => ret None
  | S tries' =>
      let* rx := getRandomInt (width (canvas this)) in
      let* ry := getRandomInt (height (canvas this)) in
      let randomPoint := {| x := rx; y := ry |} in
      let randomPointWindowTransformed := windowTransform this randomPoint in
      let* transformedPoint :=
        applyMatrix_call matrix randomPointWindowTransformed in
      let distX :=
        num_abs (x randomPointWindowTransformed - x transformedPoint) in
      let distY :=
        num_abs (y randomPointWindowTransformed - y transformedPoint) in
      if (distX <=? POINT_TOLERANCE) && (distY <=? POINT_TOLERANCE)
      then ret (Some randomPointWindowTransformed)
      else tryFixedPoint this matrix tries'
  end.

(** [while (true)], with [fuel] rounds. *)
Fixpoint findFixedPointStochastic (fuel : nat) (this : Frame N)
  : M N (Coordinate N) :=
  match fuel with
  | O => fun _ => OutOfFuel
  | S fuel' =>
      let* matrix := randomMatrix this in
      let* found := tryFixedPoint this matrix FIXED_PT_TRIES in
      match found with
      | Some p => ret p
      | None => findFixedPointStochastic fuel' this
      end
  end.

(** *** Calibration *)

(** The two assignments of the loop body of [calibrateAffineTransforms]. *)
Definition calibrated (cv : HTMLCanvasElement N) (t : AffineTransform N)
  : AffineTransform N :=
  {| a := a t; b := b t; c := c t; d := d t;
     e := e t * width cv; f := f t * height cv |}.

(** The loop body at the object [r]: it is updated in the store (reading a
    property of [undefined] throws). *)
Definition calibrateAt (cv : HTMLCanvasElement N) (r : Ref) : M N unit :=
  fun w =>
    match heap w !! r with
    | Some t =>
        Returned (tt,
                  {| heap := <[r := calibrated cv t]> (heap w);
                     random := random w; randomCalls := randomCalls w;
                     fills := fills w |})
    | None => Thrown TypeError
    end.

Fixpoint calibrate_loop (cv : HTMLCanvasElement N) (affineTransforms : list Ref)
  : M N unit :=
  match affineTransforms with
  | [] => ret tt
  | r :: rest => calibrateAt cv r ;; calibrate_loop cv rest
  end.

(** The method reads [this.canvas] only; it returns the array it was given. *)
Definition calibrateAffineTransforms (cv : HTMLCanvasElement N)
    (affineTransforms : list Ref) : M N (list Ref) :=
  calibrate_loop cv affineTransforms ;; ret affineTransforms.

Fixpoint gatherMatrices (affineTransforms : list Ref) : M N (list (Matrix N)) :=
  match affineTransforms with
  | [] => ret []
  | r :: rest =>
      let* m := (fun w =>
                   match heap w !! r with
                   | Some t => Returned (createMatrix t, w)
                   | None => Thrown TypeError
                   end) in
      let* ms := gatherMatrices rest in
      ret (m :: ms)
  end.

(** *** The constructor *)

(** [startingPoint == null] holds of [null] and [undefined]: [None]. *)
Definition constructor (fuel : nat) (cv : HTMLCanvasElement N)
    (table : ProbabilityAffineTable N) (numPts : Z)
    (window : WindowCoordinates N) (startingPoint : option (Coordinate N))
  : M N (RandomIFS N) :=
  let this_a1 := win_a1 window in
  let this_b1 := win_b1 window in
  let this_a2 := win_a2 window in
  let this_b2 := win_b2 window in
  let this_x0 := ((- this_a1) / (this_b1 - this_a1)) * width cv in
  let this_y0 := ((- this_a2) / (this_b2 - this_a2)) * height cv in
  let* affineTransforms :=
    calibrateAffineTransforms cv (collectTransforms table) in
  let this_transformProbs := collectProbabilities table in
  let* this_matrices := gatherMatrices affineTransforms in
  let this :=
    {| canvas := cv; matrices := this_matrices;
       transformProbs := this_transformProbs;
       x0 := this_x0; y0 := this_y0;
       a1 := this_a1; b1 := this_b1; a2 := this_a2; b2 := this_b2 |} in
  let* point :=
    match startingPoint with
    | None => findFixedPointStochastic fuel this
    | Some p => ret p
    end in
  ret {| frame := this; currentPoint := point;
         numPoints := numPts; numIters := 0; pointsDrawn := 0 |}.

(** *** Drawing and iterating *)

Definition drawCurrentPointRed (this : RandomIFS N) : M N unit :=
  let pointInWindow := invWindowTransform this (currentPoint this) in
  fillRect "red" (x pointInWindow)
           (height (canvas this) - y pointInWindow) 4 4.

Definition drawCurrentPoint (this : RandomIFS N) : M N unit :=
  let pointInWindow := invWindowTransform this (currentPoint this) in
  fillRect "black" (x pointInWindow)
           (height (canvas this) - y pointInWindow) 2 2.

Definition updateCurrentPoint (this : RandomIFS N) : M N (RandomIFS N) :=
  let* rM := randomMatrix this in
  let* p := applyMatrix_call rM (currentPoint this) in
  ret {| frame := frame this; currentPoint := p;
         numPoints := numPoints this; numIters := numIters this;
         pointsDrawn := pointsDrawn this |}.

(** The body of the [for] loop of [iterate], [n] times. *)
Fixpoint iterate_loop (n : nat) (this : RandomIFS N) : M N (RandomIFS N) :=
  match n with
  | O => ret this
  | S n' =>
      (if (pointsDrawn this <? 10)%Z
       then drawCurrentPointRed this
       else drawCurrentPoint this) ;;
      let* this := updateCurrentPoint this in
      iterate_loop n'
        {| frame := frame this; currentPoint := currentPoint this;
           numPoints := numPoints this; numIters := numIters this;
           pointsDrawn := pointsDrawn this + 1 |}
  end.

(** [i] runs over the integers from 0 that are below [numPoints]. *)
Definition iterate (this : RandomIFS N) : M N (RandomIFS N) :=
  iterate_loop (Z.to_nat (numPoints this))
    {| frame := frame this; currentPoint := currentPoint this;
       numPoints := numPoints this; numIters := numIters this + 1;
       pointsDrawn := pointsDrawn this |}.

End Methods.

(** ** Concrete configurations

    The inputs at which the statements below are evaluated. *)

(** The transforms of the specification's end-to-end scenario: [A] halves
    towards the origin, [B] halves towards [(1,1)]. *)
Definition transformA {N} `{JSNumber N} : AffineTransform N :=
  {| a := num_div (num_of_Z 1) (num_of_Z 2); b := num_of_Z 0;
     c := num_of_Z 0; d := num_div (num_of_Z 1) (num_of_Z 2);
     e := num_of_Z 0; f := num_of_Z 0 |}.

Definition transformB {N} `{JSNumber N} : AffineTransform N :=
  {| a := num_div (num_of_Z 1) (num_of_Z 2); b := num_of_Z 0;
     c := num_of_Z 0; d := num_div (num_of_Z 1) (num_of_Z 2);
     e := num_div (num_of_Z 1) (num_of_Z 2);
     f := num_div (num_of_Z 1) (num_of_Z 2) |}.

(** A world whose store holds [A] at 0 and [B] at 1, where [Math.random()]
    returns [draw] at every call, and nothing has been drawn. *)
Definition world_AB {N} `{JSNumber N} (draw : N) : World N :=
  {| heap := <[1%nat := transformB]> (<[0%nat := transformA]> ∅);
     random := fun _ => draw; randomCalls := 0; fills := [] |}.

(** The table of the scenario: [A] then [B], each with probability 1/2. *)
Definition table_AB {N} `{JSNumber N} : ProbabilityAffineTable N :=
  {| collectTransforms := [0%nat; 1%nat];
     collectProbabilities :=
       [num_of_Z 0; num_div (num_of_Z 1) (num_of_Z 2); num_of_Z 1] |}.

Definition canvas100 {N} `{JSNumber N} : HTMLCanvasElement N :=
  {| width := num_of_Z 100; height := num_of_Z 100 |}.

Definition origin {N} `{JSNumber N} : Coordinate N :=
  {| x := num_of_Z 0; y := num_of_Z 0 |}.

Definition unitWindow {N} `{JSNumber N} : WindowCoordinates N :=
  {| win_a1 := num_of_Z 0; win_b1 := num_of_Z 1;
     win_a2 := num_of_Z 0; win_b2 := num_of_Z 1 |}.

(** The window [0.1 .. 0.7] on both axes, as binary64 and as rationals. *)
Definition narrowWindow64 : WindowCoordinates float :=
  {| win_a1 := 0.1%float; win_b1 := 0.7%float;
     win_a2 := 0.1%float; win_b2 := 0.7%float |}.

Definition narrowWindowQ : WindowCoordinates Q :=
  {| win_a1 := 1 # 10; win_b1 := 7 # 10;
     win_a2 := 1 # 10; win_b2 := 7 # 10 |}.

(** What the constructor builds from [table_AB], a canvas of 100 by 100 and
    a window (see [constructor_AB] below): the frame, the orbit seeded at
    [start], and the world it leaves, in which [A] and [B] are calibrated. *)
Definition frame_AB {N} `{JSNumber N} (window : WindowCoordinates N) : Frame N :=
  {| canvas := canvas100;
     matrices := [createMatrix (calibrated canvas100 transformA);
                  createMatrix (calibrated canvas100 transformB)];
     transformProbs := collectProbabilities table_AB;
     x0 := num_mul (num_div (num_neg (win_a1 window))
                            (num_sub (win_b1 window) (win_a1 window)))
                   (width canvas100);
     y0 := num_mul (num_div (num_neg (win_a2 window))
                            (num_sub (win_b2 window) (win_a2 window)))
                   (height canvas100);
     a1 := win_a1 window; b1 := win_b1 window;
     a2 := win_a2 window; b2 := win_b2 window |}.

Definition orbit_AB {N} `{JSNumber N} (window : WindowCoordinates N)
    (start : Coordinate N) (numPts : Z) : RandomIFS N :=
  {| frame := frame_AB window; currentPoint := start;
     numPoints := numPts; numIters := 0; pointsDrawn := 0 |}.

Definition world_AB_calibrated {N} `{JSNumber N} (draw : N) : World N :=
  {| heap := <[1%nat := calibrated canvas100 transformB]>
               (<[0%nat := calibrated canvas100 transformA]> ∅);
     random := fun _ => draw; randomCalls := 0; fills := [] |}.

(** A frame with other cumulative bounds, all else equal. *)
Definition with_probs {N} (this : Frame N) (probs : list N) : Frame N :=
  {| canvas := canvas this; matrices := matrices this;
     transformProbs := probs;
     x0 := x0 this; y0 := y0 this;
     a1 := a1 this; b1 := b1 this; a2 := a2 this; b2 := b2 this |}.

(** The world of [world_AB_calibrated] where [Math.random()] returns the
    values of [draws] in turn, and [rest] once they are used up. *)
Definition world_draws {N} `{JSNumber N} (draws : list N) (rest : N) : World N :=
  {| heap := heap (world_AB_calibrated rest);
     random := fun k => default rest (draws !! k);
     randomCalls := 0; fills := [] |}.

(** The point a call of [findFixedPointStochastic] returned, if it did. *)
Definition seed_of {N} (o : Outcome (Coordinate N * World N))
  : option (Coordinate N) :=
  match o with
  | Returned (p, _) => Some p
  | _ => None
  end.

(** A table with no transform at all. *)
Definition table_empty {N} : ProbabilityAffineTable N :=
  {| collectTransforms := []; collectProbabilities := [] |}.

(** What the constructor builds from [table_empty]. *)
Definition orbit_empty {N} `{JSNumber N} (window : WindowCoordinates N)
    (start : Coordinate N) (numPts : Z) : RandomIFS N :=
  {| frame := {| canvas := canvas100; matrices := []; transformProbs := [];
                 x0 := x0 (frame_AB window); y0 := y0 (frame_AB window);
                 a1 := win_a1 window; b1 := win_b1 window;
                 a2 := win_a2 window; b2 := win_b2 window |};
     currentPoint := start;
     numPoints := numPts; numIters := 0; pointsDrawn := 0 |}.

(** A window with no extent on the first axis. *)
Definition flatWindow {N} `{JSNumber N} : WindowCoordinates N :=
  {| win_a1 := num_of_Z 0; win_b1 := num_of_Z 0;
     win_a2 := num_of_Z 0; win_b2 := num_of_Z 1 |}.

(** The field [e] of the object at [r] after a call that returned. *)
Definition e_after {N A} (o : Outcome (A * World N)) (r : Ref) : option N :=
  match o with
  | Returned (_, w) => e <$> heap w !! r
  | _ => None
  end.

(** ** Observations of the canvas *)

(** The two ways [iterate] marks a point: the red square of side 4 of
    [drawCurrentPointRed], the black square of side 2 of [drawCurrentPoint]. *)
Inductive EmissionKind : Type := Highlight | Normal.

Definition kind {N} (r : FillRect N) : option EmissionKind :=
  if decide (fillStyle r = "red" /\ rect_w r = 4%Z /\ rect_h r = 4%Z)
  then Some Highlight
  else if decide (fillStyle r = "black" /\ rect_w r = 2%Z /\ rect_h r = 2%Z)
       then Some Normal
       else None.

(** The rectangle [iterate] fills for the current point when [k] points have
    been drawn before it. *)
Definition emission {N} `{JSNumber N} (this : RandomIFS N) (k : Z) : FillRect N :=
  let pointInWindow := invWindowTransform this (currentPoint this) in
  if (k <? 10)%Z
  then Build_FillRect "red" (x pointInWindow)
         (num_sub (height (canvas this)) (y pointInWindow)) 4 4
  else Build_FillRect "black" (x pointInWindow)
         (num_sub (height (canvas this)) (y pointInWindow)) 2 2.

(** [calls] successive calls of [iterate], as the animation makes them. *)
Fixpoint iterate_calls {N} `{JSNumber N} (calls : nat) (this : RandomIFS N)
  : M N (RandomIFS N) :=
  match calls with
  | O => ret this
  | S calls' => let* this := iterate this in iterate_calls calls' this
  end.

(** The orbit states in which [updateCurrentPoint] has run at least once:
    the state after a step, and every state [iterate] leads to from there. *)
Inductive Updated {N} `{JSNumber N} : RandomIFS N -> Prop :=
| Updated_step this w this' w' :
    updateCurrentPoint this w = Returned (this', w') -> Updated this'
| Updated_iterate this w this' w' :
    Updated this -> iterate this w = Returned (this', w') -> Updated this'.

(** Both coordinates are integers. *)
Definition integral (p : Coordinate Q) : Prop :=
  exists X Y : Z, p = {| x := inject_Z X; y := inject_Z Y |}.

(** ** Observations of the search *)

Section Trial.
Context {N : Type} `{JSNumber N}.
Local Open Scope js_scope.

(** The test of one trial of [findFixedPointStochastic]: the window point
    [p] and its image under [T] differ by at most [POINT_TOLERANCE] on each
    axis. *)
Definition within_tolerance (T : Matrix N) (p : Coordinate N) : bool :=
  (num_abs (x p - x (applyMatrix T p)) <=? POINT_TOLERANCE)
  && (num_abs (y p - y (applyMatrix T p)) <=? POINT_TOLERANCE).

(** The window point of the trial that starts in the world [w], and the
    world after its two draws. *)
Definition trial_point (this : Frame N) (w : World N) : Coordinate N :=
  windowTransform this
    {| x := num_floor (random w (randomCalls w) * width (canvas this));
       y := num_floor (random w (S (randomCalls w)) * height (canvas this)) |}.

Definition after_trial (w : World N) : World N :=
  {| heap := heap w; random := random w;
     randomCalls := S (S (randomCalls w)); fills := fills w |}.

End Trial.

(** ** The probability table, in the specification's words *)

Section Table.
Local Open Scope Q_scope.

(** A valid table: [n + 1] cumulative bounds for [n] matrices, from 0 to 1,
    never decreasing. *)
Definition validTable (this : Frame Q) : Prop :=
  length (transformProbs this) = S (length (matrices this)) /\
  (exists p, transformProbs this !! 0%nat = Some p /\ p == 0) /\
  (exists q, transformProbs this !! length (matrices this) = Some q /\ q == 1) /\
  (forall i p q, transformProbs this !! i = Some p ->
                 transformProbs this !! S i = Some q -> p <= q).

(** [cum[i] <= u < cum[i+1]], the interval of the specification. *)
Definition inHalfOpen (cum : list Q) (u : Q) (i : nat) : Prop :=
  exists p q, cum !! i = Some p /\ cum !! S i = Some q /\ p <= u /\ u < q.

(** [cum[i] <= u <= cum[i+1]], the interval [randomMatrix] tests. *)
Definition inClosed (cum : list Q) (u : Q) (i : nat) : Prop :=
  exists p q, cum !! i = Some p /\ cum !! S i = Some q /\ p <= u /\ u <= q.

(** [i] is the smallest index with the property [P]. *)
Definition smallest (P : nat -> Prop) (i : nat) : Prop :=
  P i /\ forall j, (j < i)%nat -> ~ P j.

(** The world after one call of [Math.random()]. *)
Definition after_draw {N} (w : World N) : World N :=
  {| heap := heap w; random := random w;
     randomCalls := S (randomCalls w); fills := fills w |}.

End Table.

(** ** Observations of the orbit *)

Section Orbit.
Context {N : Type} `{JSNumber N}.

(** The orbit [this] at another current point. *)
Definition at_point (this : RandomIFS N) (p : Coordinate N) : RandomIFS N :=
  {| frame := frame this; currentPoint := p;
     numPoints := numPoints this; numIters := numIters this;
     pointsDrawn := pointsDrawn this |}.

(** The matrix that [randomMatrix] returns when [Math.random()] returns its
    value number [k]. *)
Definition drawn_matrix (this : Frame N) (w : World N) (k : nat)
  : option (Matrix N) :=
  randomMatrix_loop this (random w k) 0 (length (matrices this)).

(** The matrices of [Ts] applied one after the other, the first one first. *)
Definition apply_all (Ts : list (Matrix N)) (p : Coordinate N) : Coordinate N :=
  foldl (fun q T => applyMatrix T q) p Ts.

(** The rectangle that marks the window point [p] as point number [k]. *)
Definition emission_at (this : Frame N) (p : Coordinate N) (k : Z) : FillRect N :=
  let pointInWindow := invWindowTransform this p in
  Build_FillRect (if (k <? 10)%Z then "red" else "black")
    (x pointInWindow) (num_sub (height (canvas this)) (y pointInWindow))
    (if (k <? 10)%Z then 4 else 2) (if (k <? 10)%Z then 4 else 2).

End Orbit.

(** The pixels of the canvas of 100 by 100, as points. *)
Definition in_canvas100 (p : Coordinate Q) : Prop :=
  (0 <= x p < 100)%Q /\ (0 <= y p < 100)%Q.


(** ** An orbit that doubles, in binary64

    One transform, [(x, y) |-> (2 x, 2 y)], with the bounds [[0, 1]]; the
    orbit starts at [(1, 1)]. *)
Definition transformDouble : AffineTransform float :=
  {| a := 2%float; b := 0%float; c := 0%float; d := 2%float;
     e := 0%float; f := 0%float |}.

Definition world_double : World float :=
  {| heap := <[0%nat := transformDouble]> ∅;
     random := fun _ => 0.5%float; randomCalls := 0; fills := [] |}.

Definition table_double : ProbabilityAffineTable float :=
  {| collectTransforms := [0%nat];
     collectProbabilities := [0%float; 1%float] |}.

Definition ones : Coordinate float := {| x := 1%float; y := 1%float |}.

(** A binary64 value that is an integer: a zero, or a finite
    [(-1)^s * m * 2^e] in which [2^-e] divides [m] when [e < 0].  The
    infinities and NaN are not. *)
Definition integer64 (v : float) : bool :=
  match Prim2SF v with
  | S754_zero _ => true
  | S754_finite _ m e => (0 <=? e)%Z || (Zpos m mod 2 ^ (- e) =? 0)%Z
  | _ => false
  end.

(** Both coordinates are integers, in binary64. *)
Definition integral64 (p : Coordinate float) : bool :=
  integer64 (x p) && integer64 (y p).

(** * WindowTable: the table of the window bounds ([window-table.ts])

    A JavaScript string is the list of its UTF-16 code units.  The element's
    [innerHTML] is modelled as the string last assigned to it, and the
    conversions between strings and numbers ([+s], [""+v]) are parameters. *)

Abbreviation JSString := (list N).

(** The code units of a string of ASCII characters. *)
Definition units (s : string) : JSString :=
  Ascii.N_of_ascii <$> String.list_ascii_of_string s.

(** The class [\s] of regular expressions: white space and line
    terminators. *)
Definition is_space (u : N) : bool :=
  ((9 <=? u) && (u <=? 13) || (u =? 32) || (u =? 160) || (u =? 5760)
   || (8192 <=? u) && (u <=? 8202) || (u =? 8232) || (u =? 8233)
   || (u =? 8239) || (u =? 8287) || (u =? 12288) || (u =? 65279))%N.

Definition slash : N := 47.

(** [html.includes("/")] *)
Definition includes_slash (html : JSString) : bool :=
  existsb (N.eqb slash) html.

(** [html.replace(/\s/g, "")] *)
Definition remove_spaces (html : JSString) : JSString :=
  filter (fun u => is_space u = false) html.

(** [s.split('/')]: the pieces between the slashes, at least one. *)
Fixpoint split_slash (s : JSString) : list JSString :=
  match s with
  | [] => [[]]
  | u :: rest =>
      if (u =? slash)%N then [] :: split_slash rest
      else match split_slash rest with
           | piece :: pieces => (u :: piece) :: pieces
           | [] => [[u]]
           end
  end.

(** [pattern] starts [s]. *)
Fixpoint starts_with (pattern s : JSString) : bool :=
  match pattern, s with
  | [], _ => true
  | _ :: _, [] => false
  | p :: pattern', u :: s' => (p =? u)%N && starts_with pattern' s'
  end.

(** The length of the match of [<br ?\/?>] at the start of [s], if there is
    one; the optional space and the optional slash are tried before their
    absence. *)
Definition br_tag_length (s : JSString) : option nat :=
  if starts_with (units "<br />") s then Some 6%nat
  else if starts_with (units "<br >") s then Some 5%nat
  else if starts_with (units "<br/>") s then Some 5%nat
  else if starts_with (units "<br>") s then Some 4%nat
  else None.

(** [html.replace(/(<br ?\/?>)*/g, "")], with [skip] code units of a match
    still to drop: at each position the tags that start there are dropped,
    and the scan goes on behind them; any other code unit is kept. *)
Fixpoint remove_br_from (skip : nat) (s : JSString) : JSString :=
  match s with
  | [] => []
  | u :: rest =>
      match skip with
      | S skip' => remove_br_from skip' rest
      | O =>
          match br_tag_length s with
          | Some n => remove_br_from (n - 1) rest
          | None => u :: remove_br_from 0 rest
          end
      end
  end.

Definition remove_br (html : JSString) : JSString := remove_br_from 0 html.

(** The rows of an [HTMLTableElement], each the [innerHTML] of its cells. *)
Abbreviation HTMLTableElement := (list (list JSString)).

Section WindowTable.
Context {Num : Type} `{JSNumber Num}.

(** [+s] for a string [s], and for [undefined] (NaN). *)
Variable Number_of_string : JSString -> Num.
Variable Number_of_undefined : Num.

(** [""+v] *)
Variable String_of_number : Num -> JSString.

Definition parseTableEntry (html : JSString) : Num :=
  if includes_slash html then
    let frac := split_slash (remove_spaces html) in
    num_div
      (from_option Number_of_string Number_of_undefined (frac !! 0%nat))
      (from_option Number_of_string Number_of_undefined (frac !! 1%nat))
  else Number_of_string (remove_spaces (remove_br html)).

(** [row.cells[c].innerHTML], where [row] is [table.rows[r]]: reading a
    property of [undefined] throws. *)
Definition cell (table : HTMLTableElement) (r c : nat) : option JSString :=
  row ← table !! r; row !! c.

Definition getWindowBounds (table : HTMLTableElement)
  : JSError + WindowCoordinates Num :=
  match cell table 1 1, cell table 2 1, cell table 1 2, cell table 2 2 with
  | Some min1, Some max1, Some min2, Some max2 =>
      inr {| win_a1 := parseTableEntry min1; win_b1 := parseTableEntry max1;
             win_a2 := parseTableEntry min2; win_b2 := parseTableEntry max2 |}
  | _, _, _, _ => inl TypeError
  end.

(** [table.rows[r].cells[c].innerHTML = html]; the table as it is when the
    assignment throws. *)
Definition set_cell (table : HTMLTableElement) (r c : nat) (html : JSString)
  : option HTMLTableElement :=
  row ← table !! r;
  _ ← row !! c;
  Some (<[r := <[c := html]> row]> table).

(** [applyPreset]: the table after the call, and whether it threw; the
    assignments made before a throw stay. *)
Definition applyPreset (table : HTMLTableElement)
    (preset : WindowCoordinates Num) : HTMLTableElement * option JSError :=
  match set_cell table 1 1 (String_of_number (win_a1 preset)) with
  | None => (table, Some TypeError)
  | Some t1 =>
      match set_cell t1 2 1 (String_of_number (win_b1 preset)) with
      | None => (t1, Some TypeError)
      | Some t2 =>
          match set_cell t2 1 2 (String_of_number (win_a2 preset)) with
          | None => (t2, Some TypeError)
          | Some t3 =>
              match set_cell t3 2 2 (String_of_number (win_b2 preset)) with
              | None => (t3, Some TypeError)
              | Some t4 => (t4, None)
              end
          end
      end
  end.

End WindowTable.

(** For the examples: strings of decimal digits read as numbers, any other
    string as [other]; and natural numbers written in decimal digits. *)
Fixpoint decimal_from (value : Z) (s : JSString) : option Z :=
  match s with
  | [] => Some value
  | u :: rest =>
      if ((48 <=? u) && (u <=? 57))%N
      then decimal_from (10 * value + (Z.of_N u - 48)) rest
      else None
  end.

Definition decimal (other : Q) (s : JSString) : Q :=
  match s with
  | [] => other
  | _ => from_option inject_Z other (decimal_from 0 s)
  end.

Fixpoint digits_from (fuel : nat) (n : N) (acc : JSString) : JSString :=
  match fuel with
  | O => acc
  | S fuel' =>
      let acc' := (48 + n mod 10)%N :: acc in
      if (n / 10 =? 0)%N then acc' else digits_from fuel' (n / 10)%N acc'
  end.

Definition digit_string (q : Q) : JSString :=
  let n := Z.to_N (Qfloor q) in
  digits_from (S (N.to_nat (N.log2 n))) n [].

(** A table as the page has it: a header row, then the row of the minima
    and the row of the maxima, each with a label in front; and such a table
    that has lost its last row. *)
Definition table_page : HTMLTableElement :=
  [[units ""; units "x"; units "y"];
   [units "min"; units "0"; units "0"];
   [units "max"; units "1"; units "1"]].

Definition table_short : HTMLTableElement :=
  [[units ""; units "x"; units "y"];
   [units "min"; units "0"; units "0"]].

(** * DrawingCanvas: freehand drawing ([drawing.ts])

    The 2D context is outside the class: what the class does to it is the
    list of the operations it performs, oldest first.  The one value the
    class reads from the context, [ctx.lineWidth], and the rectangle that
    [getBoundingClientRect()] returns are given with each event. *)

Module DrawingCanvas.

(** An operation on the context: an assignment to one of its properties or
    a call of one of its methods. *)
Inductive CtxOp (N : Type) : Type :=
| set_lineWidth (w : N)
| set_strokeStyle (color : string)
| set_fillStyle (color : string)
| beginPath
| closePath
| moveTo (px py : N)
| lineTo (px py : N)
| stroke
| fillRect (px py w h : N)
| putImageData_createImageData (w h : N).
Arguments set_lineWidth {N}.
Arguments set_strokeStyle {N}.
Arguments set_fillStyle {N}.
Arguments beginPath {N}.
Arguments closePath {N}.
Arguments moveTo {N}.
Arguments lineTo {N}.
Arguments stroke {N}.
Arguments fillRect {N}.
Arguments putImageData_createImageData {N}.

(** [canvas.width] and [canvas.height] of the element. *)
Definition size {N : Type} (cv : HTMLCanvasElement N) : N * N :=
  (width cv, height cv).

(** The fields of the object; [ctx] is the list of operations performed. *)
Record t (N : Type) : Type := {
  canvas : HTMLCanvasElement N;
  ctx : list (CtxOp N);
  width : N;
  height : N;
  drawing : bool;
  prevCoordinate : Coordinate N;
  currCoordinate : Coordinate N
}.
Arguments Build_t {N}.
Arguments canvas {N}.
Arguments ctx {N}.
Arguments width {N}.
Arguments height {N}.
Arguments drawing {N}.
Arguments prevCoordinate {N}.
Arguments currCoordinate {N}.

(** What a mouse event brings: the pointer ([clientX], [clientY]), the
    corner of the canvas in the viewport ([rect.left], [rect.top]) and the
    line width the context reports. *)
Record MouseEvent (N : Type) : Type := {
  clientX : N; clientY : N;
  rect_left : N; rect_top : N;
  ctx_lineWidth : N
}.
Arguments Build_MouseEvent {N}.
Arguments clientX {N}.
Arguments clientY {N}.
Arguments rect_left {N}.
Arguments rect_top {N}.
Arguments ctx_lineWidth {N}.

Section Methods.
Context {N : Type} `{JSNumber N}.

Definition defaultColor : string := "black".
Definition defaultWidth : N := num_of_Z 6.

Definition perform (ops : list (CtxOp N)) (this : t N) : t N :=
  {| canvas := canvas this; ctx := ctx this ++ ops;
     width := width this; height := height this;
     drawing := drawing this;
     prevCoordinate := prevCoordinate this;
     currCoordinate := currCoordinate this |}.

Definition updateColor (newColor : string) (this : t N) : t N :=
  perform [set_strokeStyle newColor; set_fillStyle newColor] this.

Definition updateDrawingTools (newColor : string) (newWidth : N) (this : t N)
  : t N :=
  perform [set_lineWidth newWidth; set_strokeStyle newColor] this.

Definition resetDrawingTools (this : t N) : t N :=
  updateDrawingTools defaultColor defaultWidth this.

Definition zero : Coordinate N := {| x := num_of_Z 0; y := num_of_Z 0 |}.

Definition clear (this : t N) : t N :=
  {| canvas := canvas this;
     ctx := ctx this
            ++ [putImageData_createImageData
                  (size (canvas this)).1 (size (canvas this)).2];
     width := width this; height := height this;
     drawing := drawing this;
     prevCoordinate := zero; currCoordinate := zero |}.

Definition draw (this : t N) : t N :=
  perform [beginPath;
           moveTo (x (prevCoordinate this)) (y (prevCoordinate this));
           lineTo (x (currCoordinate this)) (y (currCoordinate this));
           stroke; closePath] this.

Definition set_drawing (flag : bool) (this : t N) : t N :=
  {| canvas := canvas this; ctx := ctx this;
     width := width this; height := height this;
     drawing := flag;
     prevCoordinate := prevCoordinate this;
     currCoordinate := currCoordinate this |}.

(** The first [if] of [parseAction]: the pointer becomes the current
    coordinate, the current one the previous one. *)
Definition track (event : MouseEvent N) (this : t N) : t N :=
  {| canvas := canvas this; ctx := ctx this;
     width := width this; height := height this;
     drawing := drawing this;
     prevCoordinate := currCoordinate this;
     currCoordinate :=
       {| x := num_sub (clientX event) (rect_left event);
          y := num_sub (clientY event) (rect_top event) |} |}.

Definition parseAction (action : string) (event : MouseEvent N) (this : t N)
  : t N :=
  let this :=
    if bool_decide (action = "down")
       || bool_decide (action = "move") && drawing this
    then track event this else this in
  let this :=
    if bool_decide (action = "down") then
      perform [beginPath;
               fillRect (x (currCoordinate this)) (y (currCoordinate this))
                        (ctx_lineWidth event) (ctx_lineWidth event);
               closePath]
        (set_drawing true this)
    else if bool_decide (action = "up") || bool_decide (action = "out")
    then set_drawing false this
    else this in
  if bool_decide (action = "move") && drawing this then draw this else this.

(** The listeners that [initializeCanvas] adds, by the type of the event. *)
Definition listener (type : string) : option string :=
  if bool_decide (type = "mousemove") then Some "move"
  else if bool_decide (type = "mousedown") then Some "down"
  else if bool_decide (type = "mouseup") then Some "up"
  else if bool_decide (type = "mouseout") then Some "out"
  else None.

(** An event of the given type reaches the canvas. *)
Definition dispatch (type : string) (event : MouseEvent N) (this : t N) : t N :=
  match listener type with
  | Some action => parseAction action event this
  | None => this
  end.

(** The constructor, on a canvas whose context has seen [ops] so far. *)
Definition constructor (cv : HTMLCanvasElement N) (ops : list (CtxOp N)) : t N :=
  updateDrawingTools "black" (num_of_Z 9)
    {| canvas := cv; ctx := ops;
       width := (size cv).1; height := (size cv).2;
       drawing := false; prevCoordinate := zero; currCoordinate := zero |}.

(** The events of [events] reach the canvas, in order. *)
Definition dispatch_all (events : list (string * MouseEvent N)) (this : t N)
  : t N :=
  foldl (fun st ev => dispatch ev.1 ev.2 st) this events.

(** [parseAction] called once for each entry of [actions], in order. *)
Definition parse_all (actions : list (string * MouseEvent N)) (this : t N)
  : t N :=
  foldl (fun st ev => parseAction ev.1 ev.2 st) this actions.

(** The pointer of an event relative to the canvas. *)
Definition point (event : MouseEvent N) : Coordinate N :=
  {| x := num_sub (clientX event) (rect_left event);
     y := num_sub (clientY event) (rect_top event) |}.

(** The operations that draw the dot of a press. *)
Definition dot (event : MouseEvent N) : list (CtxOp N) :=
  [beginPath;
   fillRect (x (point event)) (y (point event))
            (ctx_lineWidth event) (ctx_lineWidth event);
   closePath].

(** The operations that draw the segment from [p] to [q]. *)
Definition segment (p q : Coordinate N) : list (CtxOp N) :=
  [beginPath; moveTo (x p) (y p); lineTo (x q) (y q); stroke; closePath].

(** The segments that join [p] and the points of [qs] in order. *)
Fixpoint polyline (p : Coordinate N) (qs : list (Coordinate N))
  : list (CtxOp N) :=
  match qs with
  | [] => []
  | q :: qs' => segment p q ++ polyline q qs'
  end.

(** An operation that changes the drawing tools or replaces the image. *)
Definition is_setting (op : CtxOp N) : bool :=
  match op with
  | set_lineWidth _ | set_strokeStyle _ | set_fillStyle _
  | putImageData_createImageData _ _ => true
  | _ => false
  end.

End Methods.

End DrawingCanvas.

(** A drawing canvas of 100 by 100 pixels, just constructed, and mouse
    events on a page that shows it 8 pixels from the left and 8 from the
    top, with a pen 9 wide. *)
Definition pad : DrawingCanvas.t Q := DrawingCanvas.constructor canvas100 [].

Definition pointer (cx cy : Q) : DrawingCanvas.MouseEvent Q :=
  {| DrawingCanvas.clientX := cx; DrawingCanvas.clientY := cy;
     DrawingCanvas.rect_left := 8%Q; DrawingCanvas.rect_top := 8%Q;
     DrawingCanvas.ctx_lineWidth := 9%Q |}.

(** * Properties *)

(** ** The number models, on examples *)

Example floor_exact_neg : Exact.floor (- (1 # 5)) = inject_Z (-1).
Proof. reflexivity. Qed.

Example floor_binary64 :
  (Binary64.floor 2.5%float, Binary64.floor (-0.5)%float,
   Binary64.floor (-3)%float, Binary64.floor 13.999999999999996%float)
  = (2%float, (-1)%float, (-3)%float, 13%float).
Proof. vm_compute. reflexivity. Qed.

(** Distinct binary64 values are distinct terms. *)
Lemma float_neq (u v : float) : PrimFloat.eqb u v = false ->
  PrimFloat.eqb v v = true -> u <> v.
Proof. intros Hne Hrefl ->. rewrite Hrefl in Hne. discriminate. Qed.

(** ** Effects: inversion of [bind] *)

Lemma bind_Returned {N A B} (m : M N A) (k : A -> M N B) w r :
  bind m k w = Returned r ->
  exists v w', m w = Returned (v, w') /\ k v w' = Returned r.
Proof.
  unfold bind. destruct (m w) as [[v w']| |]; [|discriminate..].
  intros Hk. by exists v, w'.
Qed.

Lemma bind_Returned_intro {N A B} (m : M N A) (k : A -> M N B) w v w' :
  m w = Returned (v, w') -> bind m k w = k v w'.
Proof. unfold bind. by intros ->. Qed.

(** ** Window and canvas coordinates *)

Section RoundTrip.
Local Open Scope Q_scope.

Lemma window_axis_roundtrip (v o lo hi : Q) :
  ~ hi == lo -> (v - o) * (hi - lo) / (hi - lo) + o == v.
Proof. intros Hne. field. intros Hz. apply Hne. lra. Qed.

(** C1, over exact arithmetic: for a non-degenerate window, mapping a canvas
    point to the window and back yields the point floored to the pixel
    grid (on both axes, wherever the point lies). *)
Theorem invWindowTransform_windowTransform_exact
    (this : Frame Q) (p : Coordinate Q) :
  ~ b1 this == a1 this -> ~ b2 this == a2 this ->
  invWindowTransform this (windowTransform this p)
  = {| x := Exact.floor (x p); y := Exact.floor (y p) |}.
Proof.
  intros H1 H2. unfold invWindowTransform, windowTransform; cbn.
  unfold Exact.floor.
  f_equal; f_equal; apply Qfloor_comp; by apply window_axis_roundtrip.
Qed.

Lemma invWindowTransform_windowTransform_exact_witness :
  (~ b1 (frame_AB narrowWindowQ) == a1 (frame_AB narrowWindowQ)) /\
  (~ b2 (frame_AB narrowWindowQ) == a2 (frame_AB narrowWindowQ)) /\
  invWindowTransform (frame_AB narrowWindowQ)
    (windowTransform (frame_AB narrowWindowQ) {| x := 14; y := 183 # 2 |})
  = {| x := 14; y := 91 |}.
Proof.
  assert (Hne : ~ 7 # 10 == 1 # 10) by (intros Hq; discriminate Hq).
  split; [exact Hne|]. split; [exact Hne|].
  exact (invWindowTransform_windowTransform_exact
           (frame_AB narrowWindowQ) {| x := 14; y := 183 # 2 |} Hne Hne).
Defined.

End RoundTrip.

(** C1 as stated fails on binary64: on a canvas of 100 by 100 with the window
    [0.1 .. 0.7] the origin offset is [-16.666666666666668]; pixel 14 maps to
    the window coordinate [18.4] and back to [13.999999999999996], which
    floors to 13, and pixel 91 comes back as 90. *)
Lemma invWindowTransform_windowTransform_binary64 :
  PrimFloat.eqb (b1 (frame_AB narrowWindow64)) (a1 (frame_AB narrowWindow64)) = false /\
  PrimFloat.eqb (b2 (frame_AB narrowWindow64)) (a2 (frame_AB narrowWindow64)) = false /\
  invWindowTransform (frame_AB narrowWindow64)
    (windowTransform (frame_AB narrowWindow64) {| x := 14%float; y := 91%float |})
  = {| x := 13%float; y := 90%float |} /\
  invWindowTransform (frame_AB narrowWindow64)
    (windowTransform (frame_AB narrowWindow64) {| x := 14%float; y := 91%float |})
  <> {| x := Binary64.floor 14%float; y := Binary64.floor 91%float |}.
Proof.
  split; [vm_compute; reflexivity|]. split; [vm_compute; reflexivity|].
  assert (Heq : invWindowTransform (frame_AB narrowWindow64)
    (windowTransform (frame_AB narrowWindow64) {| x := 14%float; y := 91%float |})
  = {| x := 13%float; y := 90%float |}) by (vm_compute; reflexivity).
  split; [exact Heq|]. rewrite Heq. intros Hbad.
  apply (f_equal x) in Hbad. revert Hbad.
  apply float_neq; vm_compute; reflexivity.
Qed.

(** ** What the methods do to the object and the world, for every number
    model *)

Section Structure.
Context {N : Type} `{JSNumber N}.

Lemma Math_random_eq (w : World N) :
  Math_random w
  = Returned (random w (randomCalls w),
              {| heap := heap w; random := random w;
                 randomCalls := S (randomCalls w); fills := fills w |}).
Proof. reflexivity. Qed.

(** *** [randomMatrix] *)

Lemma randomMatrix_loop_elem (this : Frame N) rand i n m :
  randomMatrix_loop this rand i n = Some m -> m ∈ matrices this.
Proof.
  revert i. induction n as [|n IH]; intros i; simpl.
  - apply last_Some_elem_of.
  - destruct (probTest this rand i); [apply list_elem_of_lookup_2|apply IH].
Qed.

Lemma randomMatrix_loop_is_Some (this : Frame N) rand i n :
  matrices this <> [] -> (i + n)%nat = length (matrices this) ->
  is_Some (randomMatrix_loop this rand i n).
Proof.
  intros Hne. revert i. induction n as [|n IH]; intros i Hlen; simpl.
  - by apply last_is_Some.
  - destruct (probTest this rand i).
    + apply lookup_lt_is_Some_2. lia.
    + apply IH. lia.
Qed.

(** The loop returns the matrix at the first index that passes the test,
    and the last matrix when none does. *)
Lemma randomMatrix_loop_first (this : Frame N) rand i n k :
  (i <= k < i + n)%nat ->
  probTest this rand k = true ->
  (forall j, (i <= j < k)%nat -> probTest this rand j = false) ->
  randomMatrix_loop this rand i n = matrices this !! k.
Proof.
  revert i. induction n as [|n IH]; intros i Hk Hat Hbefore; [lia|].
  simpl. destruct (decide (i = k)) as [->|Hik].
  - by rewrite Hat.
  - rewrite Hbefore by lia. apply IH; [lia|done|].
    intros j Hj. apply Hbefore. lia.
Qed.

Lemma randomMatrix_loop_none (this : Frame N) rand i n :
  (forall j, (i <= j < i + n)%nat -> probTest this rand j = false) ->
  randomMatrix_loop this rand i n = last (matrices this).
Proof.
  revert i. induction n as [|n IH]; intros i Hnone; [done|].
  simpl. rewrite Hnone by lia. apply IH. intros j Hj. apply Hnone. lia.
Qed.

Lemma randomMatrix_eq (this : Frame N) (w : World N) :
  randomMatrix this w
  = Returned (randomMatrix_loop this (random w (randomCalls w)) 0
                (length (matrices this)),
              {| heap := heap w; random := random w;
                 randomCalls := S (randomCalls w); fills := fills w |}).
Proof. reflexivity. Qed.

(** *** [updateCurrentPoint] and [iterate] *)

Lemma updateCurrentPoint_Returned (this this' : RandomIFS N) w w' :
  updateCurrentPoint this w = Returned (this', w') ->
  (exists m, m ∈ matrices this /\
             currentPoint this' = applyMatrix m (currentPoint this)) /\
  frame this' = frame this /\ numPoints this' = numPoints this /\
  numIters this' = numIters this /\ pointsDrawn this' = pointsDrawn this /\
  fills w' = fills w.
Proof.
  unfold updateCurrentPoint. rewrite (bind_Returned_intro _ _ _ _ _ (randomMatrix_eq this w)).
  destruct (randomMatrix_loop _ _ _ _) as [m|] eqn:Hm; [|discriminate].
  cbn. intros [= <- <-]. cbn. split; [|done].
  exists m. split; [|done]. by eapply randomMatrix_loop_elem.
Qed.

Lemma updateCurrentPoint_total (this : RandomIFS N) w :
  matrices this <> [] ->
  exists this' w', updateCurrentPoint this w = Returned (this', w').
Proof.
  intros Hne. unfold updateCurrentPoint.
  rewrite (bind_Returned_intro _ _ _ _ _ (randomMatrix_eq this w)).
  destruct (randomMatrix_loop_is_Some this (random w (randomCalls w)) 0
              (length (matrices this)) Hne eq_refl) as [m ->].
  cbn. eauto.
Qed.

Lemma draw_eq (this : RandomIFS N) (w : World N) :
  (if (pointsDrawn this <? 10)%Z
   then drawCurrentPointRed this else drawCurrentPoint this) w
  = Returned (tt, {| heap := heap w; random := random w;
                     randomCalls := randomCalls w;
                     fills := fills w ++ [emission this (pointsDrawn this)] |}).
Proof. unfold emission. by destruct (pointsDrawn this <? 10)%Z. Qed.

Lemma kind_emission (this : RandomIFS N) (k : Z) :
  kind (emission this k) = Some (if (k <? 10)%Z then Highlight else Normal).
Proof. unfold emission. by destruct (k <? 10)%Z. Qed.

Lemma iterate_loop_Returned n (this this' : RandomIFS N) w w' :
  iterate_loop n this w = Returned (this', w') ->
  frame this' = frame this /\ numPoints this' = numPoints this /\
  numIters this' = numIters this /\
  pointsDrawn this' = (pointsDrawn this + Z.of_nat n)%Z /\
  exists emitted,
    fills w' = fills w ++ emitted /\ length emitted = n /\
    forall (j : nat) r, emitted !! j = Some r ->
      kind r = Some (if (pointsDrawn this + Z.of_nat j <? 10)%Z
                     then Highlight else Normal).
Proof.
  revert this w. induction n as [|n IH]; intros this w; simpl.
  - intros [= <- <-]. repeat split; [lia|].
    exists []. rewrite app_nil_r. repeat split. intros j r Hj. done.
  - rewrite (bind_Returned_intro _ _ _ _ _ (draw_eq this w)).
    intros Hrun. apply bind_Returned in Hrun as (this1 & w1 & Hup & Hrun).
    apply updateCurrentPoint_Returned in Hup
      as (_ & Hfr & Hnp & Hni & Hpd & Hfills).
    apply IH in Hrun as (Hfr' & Hnp' & Hni' & Hpd' & emitted & Hf & Hlen & Hk).
    cbn in *. rewrite Hfr', Hnp', Hni', Hpd', Hf, Hfills, Hpd.
    repeat split; try done; [lia|].
    exists (emission this (pointsDrawn this) :: emitted).
    split; [by rewrite <- app_assoc|]. split; [by rewrite <- Hlen|].
    intros [|j] r Hj; cbn in Hj.
    + injection Hj as <-. rewrite Z.add_0_r. apply kind_emission.
    + apply Hk in Hj. rewrite Hj, Hpd.
      by replace (pointsDrawn this + 1 + Z.of_nat j)%Z
        with (pointsDrawn this + Z.of_nat (S j))%Z by lia.
Qed.

Lemma iterate_loop_currentPoint n (this this' : RandomIFS N) w w' :
  iterate_loop n this w = Returned (this', w') ->
  (n = 0%nat /\ currentPoint this' = currentPoint this) \/
  (exists m p, currentPoint this' = applyMatrix m p).
Proof.
  revert this w. induction n as [|n IH]; intros this w; simpl.
  - intros [= <- <-]. by left.
  - rewrite (bind_Returned_intro _ _ _ _ _ (draw_eq this w)).
    intros Hrun. apply bind_Returned in Hrun as (this1 & w1 & Hup & Hrun).
    apply updateCurrentPoint_Returned in Hup as ((m & _ & Hcp) & _).
    right. apply IH in Hrun as [[_ Hsame]|Hnew]; [|done].
    cbn in Hsame. rewrite Hsame, Hcp. by eexists _, _.
Qed.

Lemma iterate_loop_total n (this : RandomIFS N) w :
  matrices this <> [] ->
  exists this' w', iterate_loop n this w = Returned (this', w').
Proof.
  revert this w. induction n as [|n IH]; intros this w Hne; simpl.
  - by eexists _, _.
  - rewrite (bind_Returned_intro _ _ _ _ _ (draw_eq this w)).
    destruct (updateCurrentPoint_total this
                {| heap := heap w; random := random w;
                   randomCalls := randomCalls w;
                   fills := fills w ++ [emission this (pointsDrawn this)] |}
                Hne) as (this1 & w1 & Hup).
    rewrite (bind_Returned_intro _ _ _ _ _ Hup).
    apply IH. cbn.
    apply updateCurrentPoint_Returned in Hup as (_ & -> & _). done.
Qed.

Lemma iterate_Returned (this this' : RandomIFS N) w w' :
  iterate this w = Returned (this', w') ->
  frame this' = frame this /\ numPoints this' = numPoints this /\
  numIters this' = (numIters this + 1)%Z /\
  pointsDrawn this'
  = (pointsDrawn this + Z.of_nat (Z.to_nat (numPoints this)))%Z /\
  exists emitted,
    fills w' = fills w ++ emitted /\
    length emitted = Z.to_nat (numPoints this) /\
    forall (j : nat) r, emitted !! j = Some r ->
      kind r = Some (if (pointsDrawn this + Z.of_nat j <? 10)%Z
                     then Highlight else Normal).
Proof. unfold iterate. intros Hrun. by apply iterate_loop_Returned in Hrun. Qed.

Lemma iterate_total (this : RandomIFS N) w :
  matrices this <> [] -> exists this' w', iterate this w = Returned (this', w').
Proof. intros Hne. unfold iterate. by apply iterate_loop_total. Qed.

(** C6: a call of [iterate] on an orbit whose table is not empty returns,
    with [numIters] one higher whatever [numPoints] is, and [pointsDrawn]
    higher by [numPoints], one rectangle filled and one increment for each of
    these points (none when [numPoints] is negative). *)
Theorem iterate_counters (this : RandomIFS N) (w : World N) :
  matrices this <> [] ->
  exists this' w' emitted,
    iterate this w = Returned (this', w') /\
    numIters this' = (numIters this + 1)%Z /\
    pointsDrawn this' = (pointsDrawn this + Z.max 0 (numPoints this))%Z /\
    fills w' = fills w ++ emitted /\
    Z.of_nat (length emitted) = Z.max 0 (numPoints this).
Proof.
  intros Hne. destruct (iterate_total this w Hne) as (this' & w' & Hrun).
  destruct (iterate_Returned _ _ _ _ Hrun)
    as (_ & _ & Hni & Hpd & emitted & Hf & Hlen & _).
  exists this', w', emitted. repeat split; try done; lia.
Qed.

Lemma iterate_calls_emissions (calls : nat) (this : RandomIFS N) (w : World N) :
  matrices this <> [] ->
  exists this' w' emitted,
    iterate_calls calls this w = Returned (this', w') /\
    fills w' = fills w ++ emitted /\
    (pointsDrawn this + Z.of_nat (length emitted))%Z = pointsDrawn this' /\
    forall (j : nat) r, emitted !! j = Some r ->
      kind r = Some (if (pointsDrawn this + Z.of_nat j <? 10)%Z
                     then Highlight else Normal).
Proof.
  revert this w. induction calls as [|calls IH]; intros this w Hne; simpl.
  - exists this, w, []. rewrite app_nil_r. cbn. repeat split; [lia|done].
  - destruct (iterate_total this w Hne) as (this1 & w1 & Hrun).
    rewrite (bind_Returned_intro _ _ _ _ _ Hrun).
    destruct (iterate_Returned _ _ _ _ Hrun)
      as (Hfr & _ & _ & Hpd & emitted1 & Hf1 & Hlen1 & Hk1).
    destruct (IH this1 w1) as (this' & w' & emitted2 & Hrun' & Hf2 & Hpd2 & Hk2);
      [by rewrite Hfr|].
    exists this', w', (emitted1 ++ emitted2).
    split; [done|]. split; [by rewrite Hf2, Hf1, app_assoc|].
    split; [rewrite length_app; lia|].
    intros j r Hj. apply lookup_app_Some in Hj as [Hj|[Hge Hj]]; [by apply Hk1|].
    apply Hk2 in Hj. rewrite Hj.
    by replace (pointsDrawn this1 + Z.of_nat (j - length emitted1))%Z
      with (pointsDrawn this + Z.of_nat j)%Z by lia.
Qed.

(** C7: on an orbit that has drawn nothing yet, over any number of calls of
    [iterate], the points drawn are, in order, ten highlighted ones (the
    first ten, or all of them when fewer are drawn) and then default ones:
    the [j]-th point, counted from 0, is highlighted exactly when [j < 10]. *)
Theorem first_ten_highlighted (calls : nat) (this : RandomIFS N) (w : World N) :
  matrices this <> [] -> pointsDrawn this = 0%Z ->
  exists this' w' emitted,
    iterate_calls calls this w = Returned (this', w') /\
    fills w' = fills w ++ emitted /\
    Z.of_nat (length emitted) = pointsDrawn this' /\
    forall (j : nat) r, emitted !! j = Some r ->
      kind r = Some (if (j <? 10)%nat then Highlight else Normal).
Proof.
  intros Hne Hzero.
  destruct (iterate_calls_emissions calls this w Hne)
    as (this' & w' & emitted & Hrun & Hf & Hpd & Hk).
  exists this', w', emitted. rewrite Hzero in *.
  repeat split; try done. intros j r Hj. rewrite (Hk j r Hj).
  destruct (Nat.ltb_spec j 10), (Z.ltb_spec (0 + Z.of_nat j) 10); done || lia.
Qed.

(** The loop either returns at the first index that passes the test, or
    finds none and returns the last matrix. *)
Lemma randomMatrix_loop_cases (this : Frame N) rand i n :
  (exists k, (i <= k < i + n)%nat /\ probTest this rand k = true /\
             (forall j, (i <= j < k)%nat -> probTest this rand j = false) /\
             randomMatrix_loop this rand i n = matrices this !! k) \/
  ((forall j, (i <= j < i + n)%nat -> probTest this rand j = false) /\
   randomMatrix_loop this rand i n = last (matrices this)).
Proof.
  revert i. induction n as [|n IH]; intros i.
  - right. split; [lia|done].
  - simpl. destruct (probTest this rand i) eqn:Hi.
    + left. exists i. split; [lia|]. split; [done|]. split; [|done].
      intros j Hj. lia.
    + destruct (IH (S i)) as [(k & Hk & Hat & Hbefore & Hres)|[Hnone Hres]].
      * left. exists k. split; [lia|]. split; [done|]. split; [|done].
        intros j Hj. destruct (decide (j = i)) as [->|]; [done|].
        apply Hbefore. lia.
      * right. split; [|done]. intros j Hj.
        destruct (decide (j = i)) as [->|]; [done|]. apply Hnone. lia.
Qed.

End Structure.

(** ** Calibration and construction, for every number model *)

Section Construction.
Context {N : Type} `{JSNumber N}.

Lemma calibrateAt_Returned (cv : HTMLCanvasElement N) (r : Ref) w t :
  heap w !! r = Some t ->
  calibrateAt cv r w
  = Returned (tt, {| heap := <[r := calibrated cv t]> (heap w);
                     random := random w; randomCalls := randomCalls w;
                     fills := fills w |}).
Proof. unfold calibrateAt. by intros ->. Qed.

(** A call of the loop on objects of the store returns; it touches the
    store only, where every object stays an object. *)
Lemma calibrate_loop_total (cv : HTMLCanvasElement N) (refs : list Ref) w :
  Forall (fun r => is_Some (heap w !! r)) refs ->
  exists w', calibrate_loop cv refs w = Returned (tt, w') /\
    random w' = random w /\ randomCalls w' = randomCalls w /\
    fills w' = fills w /\
    forall r, is_Some (heap w !! r) -> is_Some (heap w' !! r).
Proof.
  revert w. induction refs as [|r refs IH]; intros w Hvalid; simpl.
  - by exists w.
  - apply Forall_cons in Hvalid as [[t Ht] Hvalid].
    rewrite (bind_Returned_intro _ _ _ _ _ (calibrateAt_Returned cv r w t Ht)).
    destruct (IH {| heap := <[r := calibrated cv t]> (heap w);
                    random := random w; randomCalls := randomCalls w;
                    fills := fills w |})
      as (w' & Hrun & Hrandom & Hcalls & Hfills & Hdom).
    { eapply Forall_impl; [exact Hvalid|]. cbn. intros r' Hr'.
      by apply lookup_insert_is_Some'; right. }
    exists w'. repeat split; try done. intros r' Hr'. apply Hdom. cbn.
    by apply lookup_insert_is_Some'; right.
Qed.

(** On distinct objects, the loop calibrates each of them once and leaves
    the others as they are. *)
Lemma calibrate_loop_lookup (cv : HTMLCanvasElement N) (refs : list Ref) w w' :
  NoDup refs ->
  calibrate_loop cv refs w = Returned (tt, w') ->
  forall r, heap w' !! r
            = if decide (r ∈ refs) then calibrated cv <$> heap w !! r
              else heap w !! r.
Proof.
  revert w. induction refs as [|r0 refs IH]; intros w Hnodup;
    cbn [calibrate_loop].
  - intros [= <-] r. destruct (decide (r ∈ [])) as [Hin|_]; [|done].
    by apply elem_of_nil in Hin.
  - apply NoDup_cons in Hnodup as [Hfresh Hnodup].
    intros Hrun. apply bind_Returned in Hrun as ([] & w1 & Hat & Hrun).
    unfold calibrateAt in Hat.
    destruct (heap w !! r0) as [t|] eqn:Ht; [|discriminate].
    injection Hat as <-. intros r. rewrite (IH _ Hnodup Hrun r). cbn [heap].
    destruct (decide (r = r0)) as [->|Hne].
    + rewrite lookup_insert_eq, Ht.
      destruct (decide (r0 ∈ refs)) as [Hin|_]; [done|].
      destruct (decide (r0 ∈ r0 :: refs)) as [_|Hout]; [done|].
      exfalso. apply Hout. apply list_elem_of_here.
    + rewrite lookup_insert_ne by done.
      destruct (decide (r ∈ refs)) as [Hin|Hout],
               (decide (r ∈ r0 :: refs)) as [Hin'|Hout']; try done.
      * exfalso. apply Hout'. by apply list_elem_of_further.
      * apply elem_of_cons in Hin' as [->|Hin']; done.
Qed.

Lemma calibrateAffineTransforms_eq (cv : HTMLCanvasElement N) refs w w' :
  calibrate_loop cv refs w = Returned (tt, w') ->
  calibrateAffineTransforms cv refs w = Returned (refs, w').
Proof.
  intros Hloop. unfold calibrateAffineTransforms.
  by rewrite (bind_Returned_intro _ _ _ _ _ Hloop).
Qed.

Lemma gatherMatrices_total (refs : list Ref) (w : World N) :
  Forall (fun r => is_Some (heap w !! r)) refs ->
  exists ms, gatherMatrices refs w = Returned (ms, w) /\
             length ms = length refs.
Proof.
  induction refs as [|r refs IH]; intros Hvalid; simpl.
  - by exists [].
  - apply Forall_cons in Hvalid as [[t Ht] Hvalid].
    destruct (IH Hvalid) as (ms & Hms & Hlen).
    exists (createMatrix t :: ms). unfold bind. rewrite Ht, Hms. cbn.
    by rewrite Hlen.
Qed.

(** With a starting point, the constructor runs one calibration, gathers
    the matrices and returns, whatever the window. *)
Lemma constructor_Returned fuel (cv : HTMLCanvasElement N)
    (table : ProbabilityAffineTable N) numPts
    (window : WindowCoordinates N) (sp : Coordinate N) (w : World N) :
  Forall (fun r => is_Some (heap w !! r)) (collectTransforms table) ->
  exists this w',
    constructor fuel cv table numPts window (Some sp) w = Returned (this, w') /\
    calibrateAffineTransforms cv (collectTransforms table) w
    = Returned (collectTransforms table, w') /\
    gatherMatrices (collectTransforms table) w' = Returned (matrices this, w') /\
    length (matrices this) = length (collectTransforms table) /\
    currentPoint this = sp /\
    (a1 this, b1 this, a2 this, b2 this)
    = (win_a1 window, win_b1 window, win_a2 window, win_b2 window) /\
    (numPoints this, numIters this, pointsDrawn this) = (numPts, 0%Z, 0%Z).
Proof.
  intros Hvalid.
  destruct (calibrate_loop_total cv _ w Hvalid)
    as (w' & Hloop & _ & _ & _ & Hdom).
  apply calibrateAffineTransforms_eq in Hloop.
  destruct (gatherMatrices_total (collectTransforms table) w')
    as (ms & Hms & Hlen).
  { eapply Forall_impl; [exact Hvalid|]. exact Hdom. }
  unfold constructor.
  rewrite (bind_Returned_intro _ _ _ _ _ Hloop).
  rewrite (bind_Returned_intro _ _ _ _ _ Hms). cbn.
  by eexists _, _.
Qed.

Lemma calibrated_twice (cv : HTMLCanvasElement N) (t : AffineTransform N) :
  e (calibrated cv (calibrated cv t))
  = num_mul (num_mul (e t) (width cv)) (width cv) /\
  f (calibrated cv (calibrated cv t))
  = num_mul (num_mul (f t) (height cv)) (height cv).
Proof. done. Qed.

(** C9, amended: calibration has no guard.  Every call on a set of
    transform objects multiplies the [e] of each by the canvas width and
    its [f] by the canvas height, so a second call on the same objects
    rescales them a second time; the constructor makes one call, and
    leaves the store as one call does. *)
Theorem calibration_rescales_on_every_call
    (cv : HTMLCanvasElement N) (refs : list Ref) (w : World N) :
  NoDup refs -> Forall (fun r => is_Some (heap w !! r)) refs ->
  exists w1 w2,
    calibrateAffineTransforms cv refs w = Returned (refs, w1) /\
    calibrateAffineTransforms cv refs w1 = Returned (refs, w2) /\
    (forall r t, r ∈ refs -> heap w !! r = Some t ->
       heap w1 !! r = Some (calibrated cv t) /\
       heap w2 !! r = Some (calibrated cv (calibrated cv t))) /\
    (forall fuel probs numPts window sp, exists this,
       constructor fuel cv
         {| collectTransforms := refs; collectProbabilities := probs |}
         numPts window (Some sp) w
       = Returned (this, w1)).
Proof.
  intros Hnodup Hvalid.
  destruct (calibrate_loop_total cv refs w Hvalid)
    as (w1 & Hloop1 & _ & _ & _ & Hdom).
  destruct (calibrate_loop_total cv refs w1) as (w2 & Hloop2 & _).
  { eapply Forall_impl; [exact Hvalid|]. exact Hdom. }
  exists w1, w2.
  split; [by apply calibrateAffineTransforms_eq|].
  split; [by apply calibrateAffineTransforms_eq|]. split.
  - intros r t Hin Ht.
    pose proof (calibrate_loop_lookup cv refs w w1 Hnodup Hloop1 r) as H1.
    pose proof (calibrate_loop_lookup cv refs w1 w2 Hnodup Hloop2 r) as H2.
    rewrite decide_True in H1, H2 by done.
    rewrite Ht in H1. rewrite H1 in H2. done.
  - intros fuel probs numPts window sp.
    destruct (constructor_Returned fuel cv
                {| collectTransforms := refs; collectProbabilities := probs |}
                numPts window sp w Hvalid)
      as (this & w1' & Hnew & Hcal & _).
    exists this. rewrite Hnew. do 2 f_equal.
    apply calibrateAffineTransforms_eq in Hloop1. cbn in Hcal. congruence.
Qed.

(** C8, amended: the constructor checks nothing.  With a starting point it
    returns an orbit for every window, degenerate or not, and for every
    table whose transforms are objects; no call of [iterate] on that orbit
    throws when the table holds a transform. *)
Theorem constructor_accepts_every_window fuel (cv : HTMLCanvasElement N)
    (table : ProbabilityAffineTable N) numPts
    (window : WindowCoordinates N) (sp : Coordinate N) (w : World N) :
  Forall (fun r => is_Some (heap w !! r)) (collectTransforms table) ->
  exists this w',
    constructor fuel cv table numPts window (Some sp) w = Returned (this, w') /\
    currentPoint this = sp /\
    (a1 this, b1 this, a2 this, b2 this)
    = (win_a1 window, win_b1 window, win_a2 window, win_b2 window) /\
    (collectTransforms table <> [] ->
     forall calls w1, exists this1 w1',
       iterate_calls calls this w1 = Returned (this1, w1')).
Proof.
  intros Hvalid.
  destruct (constructor_Returned fuel cv table numPts window sp w Hvalid)
    as (this & w' & Hnew & _ & _ & Hlen & Hsp & Hwin & _).
  exists this, w'. repeat split; try done.
  intros Hne calls w1.
  assert (Hms : matrices this <> []).
  { intros Hnil. rewrite Hnil in Hlen. by destruct (collectTransforms table). }
  destruct (iterate_calls_emissions calls this w1 Hms)
    as (this1 & w1' & _ & Hrun & _).
  by exists this1, w1'.
Qed.

End Construction.

(** ** The search for a seed, for every number model *)

Section Search.
Context {N : Type} `{JSNumber N}.
Local Open Scope js_scope.

Lemma tryFixedPoint_S (this : Frame N) (T : Matrix N) tries w :
  tryFixedPoint this (Some T) (S tries) w
  = if within_tolerance T (trial_point this w)
    then Returned (Some (trial_point this w), after_trial w)
    else tryFixedPoint this (Some T) tries (after_trial w).
Proof.
  unfold within_tolerance, trial_point. cbn.
  unfold bind; cbn. by destruct (_ && _).
Qed.

Lemma tryFixedPoint_undefined (this : Frame N) tries w r :
  tryFixedPoint this None tries w = Returned r -> r = (None, w).
Proof. destruct tries; cbn; [by intros [= <-]|discriminate]. Qed.

Lemma tryFixedPoint_Returned (this : Frame N) matrix tries w p w' :
  tryFixedPoint this matrix tries w = Returned (Some p, w') ->
  (exists T, matrix = Some T /\ within_tolerance T p = true) /\
  (exists w0, p = trial_point this w0).
Proof.
  destruct matrix as [T|];
    [|by intros Hrun; apply tryFixedPoint_undefined in Hrun].
  revert w. induction tries as [|tries IH]; intros w; [discriminate|].
  rewrite tryFixedPoint_S.
  destruct (within_tolerance T (trial_point this w)) eqn:Htest; [|apply IH].
  intros [= <- <-]. split; [by exists T|by exists w].
Qed.

Lemma findFixedPointStochastic_S fuel (this : Frame N) w :
  findFixedPointStochastic (S fuel) this w
  = (let* found :=
       tryFixedPoint this
         (randomMatrix_loop this (random w (randomCalls w)) 0
            (length (matrices this)))
         FIXED_PT_TRIES in
     match found with
     | Some p => ret p
     | None => findFixedPointStochastic fuel this
     end)
      {| heap := heap w; random := random w;
         randomCalls := S (randomCalls w); fills := fills w |}.
Proof. reflexivity. Qed.

(** A point the search returns passed the test of a trial, for a matrix of
    the table. *)
Lemma findFixedPointStochastic_Returned fuel (this : Frame N) w p w' :
  findFixedPointStochastic fuel this w = Returned (p, w') ->
  (exists T, T ∈ matrices this /\ within_tolerance T p = true) /\
  (exists w0, p = trial_point this w0).
Proof.
  revert w. induction fuel as [|fuel IH]; intros w; [discriminate|].
  rewrite findFixedPointStochastic_S. intros Hrun.
  apply bind_Returned in Hrun as ([q|] & w2 & Htry & Hrun).
  - injection Hrun as <- <-.
    apply tryFixedPoint_Returned in Htry as ((T & HT & Htest) & Hpoint).
    split; [|done]. exists T. split; [|done].
    by eapply randomMatrix_loop_elem.
  - by apply IH in Hrun.
Qed.

End Search.

(** The constructor on the table [A], [B]: it calibrates both transforms in
    the store and returns the orbit [orbit_AB]. *)
Lemma constructor_AB {N} `{JSNumber N} fuel numPts
    (window : WindowCoordinates N) (start : Coordinate N) (draw : N) :
  constructor fuel canvas100 table_AB numPts window (Some start) (world_AB draw)
  = Returned (orbit_AB window start numPts, world_AB_calibrated draw).
Proof. reflexivity. Qed.

Lemma iterate_counters_witness :
  matrices (orbit_AB (N := Q) unitWindow origin 3) <> [] /\
  exists this' w' emitted,
    iterate (orbit_AB unitWindow origin 3) (world_AB_calibrated (1 # 4))
    = Returned (this', w') /\
    numIters this' = 1%Z /\ pointsDrawn this' = 3%Z /\
    fills w' = fills (world_AB_calibrated (1 # 4)) ++ emitted /\
    Z.of_nat (length emitted) = 3%Z.
Proof.
  assert (Hne : matrices (orbit_AB (N := Q) unitWindow origin 3) <> [])
    by (intros Hnil; discriminate Hnil).
  split; [exact Hne|].
  exact (iterate_counters (orbit_AB unitWindow origin 3)
           (world_AB_calibrated (1 # 4)) Hne).
Defined.

Lemma first_ten_highlighted_witness :
  matrices (orbit_AB (N := Q) unitWindow origin 4) <> [] /\
  pointsDrawn (orbit_AB (N := Q) unitWindow origin 4) = 0%Z /\
  exists this' w' emitted,
    iterate_calls 3 (orbit_AB unitWindow origin 4) (world_AB_calibrated (1 # 4))
    = Returned (this', w') /\
    fills w' = fills (world_AB_calibrated (1 # 4)) ++ emitted /\
    Z.of_nat (length emitted) = pointsDrawn this' /\
    forall (j : nat) r, emitted !! j = Some r ->
      kind r = Some (if (j <? 10)%nat then Highlight else Normal).
Proof.
  assert (Hne : matrices (orbit_AB (N := Q) unitWindow origin 4) <> [])
    by (intros Hnil; discriminate Hnil).
  split; [exact Hne|]. split; [reflexivity|].
  exact (first_ten_highlighted 3 (orbit_AB unitWindow origin 4)
           (world_AB_calibrated (1 # 4)) Hne eq_refl).
Defined.

(** Three calls of [iterate] with four points each, seen on the canvas: ten
    red squares of side 4, then two black squares of side 2. *)
Example twelve_points_drawn :
  match iterate_calls 3 (orbit_AB (N := Q) unitWindow origin 4)
          (world_AB_calibrated (1 # 4)) with
  | Returned (this', w') =>
      (numIters this', pointsDrawn this', kind <$> fills w')
  | _ => (0%Z, 0%Z, [])
  end
  = (3%Z, 12%Z,
     replicate 10 (Some Highlight) ++ replicate 2 (Some Normal)).
Proof. vm_compute. reflexivity. Qed.

(** ** [applyMatrix], over exact arithmetic *)

Section ApplyMatrix.
Local Open Scope Q_scope.

Lemma floor_bounds (q : Q) :
  inject_Z (Qfloor q) <= q < inject_Z (Qfloor q) + 1.
Proof.
  split; [apply Qfloor_le|].
  change (q < inject_Z (Qfloor q) + inject_Z 1).
  rewrite <- inject_Z_plus. apply Qlt_floor.
Qed.

(** C2 as stated fails: the transform [A] of the scenario (halving towards
    the origin) sends [(1,1)] to [(0,0)], not to [(1/2,1/2)]. *)
Lemma applyMatrix_half_floored :
  applyMatrix (createMatrix transformA) {| x := 1; y := 1 |}
  = {| x := 0; y := 0 |} /\
  ~ (x (applyMatrix (createMatrix transformA) {| x := 1; y := 1 |})
     == a transformA * 1 + b transformA * 1 + e transformA /\
     y (applyMatrix (createMatrix transformA) {| x := 1; y := 1 |})
     == c transformA * 1 + d transformA * 1 + f transformA).
Proof.
  split; [reflexivity|]. intros [Hx _]. vm_compute in Hx. discriminate Hx.
Qed.

(** C2, amended: [applyMatrix] returns the affine image floored on each
    axis, that is the integers [X] and [Y] with
    [X <= a x + b y + e < X + 1] and [Y <= c x + d y + f < Y + 1]. *)
Theorem applyMatrix_floor (matrix : Matrix Q) (p : Coordinate Q) :
  exists X Y : Z,
    applyMatrix matrix p = {| x := inject_Z X; y := inject_Z Y |} /\
    inject_Z X <= m0 matrix * x p + m1 matrix * y p + m4 matrix
      < inject_Z X + 1 /\
    inject_Z Y <= m2 matrix * x p + m3 matrix * y p + m5 matrix
      < inject_Z Y + 1.
Proof.
  exists (Qfloor (m0 matrix * x p + m1 matrix * y p + m4 matrix)),
         (Qfloor (m2 matrix * x p + m3 matrix * y p + m5 matrix)).
  split; [reflexivity|]. split; apply floor_bounds.
Qed.

Lemma applyMatrix_integral (matrix : Matrix Q) (p : Coordinate Q) :
  integral (applyMatrix matrix p).
Proof. by eexists _, _. Qed.

(** C10, over exact arithmetic: in every orbit state in which
    [updateCurrentPoint] has run at least once, whatever number of [iterate]
    calls followed, both coordinates of the current point are integers. *)
Theorem currentPoint_integral (this : RandomIFS Q) :
  Updated this -> integral (currentPoint this).
Proof.
  induction 1 as [this w this' w' Hup|this w this' w' _ IH Hrun].
  - apply updateCurrentPoint_Returned in Hup as ((m & _ & ->) & _).
    apply applyMatrix_integral.
  - unfold iterate in Hrun.
    apply iterate_loop_currentPoint in Hrun as [[_ ->]|(m & p & ->)];
      [exact IH|apply applyMatrix_integral].
Qed.

Lemma currentPoint_integral_witness :
  exists this1 w1 this2 w2,
    updateCurrentPoint (orbit_AB unitWindow {| x := 1 # 3; y := 2 # 3 |} 2)
      (world_AB_calibrated (3 # 4)) = Returned (this1, w1) /\
    iterate this1 w1 = Returned (this2, w2) /\
    Updated this2 /\ integral (currentPoint this2).
Proof.
  let r1 := eval vm_compute in
    (updateCurrentPoint (orbit_AB unitWindow {| x := 1 # 3; y := 2 # 3 |} 2)
       (world_AB_calibrated (3 # 4))) in
  lazymatch r1 with
  | Returned (?s1, ?w1) =>
      let r2 := eval vm_compute in (iterate s1 w1) in
      lazymatch r2 with
      | Returned (?s2, ?w2) =>
          assert (Hstep :
            updateCurrentPoint
              (orbit_AB unitWindow {| x := 1 # 3; y := 2 # 3 |} 2)
              (world_AB_calibrated (3 # 4)) = Returned (s1, w1))
            by (vm_compute; reflexivity);
          assert (Hrun : iterate s1 w1 = Returned (s2, w2))
            by (vm_compute; reflexivity);
          exists s1, w1, s2, w2
      end
  end.
  split; [exact Hstep|]. split; [exact Hrun|].
  pose proof (Updated_iterate _ _ _ _ (Updated_step _ _ _ _ Hstep) Hrun)
    as Hupd.
  split; [exact Hupd|exact (currentPoint_integral _ Hupd)].
Defined.

End ApplyMatrix.

(** In every number model the coordinates of such a point are values that
    [Math.floor] returned; in binary64 these include NaN and the
    infinities. *)
Lemma currentPoint_floored {N : Type} `{JSNumber N} (this : RandomIFS N) :
  Updated this ->
  exists u v, currentPoint this = {| x := num_floor u; y := num_floor v |}.
Proof.
  induction 1 as [this w this' w' Hup|this w this' w' _ IH Hrun].
  - apply updateCurrentPoint_Returned in Hup as ((m & _ & ->) & _).
    by eexists _, _.
  - unfold iterate in Hrun.
    apply iterate_loop_currentPoint in Hrun as [[_ ->]|(m & p & ->)];
      [exact IH|by eexists _, _].
Qed.

(** ** The search for a seed, over exact arithmetic *)

Section SearchExact.
Local Open Scope Q_scope.

Lemma within_tolerance_exact (T : Matrix Q) (p : Coordinate Q) :
  within_tolerance T p = true ->
  Qabs (x (applyMatrix T p) - x p) <= 2 /\
  Qabs (y (applyMatrix T p) - y p) <= 2.
Proof.
  unfold within_tolerance. intros [Hx Hy]%andb_prop.
  apply Qle_bool_iff in Hx, Hy.
  split; rewrite Qabs_Qminus; [exact Hx|exact Hy].
Qed.

(** C4: a point [p] that the search returns comes with a transform [T] of
    the table whose image of [p] is within 2 of [p] on each axis (Chebyshev
    distance at most 2).  The search may also run for ever: nothing is
    said of a run that does not return. *)
Theorem findFixedPointStochastic_within_tolerance
    fuel (this : Frame Q) (w w' : World Q) (p : Coordinate Q) :
  findFixedPointStochastic fuel this w = Returned (p, w') ->
  exists T, T ∈ matrices this /\
    Qabs (x (applyMatrix T p) - x p) <= 2 /\
    Qabs (y (applyMatrix T p) - y p) <= 2.
Proof.
  intros Hrun.
  apply findFixedPointStochastic_Returned in Hrun as ((T & HT & Htest) & _).
  exists T. split; [exact HT|]. by apply within_tolerance_exact.
Qed.

(** Read on the affine image before the floor: it lies less than 3 above
    and at most 2 below the returned point, on each axis. *)
Lemma findFixedPointStochastic_affine_image
    fuel (this : Frame Q) (w w' : World Q) (p : Coordinate Q) :
  findFixedPointStochastic fuel this w = Returned (p, w') ->
  exists T, T ∈ matrices this /\
    x p - 2 <= m0 T * x p + m1 T * y p + m4 T < x p + 3 /\
    y p - 2 <= m2 T * x p + m3 T * y p + m5 T < y p + 3.
Proof.
  intros Hrun.
  apply findFixedPointStochastic_Returned in Hrun as ((T & HT & Htest) & _).
  exists T. split; [exact HT|].
  apply within_tolerance_exact in Htest as [Hx Hy].
  apply Qabs_Qle_condition in Hx, Hy. cbn in Hx, Hy. unfold Exact.floor in *.
  pose proof (floor_bounds (m0 T * x p + m1 T * y p + m4 T)).
  pose proof (floor_bounds (m2 T * x p + m3 T * y p + m5 T)).
  split; split; lra.
Qed.

Lemma findFixedPointStochastic_within_tolerance_witness :
  findFixedPointStochastic 1 (frame_AB unitWindow)
    (world_AB_calibrated (3 # 100))
  = Returned ({| x := 3; y := 3 |},
              {| heap := heap (world_AB_calibrated (3 # 100));
                 random := fun _ => 3 # 100; randomCalls := 3;
                 fills := [] |}) /\
  exists T, T ∈ matrices (frame_AB unitWindow) /\
    Qabs (x (applyMatrix T {| x := 3; y := 3 |}) - 3) <= 2 /\
    Qabs (y (applyMatrix T {| x := 3; y := 3 |}) - 3) <= 2.
Proof.
  assert (Hrun :
    findFixedPointStochastic 1 (frame_AB unitWindow)
      (world_AB_calibrated (3 # 100))
    = Returned ({| x := 3; y := 3 |},
                {| heap := heap (world_AB_calibrated (3 # 100));
                   random := fun _ => 3 # 100; randomCalls := 3;
                   fills := [] |}))
    by (vm_compute; reflexivity).
  split; [exact Hrun|].
  exact (findFixedPointStochastic_within_tolerance _ _ _ _ _ Hrun).
Defined.

End SearchExact.

(** ** The weighted choice, over exact arithmetic *)

Section WeightedChoice.
Local Open Scope Q_scope.

Lemma probTest_closed (this : Frame Q) (u : Q) (i : nat) :
  probTest this u i = true <-> inClosed (transformProbs this) u i.
Proof.
  unfold probTest, inClosed, num_ge; cbn. split.
  - destruct (transformProbs this !! i) as [p|]; [|discriminate].
    destruct (transformProbs this !! S i) as [q|]; [|discriminate].
    intros [Hp Hq]%andb_prop. apply Qle_bool_iff in Hp, Hq.
    by exists p, q.
  - intros (p & q & -> & -> & Hp & Hq).
    apply andb_true_intro. split; by apply Qle_bool_iff.
Qed.

Lemma validTable_mono (this : Frame Q) (gap i : nat) (p q : Q) :
  validTable this ->
  transformProbs this !! i = Some p ->
  transformProbs this !! (i + gap)%nat = Some q -> p <= q.
Proof.
  intros (_ & _ & _ & Hadj). revert q.
  induction gap as [|gap IH]; intros q Hp Hq.
  - rewrite Nat.add_0_r, Hp in Hq. injection Hq as <-. apply Qle_refl.
  - replace (i + S gap)%nat with (S (i + gap)) in Hq by lia.
    destruct (lookup_lt_is_Some_2 (transformProbs this) (i + gap)) as [r Hr].
    { apply lookup_lt_Some in Hq. lia. }
    apply Qle_trans with r; [by apply IH|by eapply Hadj].
Qed.

(** While the tests fail, the draw is above the bounds passed so far. *)
Lemma bounds_below_draw (this : Frame Q) (u : Q) :
  validTable this -> 0 <= u ->
  (forall j, (j < length (matrices this))%nat -> probTest this u j = false) ->
  forall j p, (j <= length (matrices this))%nat ->
    transformProbs this !! j = Some p ->
    p <= u /\ ((0 < j)%nat -> p < u).
Proof.
  intros Hvalid Hu Hnone.
  destruct Hvalid as (Hlen & (p0 & Hp0 & Hzero) & _ & _).
  induction j as [|j IH]; intros p Hj Hp.
  - rewrite Hp0 in Hp. injection Hp as <-. split; [|lia]. by rewrite Hzero.
  - destruct (lookup_lt_is_Some_2 (transformProbs this) j) as [r Hr]; [lia|].
    destruct (IH r) as [Hr_le _]; [lia|done|].
    specialize (Hnone j ltac:(lia)). unfold probTest, num_ge in Hnone.
    rewrite Hr, Hp in Hnone. cbn in Hnone.
    apply (proj2 (Qle_bool_iff r u)) in Hr_le. rewrite Hr_le in Hnone.
    cbn in Hnone.
    assert (Hlt : p < u).
    { apply Qnot_le_lt. intros Hle. apply Qle_bool_iff in Hle. congruence. }
    split; [by apply Qlt_le_weak|done].
Qed.

Lemma validTable_nonempty (this : Frame Q) :
  validTable this -> (0 < length (matrices this))%nat.
Proof.
  intros (_ & (p & Hp & Hzero) & (q & Hq & Hone) & _).
  destruct (length (matrices this)); [|lia].
  rewrite Hp in Hq. injection Hq as ->. rewrite Hzero in Hone.
  discriminate Hone.
Qed.

(** On a valid table and a draw [u] of [[0,1]], the loop of [randomMatrix]
    returns the matrix at the smallest index whose closed interval holds
    [u]; that index is 0 for [u = 0], and the last one for [u = 1] when the
    last interval is not empty. *)
Lemma randomMatrix_loop_closed (this : Frame Q) (u : Q) :
  validTable this -> 0 <= u <= 1 ->
  exists i m,
    smallest (inClosed (transformProbs this) u) i /\
    matrices this !! i = Some m /\
    randomMatrix_loop this u 0 (length (matrices this)) = Some m /\
    (u == 0 -> i = 0%nat) /\
    (u == 1 ->
     (forall p, transformProbs this !! (length (matrices this) - 1)%nat
                = Some p -> p < 1) ->
     S i = length (matrices this)).
Proof.
  intros Hvalid [Hu0 Hu1].
  pose proof (validTable_nonempty this Hvalid) as Hn.
  destruct (randomMatrix_loop_cases this u 0 (length (matrices this)))
    as [(k & Hk & Hat & Hbefore & Hres)|[Hnone _]].
  - destruct (lookup_lt_is_Some_2 (matrices this) k) as [m Hm]; [lia|].
    exists k, m. split; [|split; [done|split; [by rewrite Hres|split]]].
    + split; [by apply probTest_closed|].
      intros j Hj Hin. apply probTest_closed in Hin.
      rewrite Hbefore in Hin by lia. discriminate.
    + intros Hzero. destruct (decide (k = 0%nat)) as [|Hk0]; [done|].
      assert (Hfirst : probTest this u 0 = true); [|rewrite Hbefore in Hfirst by lia; discriminate].
      apply probTest_closed.
      destruct Hvalid as (Hlen & (p0 & Hp0 & Hp0z) & _ & Hadj).
      destruct (lookup_lt_is_Some_2 (transformProbs this) 1) as [q Hq]; [lia|].
      exists p0, q. repeat split; [done..|by rewrite Hp0z| ].
      rewrite Hzero, <- Hp0z. by eapply Hadj.
    + intros Hone Hlast. destruct (decide (S k = length (matrices this)));
        [done|exfalso].
      apply probTest_closed in Hat as (p & q & Hp & Hq & Hpu & Huq).
      pose proof Hvalid as (Hlen & _).
      destruct (lookup_lt_is_Some_2 (transformProbs this)
                  (length (matrices this) - 1)) as [r Hr]; [lia|].
      assert (Hqr : q <= r).
      { apply (validTable_mono this (length (matrices this) - 1 - S k) (S k));
          [done..|]. by replace (S k + (length (matrices this) - 1 - S k))%nat
            with (length (matrices this) - 1)%nat by lia. }
      specialize (Hlast r Hr). rewrite Hone in Huq.
      apply (Qlt_irrefl 1). eapply Qle_lt_trans; [|exact Hlast].
      by eapply Qle_trans.
  - exfalso.
    pose proof Hvalid as (Hlen & Hfirst & (q & Hq & Hone) & Hadj).
    destruct (bounds_below_draw this u) with
      (j := length (matrices this)) (p := q) as [_ Hlt];
      [done|done|intros j Hj; apply Hnone; lia|lia|done|].
    specialize (Hlt Hn). rewrite Hone in Hlt.
    apply (Qlt_irrefl 1). by eapply Qlt_le_trans.
Qed.

(** Two neighbouring bounds of a concrete table of three are in order. *)
Ltac by_bounds i Hp Hq :=
  destruct i as [|[|[|i]]]; cbn in Hp, Hq; simplify_eq;
  vm_compute; discriminate.

Lemma validTable_AB (window : WindowCoordinates Q) :
  validTable (frame_AB window).
Proof.
  split; [reflexivity|]. split; [by exists 0|]. split; [by exists 1|].
  intros i p q Hp Hq. by_bounds i Hp Hq.
Qed.

(** C5 as stated fails at the bounds between two intervals.  On the table
    [0, 1/2, 1] the draw [1/2] lies in the half-open interval of index 1
    and of no smaller index, and [randomMatrix] returns the matrix of
    index 0.  On the table [0, 1, 1], whose last transform has probability
    0, the draw [1] returns the first matrix and not the last. *)
Lemma randomMatrix_at_a_bound :
  (validTable (frame_AB unitWindow) /\ 0 <= 1 # 2 < 1 /\
   smallest (inHalfOpen (transformProbs (frame_AB unitWindow)) (1 # 2)) 1 /\
   randomMatrix (frame_AB unitWindow) (world_AB_calibrated (1 # 2))
   = Returned (matrices (frame_AB unitWindow) !! 0%nat,
               after_draw (world_AB_calibrated (1 # 2))) /\
   matrices (frame_AB (N := Q) unitWindow) !! 0%nat
   <> matrices (frame_AB (N := Q) unitWindow) !! 1%nat) /\
  (validTable (with_probs (frame_AB unitWindow) [0; 1; 1]) /\
   randomMatrix (with_probs (frame_AB unitWindow) [0; 1; 1])
     (world_AB_calibrated 1)
   = Returned (matrices (frame_AB unitWindow) !! 0%nat,
               after_draw (world_AB_calibrated 1)) /\
   matrices (frame_AB (N := Q) unitWindow) !! 0%nat
   <> last (matrices (frame_AB (N := Q) unitWindow))).
Proof.
  split.
  - split; [apply validTable_AB|]. split; [by split|]. split.
    + split.
      * exists (1 # 2), 1. by repeat split.
      * intros [|j] Hj (p & q & Hp & Hq & _ & Hlt); [|lia].
        injection Hq as <-. discriminate Hlt.
    + split; [reflexivity|]. intros Heq. discriminate Heq.
  - split.
    + split; [reflexivity|]. split; [by exists 0|]. split; [by exists 1|].
      intros i p q Hp Hq. by_bounds i Hp Hq.
    + split; [reflexivity|]. intros Heq. discriminate Heq.
Qed.

(** C5, amended: on a valid table, for a draw [u] with [0 <= u <= 1],
    [randomMatrix] returns the transform at the smallest index [i] with
    [cum[i] <= u <= cum[i+1]] (the upper bound included); for [u = 0] this
    is the first transform, and for [u = 1] it is the last one when the
    last interval is not empty ([cum[n-1] < 1]). *)
Theorem randomMatrix_closed_interval (this : Frame Q) (w : World Q) :
  validTable this -> 0 <= random w (randomCalls w) <= 1 ->
  exists i m,
    smallest (inClosed (transformProbs this) (random w (randomCalls w))) i /\
    matrices this !! i = Some m /\
    randomMatrix this w = Returned (Some m, after_draw w) /\
    (random w (randomCalls w) == 0 -> i = 0%nat) /\
    (random w (randomCalls w) == 1 ->
     (forall p, transformProbs this !! (length (matrices this) - 1)%nat
                = Some p -> p < 1) ->
     S i = length (matrices this)).
Proof.
  intros Hvalid Hu.
  destruct (randomMatrix_loop_closed this _ Hvalid Hu)
    as (i & m & Hsmall & Hm & Hloop & Hzero & Hone).
  exists i, m. repeat split; try done; try apply Hsmall.
  by rewrite randomMatrix_eq, Hloop.
Qed.

Lemma randomMatrix_closed_interval_witness :
  validTable (frame_AB unitWindow) /\
  0 <= random (world_AB_calibrated (1 # 2))
         (randomCalls (world_AB_calibrated (1 # 2))) <= 1 /\
  exists i m,
    smallest (inClosed (transformProbs (frame_AB unitWindow))
                (random (world_AB_calibrated (1 # 2))
                   (randomCalls (world_AB_calibrated (1 # 2))))) i /\
    matrices (frame_AB unitWindow) !! i = Some m /\
    randomMatrix (frame_AB unitWindow) (world_AB_calibrated (1 # 2))
    = Returned (Some m, after_draw (world_AB_calibrated (1 # 2))) /\
    (random (world_AB_calibrated (1 # 2))
       (randomCalls (world_AB_calibrated (1 # 2))) == 0 -> i = 0%nat) /\
    (random (world_AB_calibrated (1 # 2))
       (randomCalls (world_AB_calibrated (1 # 2))) == 1 ->
     (forall p, transformProbs (frame_AB unitWindow)
                  !! (length (matrices (frame_AB (N := Q) unitWindow)) - 1)%nat
                = Some p -> p < 1) ->
     S i = length (matrices (frame_AB (N := Q) unitWindow))).
Proof.
  assert (Hu : 0 <= random (world_AB_calibrated (1 # 2))
                      (randomCalls (world_AB_calibrated (1 # 2))) <= 1).
  { split; intros Hgt; discriminate Hgt. }
  split; [exact (validTable_AB unitWindow)|]. split; [exact Hu|].
  exact (randomMatrix_closed_interval (frame_AB unitWindow)
           (world_AB_calibrated (1 # 2)) (validTable_AB unitWindow) Hu).
Defined.

(** C3 as stated fails: the transform of a search round is the weighted
    draw of [randomMatrix].  On the same matrices and the same draws
    [3/100, 99/100, 99/100, 1/100, 1/100], the bounds [0, 1/2, 1] select
    [A] and the search returns [(1,1)], while the bounds [0, 1/100, 1]
    select [B] and the search returns [(99,99)]. *)
Lemma findFixedPointStochastic_depends_on_probabilities :
  seed_of (findFixedPointStochastic 1 (frame_AB unitWindow)
             (world_draws [3 # 100; 99 # 100; 99 # 100; 1 # 100; 1 # 100] 0))
  = Some {| x := 1; y := 1 |} /\
  seed_of (findFixedPointStochastic 1
             (with_probs (frame_AB unitWindow) [0; 1 # 100; 1])
             (world_draws [3 # 100; 99 # 100; 99 # 100; 1 # 100; 1 # 100] 0))
  = Some {| x := 99; y := 99 |} /\
  validTable (with_probs (frame_AB unitWindow) [0; 1 # 100; 1]) /\
  ~ (forall (this : Frame Q) (probs probs' : list Q) fuel (w : World Q),
        validTable (with_probs this probs) ->
        validTable (with_probs this probs') ->
        seed_of (findFixedPointStochastic fuel (with_probs this probs) w)
        = seed_of (findFixedPointStochastic fuel (with_probs this probs') w)).
Proof.
  assert (Hvalid : validTable (with_probs (frame_AB unitWindow) [0; 1 # 100; 1])).
  { split; [reflexivity|]. split; [by exists 0|]. split; [by exists 1|].
    intros i p q Hp Hq. by_bounds i Hp Hq. }
  assert (HA : seed_of (findFixedPointStochastic 1 (frame_AB unitWindow)
             (world_draws [3 # 100; 99 # 100; 99 # 100; 1 # 100; 1 # 100] 0))
           = Some {| x := 1; y := 1 |}) by (vm_compute; reflexivity).
  assert (HB : seed_of (findFixedPointStochastic 1
             (with_probs (frame_AB unitWindow) [0; 1 # 100; 1])
             (world_draws [3 # 100; 99 # 100; 99 # 100; 1 # 100; 1 # 100] 0))
           = Some {| x := 99; y := 99 |}) by (vm_compute; reflexivity).
  split; [exact HA|]. split; [exact HB|]. split; [exact Hvalid|].
  intros Hindep.
  specialize (Hindep (frame_AB unitWindow) [0; 1 # 2; 1] [0; 1 # 100; 1] 1%nat
                (world_draws [3 # 100; 99 # 100; 99 # 100; 1 # 100; 1 # 100] 0)
                (validTable_AB unitWindow) Hvalid).
  change (with_probs (frame_AB unitWindow) [0; 1 # 2; 1])
    with (frame_AB (N := Q) unitWindow) in Hindep.
  rewrite HA, HB in Hindep. discriminate Hindep.
Qed.

(** C3, amended: each round of the search takes its transform from
    [randomMatrix], the weighted draw: on a valid table and a draw [u] of
    [[0,1]], the round tries the transform at the smallest index [i] with
    [cum[i] <= u <= cum[i+1]], up to [FIXED_PT_TRIES] times, and the next
    round draws again. *)
Theorem findFixedPointStochastic_weighted_choice
    fuel (this : Frame Q) (w : World Q) :
  validTable this -> 0 <= random w (randomCalls w) <= 1 ->
  exists i m,
    smallest (inClosed (transformProbs this) (random w (randomCalls w))) i /\
    matrices this !! i = Some m /\
    findFixedPointStochastic (S fuel) this w
    = (let* found := tryFixedPoint this (Some m) FIXED_PT_TRIES in
       match found with
       | Some p => ret p
       | None => findFixedPointStochastic fuel this
       end) (after_draw w).
Proof.
  intros Hvalid Hu.
  destruct (randomMatrix_loop_closed this _ Hvalid Hu)
    as (i & m & Hsmall & Hm & Hloop & _).
  exists i, m. split; [exact Hsmall|]. split; [exact Hm|].
  by rewrite findFixedPointStochastic_S, Hloop.
Qed.

Lemma findFixedPointStochastic_weighted_choice_witness :
  validTable (with_probs (frame_AB unitWindow) [0; 1 # 100; 1]) /\
  0 <= 3 # 100 <= 1 /\
  exists i m,
    smallest (inClosed [0; 1 # 100; 1] (3 # 100)) i /\
    matrices (frame_AB unitWindow) !! i = Some m /\
    findFixedPointStochastic 1
      (with_probs (frame_AB unitWindow) [0; 1 # 100; 1])
      (world_draws [3 # 100; 99 # 100; 99 # 100; 1 # 100; 1 # 100] 0)
    = (let* found :=
         tryFixedPoint (with_probs (frame_AB unitWindow) [0; 1 # 100; 1])
           (Some m) FIXED_PT_TRIES in
       match found with
       | Some p => ret p
       | None =>
           findFixedPointStochastic 0
             (with_probs (frame_AB unitWindow) [0; 1 # 100; 1])
       end)
        (after_draw
           (world_draws [3 # 100; 99 # 100; 99 # 100; 1 # 100; 1 # 100] 0)).
Proof.
  assert (Hvalid : validTable (with_probs (frame_AB unitWindow) [0; 1 # 100; 1])).
  { split; [reflexivity|]. split; [by exists 0|]. split; [by exists 1|].
    intros i p q Hp Hq. by_bounds i Hp Hq. }
  assert (Hu : 0 <= 3 # 100 <= 1) by (split; intros Hgt; discriminate Hgt).
  split; [exact Hvalid|]. split; [exact Hu|].
  exact (findFixedPointStochastic_weighted_choice 0
           (with_probs (frame_AB unitWindow) [0; 1 # 100; 1])
           (world_draws [3 # 100; 99 # 100; 99 # 100; 1 # 100; 1 # 100] 0)
           Hvalid Hu).
Defined.

End WeightedChoice.

(** ** Calibration and construction, on concrete inputs *)

Lemma calibration_rescales_on_every_call_witness :
  NoDup [0%nat; 1%nat] /\
  Forall (fun r => is_Some (heap (world_AB 0%Q) !! r)) [0%nat; 1%nat] /\
  exists w1 w2,
    calibrateAffineTransforms canvas100 [0%nat; 1%nat] (world_AB 0%Q)
    = Returned ([0%nat; 1%nat], w1) /\
    calibrateAffineTransforms canvas100 [0%nat; 1%nat] w1
    = Returned ([0%nat; 1%nat], w2) /\
    (forall r t, r ∈ [0%nat; 1%nat] -> heap (world_AB 0%Q) !! r = Some t ->
       heap w1 !! r = Some (calibrated canvas100 t) /\
       heap w2 !! r = Some (calibrated canvas100 (calibrated canvas100 t))) /\
    (forall fuel probs numPts window sp, exists this,
       constructor fuel canvas100
         {| collectTransforms := [0%nat; 1%nat]; collectProbabilities := probs |}
         numPts window (Some sp) (world_AB 0%Q)
       = Returned (this, w1)).
Proof.
  assert (Hnodup : NoDup [0%nat; 1%nat]).
  { apply NoDup_cons. split; [|apply NoDup_singleton].
    intros Hin. apply list_elem_of_singleton in Hin. discriminate Hin. }
  assert (Hvalid :
    Forall (fun r => is_Some (heap (world_AB 0%Q) !! r)) [0%nat; 1%nat]).
  { repeat apply Forall_cons_2; [by eexists|by eexists|apply Forall_nil_2]. }
  split; [exact Hnodup|]. split; [exact Hvalid|].
  exact (calibration_rescales_on_every_call canvas100 [0%nat; 1%nat]
           (world_AB 0%Q) Hnodup Hvalid).
Defined.

(** C9 as stated fails: a second call of the calibration on the transforms
    [A] and [B] is not prevented and is no no-op.  The first call takes the
    [e] of [B] from 1/2 to 50, the second call from 50 to 5000. *)
Lemma second_calibration_rescales_again :
  calibrateAffineTransforms canvas100 [0%nat; 1%nat] (world_AB 0%Q)
  = Returned ([0%nat; 1%nat], world_AB_calibrated 0%Q) /\
  (exists e1 e2 : Q,
     e_after (calibrateAffineTransforms canvas100 [0%nat; 1%nat]
                (world_AB 0%Q)) 1 = Some e1 /\
     e_after (calibrateAffineTransforms canvas100 [0%nat; 1%nat]
                (world_AB_calibrated 0%Q)) 1 = Some e2 /\
     (e1 == 50)%Q /\ (e2 == 5000)%Q) /\
  ~ (forall (cv : HTMLCanvasElement Q) (refs : list Ref) (w w1 : World Q),
        calibrateAffineTransforms cv refs w = Returned (refs, w1) ->
        (exists err, calibrateAffineTransforms cv refs w1 = Thrown err) \/
        (exists w2, calibrateAffineTransforms cv refs w1 = Returned (refs, w2) /\
                    heap w2 = heap w1)).
Proof.
  assert (Hfirst :
    calibrateAffineTransforms canvas100 [0%nat; 1%nat] (world_AB 0%Q)
    = Returned ([0%nat; 1%nat], world_AB_calibrated 0%Q)) by reflexivity.
  split; [exact Hfirst|]. split.
  - eexists _, _. split; [vm_compute; reflexivity|].
    split; [vm_compute; reflexivity|]. split; reflexivity.
  - intros Hclaim.
    destruct (Hclaim _ _ _ _ Hfirst) as [[err Herr]|(w2 & Hsecond & Hsame)].
    + discriminate Herr.
    + apply (f_equal (fun o => e_after o 1%nat)) in Hsecond.
      cbn [e_after] in Hsecond. rewrite Hsame in Hsecond.
      vm_compute in Hsecond. discriminate Hsecond.
Qed.

Lemma constructor_accepts_every_window_witness :
  Forall (fun r => is_Some (heap (world_AB (N := float) 0.5%float) !! r))
    (collectTransforms (table_AB (N := float))) /\
  exists this w',
    constructor 0 canvas100 table_AB 1 flatWindow (Some origin)
      (world_AB 0.5%float) = Returned (this, w') /\
    currentPoint this = origin /\
    (a1 this, b1 this, a2 this, b2 this)
    = (win_a1 flatWindow, win_b1 flatWindow,
       win_a2 flatWindow, win_b2 flatWindow) /\
    (collectTransforms (table_AB (N := float)) <> [] ->
     forall calls w1, exists this1 w1',
       iterate_calls calls this w1 = Returned (this1, w1')).
Proof.
  assert (Hvalid :
    Forall (fun r => is_Some (heap (world_AB (N := float) 0.5%float) !! r))
      (collectTransforms (table_AB (N := float)))).
  { repeat apply Forall_cons_2; [by eexists|by eexists|apply Forall_nil_2]. }
  split; [exact Hvalid|].
  exact (constructor_accepts_every_window 0 canvas100 table_AB 1 flatWindow
           origin (world_AB 0.5%float) Hvalid).
Defined.

(** C8 as stated fails, on binary64: for the window with [a1 = b1 = 0] the
    constructor returns an orbit, whose origin offset [x0 = (-0 / 0) * 100]
    is NaN; nothing is thrown. *)
Lemma constructor_flat_window_binary64 :
  PrimFloat.eqb (win_b1 flatWindow) (win_a1 flatWindow) = true /\
  constructor 0 canvas100 table_AB 1 flatWindow (Some origin)
    (world_AB 0.5%float)
  = Returned (orbit_AB flatWindow origin 1, world_AB_calibrated 0.5%float) /\
  PrimFloat.is_nan (x0 (orbit_AB (N := float) flatWindow origin 1)) = true /\
  ~ (exists err,
        constructor 0 canvas100 table_AB 1 flatWindow (Some origin)
          (world_AB 0.5%float) = Thrown err).
Proof.
  split; [vm_compute; reflexivity|]. split; [apply constructor_AB|].
  split; [vm_compute; reflexivity|].
  intros [err Herr]. rewrite constructor_AB in Herr. discriminate Herr.
Qed.

(** C10 as stated fails, on binary64.  The orbit of the transform
    [(x, y) |-> (2 x, 2 y)] built by the constructor at [(1, 1)] is at
    [(2, 2)] after one [updateCurrentPoint]; the 1023 points of one
    [iterate] double it up to [2^1024], which overflows: the current point
    is [(Infinity, Infinity)], that [Math.floor] returns as it is.  The next
    update computes [2 * Infinity + 0 * Infinity], NaN.  Neither is an
    integer. *)
Lemma currentPoint_overflow_binary64 :
  exists this w this1 w1 this2 w2 this3 w3,
    constructor 0 canvas100 table_double 1023 unitWindow (Some ones)
      world_double = Returned (this, w) /\
    updateCurrentPoint this w = Returned (this1, w1) /\
    iterate this1 w1 = Returned (this2, w2) /\
    updateCurrentPoint this2 w2 = Returned (this3, w3) /\
    Updated this2 /\ Updated this3 /\
    currentPoint this1 = {| x := 2%float; y := 2%float |} /\
    currentPoint this2 = {| x := infinity; y := infinity |} /\
    integral64 (currentPoint this2) = false /\
    PrimFloat.is_nan (x (currentPoint this3)) = true /\
    PrimFloat.is_nan (y (currentPoint this3)) = true /\
    integral64 (currentPoint this3) = false.
Proof.
  let r := eval vm_compute in
    (constructor 0 canvas100 table_double 1023 unitWindow (Some ones)
       world_double) in
  lazymatch r with
  | Returned (?s, ?w) =>
      let r1 := eval vm_compute in (updateCurrentPoint s w) in
      lazymatch r1 with
      | Returned (?s1, ?w1) =>
          let r2 := eval vm_compute in (iterate s1 w1) in
          lazymatch r2 with
          | Returned (?s2, ?w2) =>
              let r3 := eval vm_compute in (updateCurrentPoint s2 w2) in
              lazymatch r3 with
              | Returned (?s3, ?w3) =>
                  assert (Hnew :
                    constructor 0 canvas100 table_double 1023 unitWindow
                      (Some ones) world_double = Returned (s, w))
                    by (vm_compute; reflexivity);
                  assert (Hstep : updateCurrentPoint s w = Returned (s1, w1))
                    by (vm_compute; reflexivity);
                  assert (Hrun : iterate s1 w1 = Returned (s2, w2))
                    by (vm_compute; reflexivity);
                  assert (Hnext :
                    updateCurrentPoint s2 w2 = Returned (s3, w3))
                    by (vm_compute; reflexivity);
                  exists s, w, s1, w1, s2, w2, s3, w3
              end
          end
      end
  end.
  split; [exact Hnew|]. split; [exact Hstep|]. split; [exact Hrun|].
  split; [exact Hnext|].
  split; [exact (Updated_iterate _ _ _ _ (Updated_step _ _ _ _ Hstep) Hrun)|].
  split; [exact (Updated_step _ _ _ _ Hnext)|].
  repeat split; vm_compute; reflexivity.
Qed.

(** The constructor accepts an empty table as well; the first point that
    [iterate] draws then throws, [randomMatrix] having returned [undefined]. *)
Example iterate_empty_table_throws :
  constructor 0 canvas100 table_empty 1 unitWindow (Some origin) (world_AB 0%Q)
  = Returned (orbit_empty unitWindow origin 1, world_AB 0%Q) /\
  iterate (orbit_empty unitWindow origin 1) (world_AB 0%Q) = Thrown TypeError.
Proof. split; reflexivity. Qed.

(** The store is shared.  An array that lists the object [B] twice has it
    rescaled twice by one call, and a second orbit built from the objects of
    a first one gets matrices rescaled twice. *)
Example calibration_of_shared_objects :
  (exists e1 : Q,
     e_after (calibrateAffineTransforms canvas100 [1%nat; 1%nat]
                (world_AB 0%Q)) 1 = Some e1 /\ (e1 == 5000)%Q) /\
  (exists this2 w2,
     constructor 0 canvas100 table_AB 1 unitWindow (Some origin)
       (world_AB_calibrated 0%Q) = Returned (this2, w2) /\
     m4 <$> matrices this2 !! 1%nat = Some ((1 # 2) * 100 * 100)%Q).
Proof.
  split.
  - eexists. split; [vm_compute; reflexivity|reflexivity].
  - eexists _, _. split; [vm_compute; reflexivity|reflexivity].
Qed.

(** * Further properties of [RandomIFS] *)

(** ** The orbit as a composition of transforms *)

Section OrbitTrace.
Context {N : Type} `{JSNumber N}.

Lemma emission_emission_at (this : RandomIFS N) (k : Z) :
  emission this k = emission_at this (currentPoint this) k.
Proof. unfold emission, emission_at. by destruct (k <? 10)%Z. Qed.

Lemma updateCurrentPoint_eq (this : RandomIFS N) (w : World N) (m : Matrix N) :
  drawn_matrix this w (randomCalls w) = Some m ->
  updateCurrentPoint this w
  = Returned (at_point this (applyMatrix m (currentPoint this)), after_draw w).
Proof.
  unfold drawn_matrix. intros Hm. unfold updateCurrentPoint.
  rewrite (bind_Returned_intro _ _ _ _ _ (randomMatrix_eq this w)), Hm.
  reflexivity.
Qed.

Lemma apply_all_snoc (Ts : list (Matrix N)) (T : Matrix N) (p : Coordinate N) :
  apply_all (Ts ++ [T]) p = applyMatrix T (apply_all Ts p).
Proof. unfold apply_all. by rewrite foldl_app. Qed.

(** What [n] rounds of the loop of [iterate] do: round [j] fills the
    rectangle of the point reached so far, then moves the point by the
    matrix of the next draw. *)
Lemma iterate_loop_trace n (this this' : RandomIFS N) (w w' : World N) :
  iterate_loop n this w = Returned (this', w') ->
  exists Ts,
    length Ts = n /\
    (forall (j : nat) T, Ts !! j = Some T ->
       drawn_matrix this w (randomCalls w + j) = Some T) /\
    currentPoint this' = apply_all Ts (currentPoint this) /\
    heap w' = heap w /\ random w' = random w /\
    randomCalls w' = (randomCalls w + n)%nat /\
    length (fills w') = (length (fills w) + n)%nat /\
    (forall j : nat, (j < n)%nat ->
       fills w' !! (length (fills w) + j)%nat
       = Some (emission_at this
                 (apply_all (take j Ts) (currentPoint this))
                 (pointsDrawn this + Z.of_nat j))) /\
    (forall j : nat, (j < length (fills w))%nat ->
       fills w' !! j = fills w !! j).
Proof.
  revert this w. induction n as [|n IH]; intros this w; simpl.
  - intros [= <- <-]. exists []. rewrite !Nat.add_0_r.
    repeat split; try done; intros; lia.
  - rewrite (bind_Returned_intro _ _ _ _ _ (draw_eq this w)).
    intros Hrun. apply bind_Returned in Hrun as (this1 & w1 & Hup & Hrun).
    destruct (drawn_matrix this w (randomCalls w)) as [m|] eqn:Hm.
    2:{ unfold updateCurrentPoint in Hup.
        rewrite (bind_Returned_intro _ _ _ _ _ (randomMatrix_eq _ _)) in Hup.
        cbn [randomCalls random] in Hup. unfold drawn_matrix in Hm.
        rewrite Hm in Hup. discriminate Hup. }
    rewrite (updateCurrentPoint_eq _ _ m) in Hup by exact Hm.
    injection Hup as <- <-.
    apply IH in Hrun
      as (Ts & Hlen & HTs & Hpoint & Hheap & Hrandom & Hcalls & Hfl & Hfills & Hold).
    cbn in Hpoint, Hheap, Hrandom, Hcalls, Hfl, Hfills, Hold.
    rewrite length_app in Hfl, Hfills, Hold. cbn in Hfl, Hfills, Hold.
    exists (m :: Ts). split; [cbn; lia|]. split; [|split; [done|]].
    { intros [|j] T HT; cbn in HT.
      - injection HT as <-. by rewrite Nat.add_0_r.
      - apply HTs in HT. unfold drawn_matrix in *. cbn in HT.
        by replace (randomCalls w + S j)%nat with (S (randomCalls w + j)) by lia. }
    split; [done|]. split; [done|]. split; [lia|]. split; [lia|]. split.
    + intros [|j] Hj.
      * rewrite Nat.add_0_r, Hold by lia.
        rewrite lookup_app_r by lia. rewrite Nat.sub_diag. cbn.
        by rewrite Z.add_0_r, emission_emission_at.
      * replace (length (fills w) + S j)%nat
          with (length (fills w) + 1 + j)%nat by lia.
        rewrite Hfills by lia. cbn. do 2 f_equal. lia.
    + intros j Hj. rewrite Hold by lia. by rewrite lookup_app_l by lia.
Qed.

Lemma iterate_calls_trace calls (this this' : RandomIFS N) (w w' : World N) :
  iterate_calls calls this w = Returned (this', w') ->
  exists Ts,
    frame this' = frame this /\
    Z.of_nat (length Ts) = (pointsDrawn this' - pointsDrawn this)%Z /\
    (forall (j : nat) T, Ts !! j = Some T ->
       drawn_matrix this w (randomCalls w + j) = Some T) /\
    currentPoint this' = apply_all Ts (currentPoint this) /\
    heap w' = heap w /\ random w' = random w /\
    randomCalls w' = (randomCalls w + length Ts)%nat /\
    length (fills w') = (length (fills w) + length Ts)%nat /\
    (forall j : nat, (j < length Ts)%nat ->
       fills w' !! (length (fills w) + j)%nat
       = Some (emission_at this
                 (apply_all (take j Ts) (currentPoint this))
                 (pointsDrawn this + Z.of_nat j))) /\
    (forall j : nat, (j < length (fills w))%nat ->
       fills w' !! j = fills w !! j).
Proof.
  revert this w. induction calls as [|calls IH]; intros this w; simpl.
  - intros [= <- <-]. exists []. cbn. rewrite !Nat.add_0_r.
    repeat split; try done; intros; lia.
  - intros Hrun. apply bind_Returned in Hrun as (this1 & w1 & Hone & Hrun).
    pose proof (iterate_Returned _ _ _ _ Hone) as (Hfr1 & _ & _ & Hpd1 & _).
    unfold iterate in Hone. apply iterate_loop_trace in Hone
      as (Ts1 & Hlen1 & HTs1 & Hpt1 & Hheap1 & Hrnd1 & Hcalls1 & Hfl1 & Hfills1 & Hold1).
    cbn in HTs1, Hpt1, Hfills1.
    apply IH in Hrun
      as (Ts2 & Hfr2 & Hlen2 & HTs2 & Hpt2 & Hheap2 & Hrnd2 & Hcalls2 & Hfl2 & Hfills2 & Hold2).
    exists (Ts1 ++ Ts2). rewrite length_app.
    split; [congruence|]. split; [lia|]. split; [|split; [|split; [congruence|split;
      [congruence|split; [lia|split; [lia|split]]]]]].
    + intros j T HT. apply lookup_app_Some in HT as [HT|[Hge HT]]; [by apply HTs1|].
      apply HTs2 in HT. unfold drawn_matrix in *. rewrite Hfr1, Hrnd1 in HT.
      by replace (randomCalls w + j)%nat
        with (randomCalls w1 + (j - length Ts1))%nat by lia.
    + unfold apply_all in *. by rewrite foldl_app, <- Hpt1.
    + intros j Hj. destruct (decide (j < length Ts1)%nat) as [Hlt|Hge].
      * rewrite Hold2 by lia. rewrite Hfills1 by lia.
        by rewrite take_app_le by lia.
      * replace (length (fills w) + j)%nat
          with (length (fills w1) + (j - length Ts1))%nat by lia.
        rewrite Hfills2 by lia. rewrite take_app_ge by lia.
        unfold emission_at, apply_all in *. rewrite foldl_app.
        rewrite Hfr1, <- Hpt1.
        replace (pointsDrawn this1 + Z.of_nat (j - length Ts1))%Z
          with (pointsDrawn this + Z.of_nat j)%Z by lia.
        done.
    + intros j Hj. rewrite Hold2 by lia. by apply Hold1.
Qed.

Lemma drawn_matrix_elem (this : Frame N) (w : World N) k T :
  drawn_matrix this w k = Some T -> T ∈ matrices this.
Proof. apply randomMatrix_loop_elem. Qed.

(** X1: after any number of calls of [iterate], the current point is the
    starting point moved by one matrix for each point drawn meanwhile: the
    matrix of the table that [randomMatrix] selects for the next value of
    [Math.random()], one value per point.  Nothing else moves the point, and
    the store of transforms is not written. *)
Theorem iterate_calls_orbit calls (this this' : RandomIFS N) (w w' : World N) :
  iterate_calls calls this w = Returned (this', w') ->
  exists Ts,
    Z.of_nat (length Ts) = (pointsDrawn this' - pointsDrawn this)%Z /\
    Forall (fun T => T ∈ matrices this) Ts /\
    (forall (j : nat) T, Ts !! j = Some T ->
       drawn_matrix this w (randomCalls w + j) = Some T) /\
    currentPoint this' = apply_all Ts (currentPoint this) /\
    randomCalls w' = (randomCalls w + length Ts)%nat /\
    heap w' = heap w.
Proof.
  intros Hrun. apply iterate_calls_trace in Hrun
    as (Ts & _ & Hlen & HTs & Hpt & Hheap & _ & Hcalls & _).
  exists Ts. repeat split; try done.
  apply Forall_lookup. intros j T HT. eapply drawn_matrix_elem. by apply HTs.
Qed.

(** X2: a set of points that every matrix of the table maps into itself
    keeps the orbit: when the current point is in it, it is still in it
    after any number of calls of [iterate]. *)
Theorem iterate_calls_invariant (S : Coordinate N -> Prop) calls
    (this this' : RandomIFS N) (w w' : World N) :
  (forall T p, T ∈ matrices this -> S p -> S (applyMatrix T p)) ->
  S (currentPoint this) ->
  iterate_calls calls this w = Returned (this', w') ->
  S (currentPoint this').
Proof.
  intros Hstable Hstart Hrun. apply iterate_calls_trace in Hrun
    as (Ts & _ & _ & HTs & -> & _).
  assert (Hin : Forall (fun T => T ∈ matrices this) Ts).
  { apply Forall_lookup. intros j T HT. eapply drawn_matrix_elem. by apply HTs. }
  clear HTs. revert Hstart. generalize (currentPoint this).
  induction Hin as [|T Ts HT _ IH]; intros p Hp; [done|].
  cbn. apply IH. by apply Hstable.
Qed.

(** X3: [iterate] marks a point before it moves it.  Let [T_0, T_1, ...]
    be the matrices that [randomMatrix] selects for the next values of
    [Math.random()], one per point drawn, and [p_0] the starting point,
    [p_(j+1) = T_j(p_j)] the points of the orbit.  Over any number of calls,
    the rectangles added to the canvas are those of [p_0], ..., [p_(n-1)] in
    this order, [n] being the number of points drawn, and the current point
    is then [p_n], which is not drawn yet; what was on the canvas stays.
    The rectangle of a point [p] is at the pixel [invWindowTransform]
    gives for [p], the second coordinate counted from the bottom of the
    canvas, with the colour and size of its number (see [emission_at]). *)
Theorem iterate_calls_draws_orbit calls (this this' : RandomIFS N)
    (w w' : World N) :
  iterate_calls calls this w = Returned (this', w') ->
  exists Ts,
    Z.of_nat (length Ts) = (pointsDrawn this' - pointsDrawn this)%Z /\
    (forall (j : nat) T, Ts !! j = Some T ->
       drawn_matrix this w (randomCalls w + j) = Some T) /\
    currentPoint this' = apply_all Ts (currentPoint this) /\
    length (fills w') = (length (fills w) + length Ts)%nat /\
    (forall j : nat, (j < length (fills w))%nat ->
       fills w' !! j = fills w !! j) /\
    (forall j : nat, (j < length Ts)%nat ->
       exists r,
         fills w' !! (length (fills w) + j)%nat = Some r /\
         r = emission_at this (apply_all (take j Ts) (currentPoint this))
               (pointsDrawn this + Z.of_nat j) /\
         rect_x r
         = x (invWindowTransform this
                (apply_all (take j Ts) (currentPoint this))) /\
         rect_y r
         = num_sub (height (canvas this))
             (y (invWindowTransform this
                   (apply_all (take j Ts) (currentPoint this))))).
Proof.
  intros Hrun. apply iterate_calls_trace in Hrun
    as (Ts & _ & Hlen & HTs & Hpt & _ & _ & _ & Hfl & Hfills & Hold).
  exists Ts. split; [exact Hlen|]. split; [exact HTs|].
  split; [exact Hpt|]. split; [exact Hfl|]. split; [exact Hold|].
  intros j Hj. eexists. split; [by apply Hfills|]. by split.
Qed.

End OrbitTrace.

(** A run on a concrete input, by evaluation: [k] receives the object and the
    world that the run returned. *)
Ltac returned_by run k :=
  let r := eval vm_compute in run in
  lazymatch r with
  | Returned (?s, ?w) => k s w
  end.

Lemma iterate_calls_orbit_witness :
  exists this' w',
    iterate_calls 3 (orbit_AB unitWindow origin 4) (world_AB_calibrated (3 # 4))
    = Returned (this', w') /\
    exists Ts,
      Z.of_nat (length Ts)
      = (pointsDrawn this' - pointsDrawn (orbit_AB (N := Q) unitWindow origin 4))%Z /\
      Forall (fun T => T ∈ matrices (orbit_AB (N := Q) unitWindow origin 4)) Ts /\
      (forall (j : nat) T, Ts !! j = Some T ->
         drawn_matrix (orbit_AB unitWindow origin 4)
           (world_AB_calibrated (3 # 4))
           (randomCalls (world_AB_calibrated (3 # 4)) + j) = Some T) /\
      currentPoint this'
      = apply_all Ts (currentPoint (orbit_AB unitWindow origin 4)) /\
      randomCalls w'
      = (randomCalls (world_AB_calibrated (3 # 4)) + length Ts)%nat /\
      heap w' = heap (world_AB_calibrated (3 # 4)).
Proof.
  returned_by
    (iterate_calls 3 (orbit_AB unitWindow origin 4)
       (world_AB_calibrated (3 # 4)))
    ltac:(fun s w =>
      assert (Hrun :
        iterate_calls 3 (orbit_AB unitWindow origin 4)
          (world_AB_calibrated (3 # 4)) = Returned (s, w))
        by (vm_compute; reflexivity);
      exists s, w; split; [exact Hrun|];
      exact (iterate_calls_orbit 3 _ _ _ _ Hrun)).
Defined.

Lemma iterate_calls_draws_orbit_witness :
  exists this' w',
    iterate_calls 2 (orbit_AB unitWindow origin 3) (world_AB_calibrated (3 # 4))
    = Returned (this', w') /\
    exists Ts,
      Z.of_nat (length Ts)
      = (pointsDrawn this'
         - pointsDrawn (orbit_AB (N := Q) unitWindow origin 3))%Z /\
      (forall (j : nat) T, Ts !! j = Some T ->
         drawn_matrix (orbit_AB unitWindow origin 3)
           (world_AB_calibrated (3 # 4))
           (randomCalls (world_AB_calibrated (3 # 4)) + j) = Some T) /\
      currentPoint this'
      = apply_all Ts (currentPoint (orbit_AB unitWindow origin 3)) /\
      length (fills w')
      = (length (fills (world_AB_calibrated (3 # 4))) + length Ts)%nat /\
      (forall j : nat, (j < length (fills (world_AB_calibrated (3 # 4))))%nat ->
         fills w' !! j = fills (world_AB_calibrated (3 # 4)) !! j) /\
      (forall j : nat, (j < length Ts)%nat ->
         exists r,
           fills w' !! (length (fills (world_AB_calibrated (3 # 4))) + j)%nat
           = Some r /\
           r = emission_at (orbit_AB unitWindow origin 3)
                 (apply_all (take j Ts)
                    (currentPoint (orbit_AB unitWindow origin 3)))
                 (pointsDrawn (orbit_AB (N := Q) unitWindow origin 3)
                  + Z.of_nat j) /\
           rect_x r
           = x (invWindowTransform (orbit_AB unitWindow origin 3)
                  (apply_all (take j Ts)
                     (currentPoint (orbit_AB unitWindow origin 3)))) /\
           rect_y r
           = num_sub (height (canvas (orbit_AB unitWindow origin 3)))
               (y (invWindowTransform (orbit_AB unitWindow origin 3)
                     (apply_all (take j Ts)
                        (currentPoint (orbit_AB unitWindow origin 3)))))).
Proof.
  returned_by
    (iterate_calls 2 (orbit_AB unitWindow origin 3)
       (world_AB_calibrated (3 # 4)))
    ltac:(fun s w =>
      assert (Hrun :
        iterate_calls 2 (orbit_AB unitWindow origin 3)
          (world_AB_calibrated (3 # 4)) = Returned (s, w))
        by (vm_compute; reflexivity);
      exists s, w; split; [exact Hrun|];
      exact (iterate_calls_draws_orbit 2 _ _ _ _ Hrun)).
Defined.

(** The orbit of the scenario, on the canvas: the first six rectangles are
    at the pixels 0, 50, 75, 87, 93, 96 of the diagonal, the second
    coordinate counted from the bottom. *)
Example orbit_AB_rectangles :
  match iterate_calls 2 (orbit_AB unitWindow origin 3)
          (world_AB_calibrated (3 # 4)) with
  | Returned (this', w') =>
      (currentPoint this',
       (fun r => (Qfloor (rect_x r), Qfloor (rect_y r))) <$> fills w')
  | _ => (origin, [])
  end
  = ({| x := 98%Q; y := 98%Q |},
     [(0, 100); (50, 50); (75, 25); (87, 13); (93, 7); (96, 4)]%Z).
Proof. vm_compute. reflexivity. Qed.

(** ** The orbit of the scenario stays on the canvas *)

Section Containment.
Local Open Scope Q_scope.

Lemma floor_nonneg (v : Q) : 0 <= v -> 0 <= Exact.floor v.
Proof.
  intros Hv. unfold Exact.floor. change 0 with (inject_Z 0).
  rewrite <- Zle_Qle. rewrite <- (Qfloor_Z 0). by apply Qfloor_resp_le.
Qed.

Lemma floor_below (v bound : Q) : v < bound -> Exact.floor v < bound.
Proof. intros Hv. eapply Qle_lt_trans; [apply Qfloor_le|exact Hv]. Qed.

(** Both calibrated transforms of the scenario map the canvas of 100 by 100
    into itself. *)
Lemma orbit_AB_stable (window : WindowCoordinates Q) (T : Matrix Q)
    (p : Coordinate Q) :
  T ∈ matrices (frame_AB window) -> in_canvas100 p ->
  in_canvas100 (applyMatrix T p).
Proof.
  intros HT [[Hx0 Hx1] [Hy0 Hy1]].
  apply elem_of_cons in HT as [->|HT];
    [|apply elem_of_cons in HT as [->|HT]; [|by apply elem_of_nil in HT]];
    (split; split; cbn;
     [apply floor_nonneg|apply floor_below|apply floor_nonneg|apply floor_below];
     change (inject_Z 1 / inject_Z 2) with (1 # 2);
     change (inject_Z 0) with 0; change (inject_Z 100) with 100; lra).
Qed.

Lemma iterate_calls_invariant_witness :
  (forall T p, T ∈ matrices (orbit_AB (N := Q) unitWindow origin 4) ->
               in_canvas100 p -> in_canvas100 (applyMatrix T p)) /\
  in_canvas100 (currentPoint (orbit_AB unitWindow origin 4)) /\
  exists this' w',
    iterate_calls 3 (orbit_AB unitWindow origin 4) (world_AB_calibrated (3 # 4))
    = Returned (this', w') /\
    in_canvas100 (currentPoint this').
Proof.
  assert (Hstart : in_canvas100 (currentPoint (orbit_AB unitWindow origin 4))).
  { split; split; (intros Hc; discriminate Hc) || reflexivity. }
  split; [exact (orbit_AB_stable unitWindow)|]. split; [exact Hstart|].
  returned_by
    (iterate_calls 3 (orbit_AB unitWindow origin 4)
       (world_AB_calibrated (3 # 4)))
    ltac:(fun s w =>
      assert (Hrun :
        iterate_calls 3 (orbit_AB unitWindow origin 4)
          (world_AB_calibrated (3 # 4)) = Returned (s, w))
        by (vm_compute; reflexivity);
      exists s, w; split; [exact Hrun|];
      exact (iterate_calls_invariant in_canvas100 3
               (orbit_AB unitWindow origin 4) s
               (world_AB_calibrated (3 # 4)) w
               (orbit_AB_stable unitWindow) Hstart Hrun)).
Defined.

End Containment.

(** ** What the constructor assigns *)

Section ConstructorFields.
Context {N : Type} `{JSNumber N}.

Lemma gatherMatrices_world (refs : list Ref) (ms : list (Matrix N))
    (w w' : World N) :
  gatherMatrices refs w = Returned (ms, w') -> w' = w.
Proof.
  revert ms w'. induction refs as [|r refs IH]; intros ms w'; cbn.
  - by intros [= _ <-].
  - intros Hms. apply bind_Returned in Hms as (m & w3 & Hm & Hms).
    destruct (heap w !! r); [|discriminate]. injection Hm as <- <-.
    apply bind_Returned in Hms as (ms' & w4 & Hrest & Hret).
    apply IH in Hrest as ->. by injection Hret.
Qed.

(** Whatever the table and the starting point, a constructor that returns
    has assigned the canvas, the window, the origin offsets computed from
    them, the probabilities of the table, and counters at zero. *)
Lemma constructor_inv fuel (cv : HTMLCanvasElement N)
    (table : ProbabilityAffineTable N) numPts (window : WindowCoordinates N)
    (start : option (Coordinate N)) (w w' : World N) (this : RandomIFS N) :
  constructor fuel cv table numPts window start w = Returned (this, w') ->
  canvas this = cv /\
  transformProbs this = collectProbabilities table /\
  x0 this = num_mul (num_div (num_neg (win_a1 window))
                       (num_sub (win_b1 window) (win_a1 window))) (width cv) /\
  y0 this = num_mul (num_div (num_neg (win_a2 window))
                       (num_sub (win_b2 window) (win_a2 window))) (height cv) /\
  (a1 this, b1 this, a2 this, b2 this)
  = (win_a1 window, win_b1 window, win_a2 window, win_b2 window) /\
  (numPoints this, numIters this, pointsDrawn this) = (numPts, 0%Z, 0%Z) /\
  exists w1,
    calibrateAffineTransforms cv (collectTransforms table) w
    = Returned (collectTransforms table, w1) /\
    gatherMatrices (collectTransforms table) w1 = Returned (matrices this, w1) /\
    match start with
    | Some p => currentPoint this = p /\ w' = w1
    | None =>
        findFixedPointStochastic fuel this w1 = Returned (currentPoint this, w')
    end.
Proof.
  unfold constructor. intros Hnew.
  apply bind_Returned in Hnew as (refs & w1 & Hcal & Hnew).
  assert (refs = collectTransforms table) as ->.
  { unfold calibrateAffineTransforms in Hcal.
    apply bind_Returned in Hcal as ([] & w0 & _ & Hret). by injection Hret. }
  apply bind_Returned in Hnew as (ms & w2 & Hms & Hnew).
  apply gatherMatrices_world in Hms as Hsame. subst w2.
  apply bind_Returned in Hnew as (point & w3 & Hpoint & Hret).
  injection Hret as <- <-. cbn. repeat split.
  exists w1. split; [done|]. split; [done|].
  destruct start as [p|]; [by injection Hpoint as <- <-|exact Hpoint].
Qed.

End ConstructorFields.

(** ** The window on the canvas, over exact arithmetic *)

Section WindowGeometry.
Local Open Scope Q_scope.

(** X4: for a window of positive extent on both axes, a window point [q]
    goes to its pixel and back to the corner of that pixel's cell: on each
    axis the result is at most [q] and less than one pixel's extent
    ([b1 - a1], [b2 - a2]) below it. *)
Theorem windowTransform_invWindowTransform_exact
    (this : Frame Q) (q : Coordinate Q) :
  a1 this < b1 this -> a2 this < b2 this ->
  (x (windowTransform this (invWindowTransform this q)) <= x q
     < x (windowTransform this (invWindowTransform this q))
       + (b1 this - a1 this)) /\
  (y (windowTransform this (invWindowTransform this q)) <= y q
     < y (windowTransform this (invWindowTransform this q))
       + (b2 this - a2 this)).
Proof.
  assert (Haxis : forall v o lo hi : Q, lo < hi ->
            (Exact.floor (v / (hi - lo) + o) - o) * (hi - lo) <= v
              < (Exact.floor (v / (hi - lo) + o) - o) * (hi - lo) + (hi - lo)).
  { intros v o lo hi Hlt.
    pose proof (floor_bounds (v / (hi - lo) + o)) as [Hlow Hup].
    fold (Exact.floor (v / (hi - lo) + o)) in Hlow, Hup.
    assert (Hv : v == v / (hi - lo) * (hi - lo)) by (field; lra).
    remember (v / (hi - lo)) as t eqn:Ht. clear Ht.
    remember (Exact.floor (t + o)) as k eqn:Hk. clear Hk.
    assert (E1 : (k - o) * (hi - lo) <= t * (hi - lo))
      by (apply Qmult_le_compat_r; lra).
    assert (E2 : t * (hi - lo) < (k - o + 1) * (hi - lo))
      by (apply Qmult_lt_compat_r; lra).
    split; lra. }
  intros H1 H2. unfold windowTransform, invWindowTransform; cbn.
  split; by apply Haxis.
Qed.

Lemma windowTransform_invWindowTransform_exact_witness :
  a1 (frame_AB narrowWindowQ) < b1 (frame_AB narrowWindowQ) /\
  a2 (frame_AB narrowWindowQ) < b2 (frame_AB narrowWindowQ) /\
  (x (windowTransform (frame_AB narrowWindowQ)
        (invWindowTransform (frame_AB narrowWindowQ) {| x := 37 # 2; y := 65 |}))
   <= 37 # 2
   < x (windowTransform (frame_AB narrowWindowQ)
          (invWindowTransform (frame_AB narrowWindowQ) {| x := 37 # 2; y := 65 |}))
     + (b1 (frame_AB narrowWindowQ) - a1 (frame_AB narrowWindowQ))) /\
  (y (windowTransform (frame_AB narrowWindowQ)
        (invWindowTransform (frame_AB narrowWindowQ) {| x := 37 # 2; y := 65 |}))
   <= 65
   < y (windowTransform (frame_AB narrowWindowQ)
          (invWindowTransform (frame_AB narrowWindowQ) {| x := 37 # 2; y := 65 |}))
     + (b2 (frame_AB narrowWindowQ) - a2 (frame_AB narrowWindowQ))).
Proof.
  assert (Hlt : 1 # 10 < 7 # 10) by reflexivity.
  split; [exact Hlt|]. split; [exact Hlt|].
  exact (windowTransform_invWindowTransform_exact (frame_AB narrowWindowQ)
           {| x := 37 # 2; y := 65 |} Hlt Hlt).
Defined.

(** X5: in an orbit built for a non-degenerate window, [windowTransform]
    is, on each axis, the map [p |-> a * size + p * (b - a)]: the canvas,
    from 0 to its width and height, covers the window scaled by the canvas
    size, from [a1 * width] to [b1 * width] and from [a2 * height] to
    [b2 * height], and the pixel [(x0, y0)] is the window's origin. *)
Theorem windowTransform_of_constructed fuel (cv : HTMLCanvasElement Q)
    (table : ProbabilityAffineTable Q) numPts (window : WindowCoordinates Q)
    (start : option (Coordinate Q)) (w w' : World Q) (this : RandomIFS Q)
    (p : Coordinate Q) :
  constructor fuel cv table numPts window start w = Returned (this, w') ->
  ~ win_b1 window == win_a1 window -> ~ win_b2 window == win_a2 window ->
  x (windowTransform this p)
  == win_a1 window * width cv + x p * (win_b1 window - win_a1 window) /\
  y (windowTransform this p)
  == win_a2 window * height cv + y p * (win_b2 window - win_a2 window) /\
  x (windowTransform this {| x := width cv; y := height cv |})
  == win_b1 window * width cv /\
  y (windowTransform this {| x := width cv; y := height cv |})
  == win_b2 window * height cv /\
  x (windowTransform this {| x := x0 this; y := y0 this |}) == 0 /\
  y (windowTransform this {| x := x0 this; y := y0 this |}) == 0.
Proof.
  intros Hnew Hx Hy.
  apply constructor_inv in Hnew as (_ & _ & Hx0 & Hy0 & Hwin & _).
  injection Hwin as Ha1 Hb1 Ha2 Hb2.
  unfold windowTransform; cbn. rewrite Hx0, Hy0, Ha1, Hb1, Ha2, Hb2. cbn.
  repeat split; field; intros Hz; (apply Hx || apply Hy); lra.
Qed.

Lemma windowTransform_of_constructed_witness :
  constructor 0 canvas100 table_AB 1 narrowWindowQ (Some origin) (world_AB 0)
  = Returned (orbit_AB narrowWindowQ origin 1, world_AB_calibrated 0) /\
  ~ win_b1 narrowWindowQ == win_a1 narrowWindowQ /\
  ~ win_b2 narrowWindowQ == win_a2 narrowWindowQ /\
  x (windowTransform (orbit_AB narrowWindowQ origin 1) {| x := 50; y := 25 |})
  == win_a1 narrowWindowQ * width canvas100
     + 50 * (win_b1 narrowWindowQ - win_a1 narrowWindowQ) /\
  y (windowTransform (orbit_AB narrowWindowQ origin 1) {| x := 50; y := 25 |})
  == win_a2 narrowWindowQ * height canvas100
     + 25 * (win_b2 narrowWindowQ - win_a2 narrowWindowQ) /\
  x (windowTransform (orbit_AB narrowWindowQ origin 1)
       {| x := width canvas100; y := height canvas100 |})
  == win_b1 narrowWindowQ * width canvas100 /\
  y (windowTransform (orbit_AB narrowWindowQ origin 1)
       {| x := width canvas100; y := height canvas100 |})
  == win_b2 narrowWindowQ * height canvas100 /\
  x (windowTransform (orbit_AB narrowWindowQ origin 1)
       {| x := x0 (orbit_AB narrowWindowQ origin 1);
          y := y0 (orbit_AB narrowWindowQ origin 1) |}) == 0 /\
  y (windowTransform (orbit_AB narrowWindowQ origin 1)
       {| x := x0 (orbit_AB narrowWindowQ origin 1);
          y := y0 (orbit_AB narrowWindowQ origin 1) |}) == 0.
Proof.
  assert (Hne : ~ 7 # 10 == 1 # 10) by (intros Hq; discriminate Hq).
  split; [apply constructor_AB|]. split; [exact Hne|]. split; [exact Hne|].
  exact (windowTransform_of_constructed 0 canvas100 table_AB 1 narrowWindowQ
           (Some origin) (world_AB 0) (world_AB_calibrated 0)
           (orbit_AB narrowWindowQ origin 1) {| x := 50; y := 25 |}
           (constructor_AB 0 1 narrowWindowQ origin 0) Hne Hne).
Defined.

(** X6: on a square canvas a calibrated transform acts on points scaled by
    the canvas size as the transform itself acts on the points: the image of
    [size * p] is the floor of [size * T(p)] on each axis. *)
Theorem applyMatrix_calibrated_square (cv : HTMLCanvasElement Q)
    (t : AffineTransform Q) (p : Coordinate Q) :
  height cv == width cv ->
  applyMatrix (createMatrix (calibrated cv t))
    {| x := width cv * x p; y := width cv * y p |}
  = {| x := Exact.floor (width cv * (a t * x p + b t * y p + e t));
       y := Exact.floor (width cv * (c t * x p + d t * y p + f t)) |}.
Proof.
  intros Hsq. unfold applyMatrix, createMatrix, calibrated; cbn.
  unfold Exact.floor. f_equal; f_equal; apply Qfloor_comp; [ring|].
  rewrite Hsq. ring.
Qed.

Lemma applyMatrix_calibrated_square_witness :
  height (canvas100 (N := Q)) == width (canvas100 (N := Q)) /\
  applyMatrix (createMatrix (calibrated canvas100 transformB))
    {| x := width canvas100 * (1 # 3); y := width canvas100 * (1 # 4) |}
  = {| x := Exact.floor
              (width canvas100
               * (a transformB * (1 # 3) + b transformB * (1 # 4) + e transformB));
       y := Exact.floor
              (width canvas100
               * (c transformB * (1 # 3) + d transformB * (1 # 4) + f transformB)) |}.
Proof.
  assert (Hsq : height (canvas100 (N := Q)) == width (canvas100 (N := Q)))
    by reflexivity.
  split; [exact Hsq|].
  exact (applyMatrix_calibrated_square canvas100 transformB
           {| x := 1 # 3; y := 1 # 4 |} Hsq).
Defined.

End WindowGeometry.

(** ** The search for a seed and the world *)

Section SearchWorld.
Context {N : Type} `{JSNumber N}.

(** The window point of the pixel drawn by the values number [k] and [k+1]
    of [Math.random()]. *)
Lemma tryFixedPoint_world (this : Frame N) matrix tries (w w' : World N) r :
  tryFixedPoint this matrix tries w = Returned (r, w') ->
  heap w' = heap w /\ fills w' = fills w /\ random w' = random w /\
  (randomCalls w <= randomCalls w')%nat /\
  forall p, r = Some p ->
    (randomCalls w + 2 <= randomCalls w')%nat /\
    p = windowTransform this
          {| x := num_floor (num_mul (random w (randomCalls w' - 2))
                               (width (canvas this)));
             y := num_floor (num_mul (random w (randomCalls w' - 1))
                               (height (canvas this))) |}.
Proof.
  destruct matrix as [T|].
  2:{ intros Hrun. apply tryFixedPoint_undefined in Hrun. injection Hrun as -> ->.
      repeat split; try done. }
  revert w. induction tries as [|tries IH]; intros w.
  - intros [= <- <-]. repeat split; try done.
  - rewrite tryFixedPoint_S.
    destruct (within_tolerance T (trial_point this w)).
    + intros [= <- <-]. cbn. split; [done|]. split; [done|]. split; [done|].
      split; [lia|]. intros p [= <-]. split; [lia|].
      unfold trial_point. by rewrite Nat.sub_0_r.
    + intros Hrun. apply IH in Hrun as (Hheap & Hfills & Hrandom & Hcalls & Hp).
      cbn in *. split; [done|]. split; [done|]. split; [done|]. split; [lia|].
      intros p Hr. destruct (Hp p Hr) as [Hle ->]. split; [lia|done].
Qed.

(** A search that returns has only read values of [Math.random()]. *)
Lemma findFixedPointStochastic_frame fuel (this : Frame N)
    (w w' : World N) (p : Coordinate N) :
  findFixedPointStochastic fuel this w = Returned (p, w') ->
  heap w' = heap w /\ fills w' = fills w /\ random w' = random w /\
  (randomCalls w + 3 <= randomCalls w')%nat /\
  p = windowTransform this
        {| x := num_floor (num_mul (random w (randomCalls w' - 2))
                             (width (canvas this)));
           y := num_floor (num_mul (random w (randomCalls w' - 1))
                             (height (canvas this))) |}.
Proof.
  revert w. induction fuel as [|fuel IH]; intros w; [discriminate|].
  rewrite findFixedPointStochastic_S. intros Hrun.
  apply bind_Returned in Hrun as (r & w2 & Htry & Hrun).
  apply tryFixedPoint_world in Htry as (Hheap & Hfills & Hrandom & Hcalls & Hp).
  cbn in Hheap, Hfills, Hrandom, Hcalls, Hp.
  destruct r as [q|].
  - injection Hrun as <- <-. destruct (Hp q eq_refl) as [Hle ->].
    repeat split; try done. lia.
  - apply IH in Hrun as (Hheap' & Hfills' & Hrandom' & Hcalls' & ->).
    rewrite Hrandom. repeat split; try congruence. lia.
Qed.

(** X7: a search that returns has read values of [Math.random()] and done
    nothing else: the store and the canvas are as before.  It has used at
    least three values, and the point it returns is the window point of the
    pixel drawn by the last two of them. *)
Theorem findFixedPointStochastic_world fuel (this : Frame N)
    (w w' : World N) (p : Coordinate N) :
  findFixedPointStochastic fuel this w = Returned (p, w') ->
  heap w' = heap w /\ fills w' = fills w /\ random w' = random w /\
  (randomCalls w + 3 <= randomCalls w')%nat /\
  p = windowTransform this
        {| x := num_floor (num_mul (random w (randomCalls w' - 2))
                             (width (canvas this)));
           y := num_floor (num_mul (random w (randomCalls w' - 1))
                             (height (canvas this))) |}.
Proof. apply findFixedPointStochastic_frame. Qed.



(** X9: with an empty table and no starting point the constructor throws:
    the first trial of the search indexes the [undefined] that [randomMatrix]
    returned. *)
Theorem constructor_empty_table_throws fuel (cv : HTMLCanvasElement N)
    (probs : list N) numPts (window : WindowCoordinates N) (w : World N) :
  constructor (S fuel) cv
    {| collectTransforms := []; collectProbabilities := probs |}
    numPts window None w
  = Thrown TypeError.
Proof. reflexivity. Qed.

Lemma updateCurrentPoint_undefined (this : RandomIFS N) (w : World N) :
  matrices this = [] -> updateCurrentPoint this w = Thrown TypeError.
Proof.
  intros Hnil. unfold updateCurrentPoint.
  rewrite (bind_Returned_intro _ _ _ _ _ (randomMatrix_eq this w)).
  rewrite Hnil. cbn. by rewrite Hnil.
Qed.

(** X10: on an orbit whose table is empty, [iterate] throws when it has a
    point to draw ([numPoints >= 1]) and returns with only [numIters]
    changed otherwise. *)
Theorem iterate_empty_table (this : RandomIFS N) (w : World N) :
  matrices this = [] ->
  iterate this w
  = if (0 <? numPoints this)%Z then Thrown TypeError
    else Returned ({| frame := frame this; currentPoint := currentPoint this;
                      numPoints := numPoints this;
                      numIters := numIters this + 1;
                      pointsDrawn := pointsDrawn this |}, w).
Proof.
  intros Hnil. unfold iterate.
  destruct (Z.ltb_spec 0 (numPoints this)) as [Hpos|Hneg].
  - destruct (Z.to_nat (numPoints this)) as [|n] eqn:Hn; [lia|].
    cbn [iterate_loop].
    rewrite (bind_Returned_intro _ _ _ _ _ (draw_eq _ _)).
    unfold bind at 1. by rewrite updateCurrentPoint_undefined.
  - by replace (Z.to_nat (numPoints this)) with 0%nat by lia.
Qed.

(** X11: when the table supplies fewer than two bounds, no interval can be
    tested (a missing bound compares false) and every draw selects the last
    matrix. *)
Theorem randomMatrix_missing_bounds (this : Frame N) (w : World N) :
  (length (transformProbs this) <= 1)%nat ->
  randomMatrix this w = Returned (last (matrices this), after_draw w).
Proof.
  intros Hshort. rewrite randomMatrix_eq. unfold after_draw. do 2 f_equal.
  apply randomMatrix_loop_none. intros j _. unfold probTest.
  rewrite (lookup_ge_None_2 (transformProbs this) (S j)) by lia.
  by destruct (transformProbs this !! j).
Qed.

End SearchWorld.

Lemma findFixedPointStochastic_world_witness :
  findFixedPointStochastic 1 (frame_AB unitWindow)
    (world_draws [3 # 100; 99 # 100; 99 # 100; 1 # 100; 1 # 100]%Q 0%Q)
  = Returned ({| x := 1%Q; y := 1%Q |},
              {| heap := heap (world_AB_calibrated 0%Q);
                 random := fun k =>
                   default 0%Q
                     ([3 # 100; 99 # 100; 99 # 100; 1 # 100; 1 # 100]%Q !! k);
                 randomCalls := 5; fills := [] |}) /\
  {| x := 1%Q; y := 1%Q |}
  = windowTransform (frame_AB unitWindow)
      {| x := num_floor (num_mul (1 # 100)%Q (width (canvas100 (N := Q))));
         y := num_floor (num_mul (1 # 100)%Q (height (canvas100 (N := Q)))) |}.
Proof.
  assert (Hrun :
    findFixedPointStochastic 1 (frame_AB unitWindow)
      (world_draws [3 # 100; 99 # 100; 99 # 100; 1 # 100; 1 # 100]%Q 0%Q)
    = Returned ({| x := 1%Q; y := 1%Q |},
                {| heap := heap (world_AB_calibrated 0%Q);
                   random := fun k =>
                     default 0%Q
                       ([3 # 100; 99 # 100; 99 # 100; 1 # 100; 1 # 100]%Q !! k);
                   randomCalls := 5; fills := [] |}))
    by (vm_compute; reflexivity).
  split; [exact Hrun|].
  exact (proj2 (proj2 (proj2 (proj2
           (findFixedPointStochastic_world _ _ _ _ _ Hrun))))).
Defined.

Lemma iterate_empty_table_witness :
  matrices (orbit_empty (N := Q) unitWindow origin 1) = [] /\
  iterate (orbit_empty unitWindow origin 1) (world_AB 0%Q)
  = if (0 <? numPoints (orbit_empty (N := Q) unitWindow origin 1))%Z
    then Thrown TypeError
    else Returned
           ({| frame := frame (orbit_empty unitWindow origin 1);
               currentPoint := currentPoint (orbit_empty unitWindow origin 1);
               numPoints := numPoints (orbit_empty (N := Q) unitWindow origin 1);
               numIters := numIters (orbit_empty (N := Q) unitWindow origin 1) + 1;
               pointsDrawn := pointsDrawn (orbit_empty (N := Q) unitWindow origin 1) |},
            world_AB 0%Q).
Proof.
  split; [reflexivity|].
  exact (iterate_empty_table (orbit_empty unitWindow origin 1) (world_AB 0%Q)
           eq_refl).
Defined.

Lemma randomMatrix_missing_bounds_witness :
  (length (transformProbs (with_probs (frame_AB (N := Q) unitWindow) [0%Q])) <= 1)%nat /\
  randomMatrix (with_probs (frame_AB unitWindow) [0%Q])
    (world_AB_calibrated (1 # 4)%Q)
  = Returned (last (matrices (with_probs (frame_AB unitWindow) [0%Q])),
              after_draw (world_AB_calibrated (1 # 4)%Q)).
Proof.
  assert (Hshort :
    (length (transformProbs (with_probs (frame_AB (N := Q) unitWindow) [0%Q])) <= 1)%nat)
    by (cbn; lia).
  split; [exact Hshort|].
  exact (randomMatrix_missing_bounds _ (world_AB_calibrated (1 # 4)%Q) Hshort).
Defined.

(** ** The search for a seed, over exact arithmetic: more *)

Section SearchExactMore.
Local Open Scope Q_scope.



Lemma getRandomInt_range (u size : Q) :
  0 <= u < 1 -> 0 < size ->
  exists X : Z, Exact.floor (u * size) = inject_Z X /\ (0 <= X)%Z /\
                inject_Z X < size.
Proof.
  intros [Hu0 Hu1] Hsize. exists (Qfloor (u * size)). split; [done|].
  assert (Hprod : 0 <= u * size) by (apply Qmult_le_0_compat; lra).
  assert (Hbelow : u * size < 1 * size) by (apply Qmult_lt_compat_r; lra).
  split.
  - rewrite <- (Qfloor_Z 0). by apply Qfloor_resp_le.
  - pose proof (Qfloor_le (u * size)). lra.
Qed.

(** X12: when [Math.random()] returns values of [[0,1)] and the canvas has
    a positive width and height, a point the search returns is the window
    point of a pixel of the canvas: of integers [X], [Y] with
    [0 <= X < width] and [0 <= Y < height]. *)
Theorem findFixedPointStochastic_pixel fuel (this : Frame Q)
    (w w' : World Q) (p : Coordinate Q) :
  (forall k, 0 <= random w k < 1) ->
  0 < width (canvas this) -> 0 < height (canvas this) ->
  findFixedPointStochastic fuel this w = Returned (p, w') ->
  exists X Y : Z,
    p = windowTransform this {| x := inject_Z X; y := inject_Z Y |} /\
    (0 <= X)%Z /\ inject_Z X < width (canvas this) /\
    (0 <= Y)%Z /\ inject_Z Y < height (canvas this).
Proof.
  intros Hdraws Hwidth Hheight Hrun.
  apply findFixedPointStochastic_frame in Hrun as (_ & _ & _ & _ & ->).
  destruct (getRandomInt_range (random w (randomCalls w' - 2))
              (width (canvas this)) (Hdraws _) Hwidth) as (X & HX & HX0 & HX1).
  destruct (getRandomInt_range (random w (randomCalls w' - 1))
              (height (canvas this)) (Hdraws _) Hheight) as (Y & HY & HY0 & HY1).
  exists X, Y. cbn. cbn in HX, HY. by rewrite HX, HY.
Qed.

Lemma findFixedPointStochastic_pixel_witness :
  (forall k, 0 <= random (world_AB_calibrated (3 # 100)) k < 1) /\
  0 < width (canvas (frame_AB (N := Q) unitWindow)) /\
  0 < height (canvas (frame_AB (N := Q) unitWindow)) /\
  findFixedPointStochastic 1 (frame_AB unitWindow)
    (world_AB_calibrated (3 # 100))
  = Returned ({| x := 3; y := 3 |},
              {| heap := heap (world_AB_calibrated (3 # 100));
                 random := fun _ => 3 # 100; randomCalls := 3;
                 fills := [] |}) /\
  exists X Y : Z,
    {| x := 3; y := 3 |}
    = windowTransform (frame_AB unitWindow)
        {| x := inject_Z X; y := inject_Z Y |} /\
    (0 <= X)%Z /\ inject_Z X < width (canvas (frame_AB (N := Q) unitWindow)) /\
    (0 <= Y)%Z /\ inject_Z Y < height (canvas (frame_AB (N := Q) unitWindow)).
Proof.
  assert (Hdraws : forall k : nat,
            0 <= random (world_AB_calibrated (3 # 100)) k < 1).
  { intros k. split; [intros Hc; discriminate Hc|reflexivity]. }
  assert (Hsize : 0 < width (canvas (frame_AB (N := Q) unitWindow)))
    by reflexivity.
  assert (Hrun :
    findFixedPointStochastic 1 (frame_AB unitWindow)
      (world_AB_calibrated (3 # 100))
    = Returned ({| x := 3; y := 3 |},
                {| heap := heap (world_AB_calibrated (3 # 100));
                   random := fun _ => 3 # 100; randomCalls := 3;
                   fills := [] |}))
    by (vm_compute; reflexivity).
  split; [exact Hdraws|]. split; [exact Hsize|]. split; [exact Hsize|].
  split; [exact Hrun|].
  exact (findFixedPointStochastic_pixel 1 _ _ _ _ Hdraws Hsize Hsize Hrun).
Defined.

End SearchExactMore.

(** ** The weighted choice, over exact arithmetic: more *)

Section WeightedChoiceMore.
Local Open Scope Q_scope.

(** X13: on a valid table, a draw below 0 or above 1 lies in no interval,
    and [randomMatrix] returns the last matrix. *)
Theorem randomMatrix_outside_unit (this : Frame Q) (w : World Q) :
  validTable this ->
  random w (randomCalls w) < 0 \/ 1 < random w (randomCalls w) ->
  randomMatrix this w = Returned (last (matrices this), after_draw w).
Proof.
  intros Hvalid Hout. rewrite randomMatrix_eq. unfold after_draw. do 2 f_equal.
  apply randomMatrix_loop_none. intros j Hj.
  destruct (probTest this (random w (randomCalls w)) j) eqn:Htest; [exfalso|done].
  apply probTest_closed in Htest as (p & q & Hp & Hq & Hpu & Huq).
  pose proof Hvalid as (Hlen & (p0 & Hp0 & Hzero) & (q1 & Hq1 & Hone) & _).
  assert (H0p : p0 <= p) by by apply (validTable_mono this j 0 p0 p).
  assert (Hq1' : q <= q1).
  { apply (validTable_mono this (length (matrices this) - S j) (S j) q q1);
      [done..|]. by replace (S j + (length (matrices this) - S j))%nat
        with (length (matrices this)) by lia. }
  rewrite Hzero in H0p. rewrite Hone in Hq1'. lra.
Qed.

Lemma randomMatrix_outside_unit_witness :
  validTable (frame_AB unitWindow) /\
  (random (world_AB_calibrated (3 # 2))
     (randomCalls (world_AB_calibrated (3 # 2))) < 0 \/
   1 < random (world_AB_calibrated (3 # 2))
         (randomCalls (world_AB_calibrated (3 # 2)))) /\
  randomMatrix (frame_AB unitWindow) (world_AB_calibrated (3 # 2))
  = Returned (last (matrices (frame_AB unitWindow)),
              after_draw (world_AB_calibrated (3 # 2))).
Proof.
  assert (Hout :
    random (world_AB_calibrated (3 # 2))
      (randomCalls (world_AB_calibrated (3 # 2))) < 0 \/
    1 < random (world_AB_calibrated (3 # 2))
          (randomCalls (world_AB_calibrated (3 # 2))))
    by (right; reflexivity).
  split; [exact (validTable_AB unitWindow)|]. split; [exact Hout|].
  exact (randomMatrix_outside_unit (frame_AB unitWindow)
           (world_AB_calibrated (3 # 2)) (validTable_AB unitWindow) Hout).
Defined.

(** X14: on a valid table, for a draw of [[0,1)] that is none of the
    bounds, [randomMatrix] returns the transform of the half-open interval
    [cum[i] <= u < cum[i+1]] that holds the draw. *)
Theorem randomMatrix_half_open (this : Frame Q) (w : World Q) (i : nat) :
  validTable this -> 0 <= random w (randomCalls w) < 1 ->
  (forall j p, transformProbs this !! j = Some p ->
               ~ p == random w (randomCalls w)) ->
  smallest (inHalfOpen (transformProbs this) (random w (randomCalls w))) i ->
  exists m, matrices this !! i = Some m /\
            randomMatrix this w = Returned (Some m, after_draw w).
Proof.
  intros Hvalid [Hu0 Hu1] Hoff [Hin Hleast].
  destruct (randomMatrix_loop_closed this (random w (randomCalls w)) Hvalid)
    as (k & m & [Hclosed Hfirst] & Hm & Hloop & _); [split; lra|].
  assert (k = i) as ->.
  { destruct (Nat.lt_trichotomy k i) as [Hlt|[Heq|Hgt]]; [exfalso|done|exfalso].
    - apply (Hleast k Hlt).
      destruct Hclosed as (p & q & Hp & Hq & Hpu & Huq).
      exists p, q. repeat split; try done.
      apply Qle_lteq in Huq as [Hlt'|Heq]; [done|].
      exfalso. apply (Hoff (S k) q Hq). by symmetry.
    - apply (Hfirst i Hgt).
      destruct Hin as (p & q & Hp & Hq & Hpu & Huq).
      exists p, q. repeat split; try done. by apply Qlt_le_weak. }
  exists m. split; [done|]. by rewrite randomMatrix_eq, Hloop.
Qed.

Lemma randomMatrix_half_open_witness :
  validTable (frame_AB unitWindow) /\
  0 <= random (world_AB_calibrated (3 # 4))
         (randomCalls (world_AB_calibrated (3 # 4))) < 1 /\
  (forall j p, transformProbs (frame_AB unitWindow) !! j = Some p ->
     ~ p == random (world_AB_calibrated (3 # 4))
              (randomCalls (world_AB_calibrated (3 # 4)))) /\
  smallest (inHalfOpen (transformProbs (frame_AB unitWindow))
              (random (world_AB_calibrated (3 # 4))
                 (randomCalls (world_AB_calibrated (3 # 4))))) 1 /\
  exists m, matrices (frame_AB unitWindow) !! 1%nat = Some m /\
            randomMatrix (frame_AB unitWindow) (world_AB_calibrated (3 # 4))
            = Returned (Some m, after_draw (world_AB_calibrated (3 # 4))).
Proof.
  assert (Hu : 0 <= random (world_AB_calibrated (3 # 4))
                      (randomCalls (world_AB_calibrated (3 # 4))) < 1).
  { split; [intros Hc; discriminate Hc|reflexivity]. }
  assert (Hoff : forall j p,
            transformProbs (frame_AB unitWindow) !! j = Some p ->
            ~ p == random (world_AB_calibrated (3 # 4))
                     (randomCalls (world_AB_calibrated (3 # 4)))).
  { intros [|[|[|j]]] p Hp; cbn in Hp; simplify_eq;
      intros Heq; discriminate Heq. }
  assert (Hin : smallest
            (inHalfOpen (transformProbs (frame_AB unitWindow))
               (random (world_AB_calibrated (3 # 4))
                  (randomCalls (world_AB_calibrated (3 # 4))))) 1).
  { split.
    - exists (1 # 2), 1. by repeat split.
    - intros [|j] Hj (p & q & Hp & Hq & _ & Hlt); [|lia].
      injection Hq as <-. discriminate Hlt. }
  split; [exact (validTable_AB unitWindow)|]. split; [exact Hu|].
  split; [exact Hoff|]. split; [exact Hin|].
  exact (randomMatrix_half_open (frame_AB unitWindow)
           (world_AB_calibrated (3 # 4)) 1 (validTable_AB unitWindow)
           Hu Hoff Hin).
Defined.

End WeightedChoiceMore.

(** ** What the constructor builds *)

Section ConstructorMore.
Context {N : Type} `{JSNumber N}.

Lemma gatherMatrices_lookup (refs : list Ref) (ms : list (Matrix N))
    (w w' : World N) :
  gatherMatrices refs w = Returned (ms, w') ->
  length ms = length refs /\
  forall (i : nat) (r : Ref), refs !! i = Some r ->
    exists t, heap w !! r = Some t /\ ms !! i = Some (createMatrix t).
Proof.
  revert ms w'. induction refs as [|r0 refs IH]; intros ms w'; cbn.
  - intros [= <- _]. split; [done|]. intros i r Hr. done.
  - intros Hms. apply bind_Returned in Hms as (m & w3 & Hm & Hms).
    destruct (heap w !! r0) as [t0|] eqn:Ht0; [|discriminate].
    injection Hm as <- <-.
    apply bind_Returned in Hms as (ms' & w4 & Hrest & Hret).
    injection Hret as <- _. apply IH in Hrest as [Hlen Hlook].
    split; [cbn; by rewrite Hlen|].
    intros [|i] r Hr; cbn in Hr.
    + injection Hr as <-. by exists t0.
    + by apply Hlook.
Qed.

Lemma calibrate_loop_world (cv : HTMLCanvasElement N) (refs : list Ref)
    (w w' : World N) :
  calibrate_loop cv refs w = Returned (tt, w') ->
  fills w' = fills w /\ random w' = random w /\ randomCalls w' = randomCalls w.
Proof.
  revert w. induction refs as [|r refs IH]; intros w; cbn [calibrate_loop].
  - by intros [= <-].
  - intros Hrun. apply bind_Returned in Hrun as ([] & w1 & Hat & Hrun).
    unfold calibrateAt in Hat. destruct (heap w !! r); [|discriminate].
    injection Hat as <-. by apply IH in Hrun.
Qed.

Lemma calibrateAffineTransforms_inv (cv : HTMLCanvasElement N)
    (refs refs' : list Ref) (w w' : World N) :
  calibrateAffineTransforms cv refs w = Returned (refs', w') ->
  calibrate_loop cv refs w = Returned (tt, w').
Proof.
  unfold calibrateAffineTransforms. intros Hrun.
  apply bind_Returned in Hrun as ([] & w1 & Hloop & Hret).
  by injection Hret as _ <-.
Qed.

(** X15: the constructor keeps the order of the table.  When the table
    lists distinct transform objects, the matrix number [i] of the orbit is
    that of the transform number [i], calibrated once, and the bounds are
    those of the table: the interval number [i] selects the transform
    number [i]. *)
Theorem constructor_matrices fuel (cv : HTMLCanvasElement N)
    (table : ProbabilityAffineTable N) numPts (window : WindowCoordinates N)
    (start : option (Coordinate N)) (w w' : World N) (this : RandomIFS N) :
  constructor fuel cv table numPts window start w = Returned (this, w') ->
  NoDup (collectTransforms table) ->
  transformProbs this = collectProbabilities table /\
  length (matrices this) = length (collectTransforms table) /\
  forall (i : nat) (r : Ref), collectTransforms table !! i = Some r ->
    exists t, heap w !! r = Some t /\
              matrices this !! i = Some (createMatrix (calibrated cv t)).
Proof.
  intros Hnew Hnodup.
  apply constructor_inv in Hnew as (_ & Hprobs & _ & _ & _ & _ & w1 & Hcal & Hms & _).
  apply calibrateAffineTransforms_inv in Hcal.
  apply gatherMatrices_lookup in Hms as [Hlen Hlook].
  split; [done|]. split; [done|]. intros i r Hr.
  destruct (Hlook i r Hr) as (t1 & Ht1 & Hm).
  pose proof (calibrate_loop_lookup cv _ w w1 Hnodup Hcal r) as Hheap.
  rewrite decide_True in Hheap by by eapply list_elem_of_lookup_2.
  rewrite Ht1 in Hheap. destruct (heap w !! r) as [t|]; [|discriminate].
  injection Hheap as ->. by exists t.
Qed.

(** X16: an orbit built without a starting point starts at the point its
    search found: a point within the tolerance of its image under a matrix
    of the orbit.  Building it draws nothing, and the counters are at
    zero. *)
Theorem constructor_seeded fuel (cv : HTMLCanvasElement N)
    (table : ProbabilityAffineTable N) numPts (window : WindowCoordinates N)
    (w w' : World N) (this : RandomIFS N) :
  constructor fuel cv table numPts window None w = Returned (this, w') ->
  (exists T, T ∈ matrices this /\
             within_tolerance T (currentPoint this) = true) /\
  fills w' = fills w /\ random w' = random w /\
  (randomCalls w + 3 <= randomCalls w')%nat /\
  (numIters this, pointsDrawn this) = (0%Z, 0%Z).
Proof.
  intros Hnew.
  apply constructor_inv in Hnew
    as (_ & _ & _ & _ & _ & Hcount & w1 & Hcal & _ & Hseed).
  apply calibrateAffineTransforms_inv, calibrate_loop_world in Hcal
    as (Hfills & Hrandom & Hcalls).
  pose proof (findFixedPointStochastic_Returned _ _ _ _ _ Hseed) as [Hfix _].
  apply findFixedPointStochastic_frame in Hseed
    as (_ & Hfills' & Hrandom' & Hcalls' & _).
  split; [exact Hfix|]. injection Hcount as _ Hni Hpd.
  split; [congruence|]. split; [congruence|]. split; [lia|].
  by rewrite Hni, Hpd.
Qed.

End ConstructorMore.

Lemma constructor_matrices_witness :
  constructor 0 canvas100 table_AB 1 unitWindow (Some origin) (world_AB 0%Q)
  = Returned (orbit_AB unitWindow origin 1, world_AB_calibrated 0%Q) /\
  NoDup (collectTransforms (table_AB (N := Q))) /\
  transformProbs (orbit_AB (N := Q) unitWindow origin 1)
  = collectProbabilities table_AB /\
  length (matrices (orbit_AB (N := Q) unitWindow origin 1))
  = length (collectTransforms (table_AB (N := Q))) /\
  forall (i : nat) (r : Ref),
    collectTransforms (table_AB (N := Q)) !! i = Some r ->
    exists t, heap (world_AB 0%Q) !! r = Some t /\
              matrices (orbit_AB unitWindow origin 1) !! i
              = Some (createMatrix (calibrated canvas100 t)).
Proof.
  assert (Hnodup : NoDup (collectTransforms (table_AB (N := Q)))).
  { apply NoDup_cons. split; [|apply NoDup_singleton].
    intros Hin. apply list_elem_of_singleton in Hin. discriminate Hin. }
  split; [apply constructor_AB|]. split; [exact Hnodup|].
  exact (constructor_matrices 0 canvas100 table_AB 1 unitWindow (Some origin)
           (world_AB 0%Q) (world_AB_calibrated 0%Q)
           (orbit_AB unitWindow origin 1)
           (constructor_AB 0 1 unitWindow origin 0%Q) Hnodup).
Defined.

Lemma constructor_seeded_witness :
  exists this w',
    constructor 1 canvas100 table_AB 1 unitWindow None (world_AB (3 # 100)%Q)
    = Returned (this, w') /\
    (exists T, T ∈ matrices this /\
               within_tolerance T (currentPoint this) = true) /\
    fills w' = fills (world_AB (3 # 100)%Q) /\
    random w' = random (world_AB (3 # 100)%Q) /\
    (randomCalls (world_AB (3 # 100)%Q) + 3 <= randomCalls w')%nat /\
    (numIters this, pointsDrawn this) = (0%Z, 0%Z).
Proof.
  returned_by
    (constructor 1 canvas100 table_AB 1 unitWindow None (world_AB (3 # 100)%Q))
    ltac:(fun s w =>
      assert (Hnew :
        constructor 1 canvas100 table_AB 1 unitWindow None
          (world_AB (3 # 100)%Q) = Returned (s, w))
        by (vm_compute; reflexivity);
      exists s, w; split; [exact Hnew|];
      exact (constructor_seeded 1 canvas100 table_AB 1 unitWindow
               (world_AB (3 # 100)%Q) w s Hnew)).
Defined.

(** * Properties of [WindowTable] *)

(** ** Strings *)

Lemma is_space_slash (u : N) : is_space u = true -> (u =? slash)%N = false.
Proof.
  intros Hsp. destruct (N.eqb_spec u slash) as [->|]; [|done].
  discriminate Hsp.
Qed.

Lemma remove_spaces_cons (u : N) (s : JSString) :
  remove_spaces (u :: s)
  = if is_space u then remove_spaces s else u :: remove_spaces s.
Proof.
  unfold remove_spaces. rewrite filter_cons.
  destruct (is_space u); by case_decide.
Qed.

Lemma remove_spaces_app (s t : JSString) :
  remove_spaces (s ++ t) = remove_spaces s ++ remove_spaces t.
Proof. apply filter_app. Qed.

Lemma remove_spaces_idemp (s : JSString) :
  remove_spaces (remove_spaces s) = remove_spaces s.
Proof.
  induction s as [|u s IH]; [done|]. rewrite remove_spaces_cons.
  destruct (is_space u) eqn:Hu; [done|].
  by rewrite remove_spaces_cons, Hu, IH.
Qed.

Lemma includes_slash_cons (u : N) (s : JSString) :
  includes_slash (u :: s) = (u =? slash)%N || includes_slash s.
Proof.
  unfold includes_slash.
  change (existsb (N.eqb slash) (u :: s))
    with (N.eqb slash u || existsb (N.eqb slash) s).
  by rewrite (N.eqb_sym slash u).
Qed.

Lemma includes_slash_app (s t : JSString) :
  includes_slash (s ++ t) = includes_slash s || includes_slash t.
Proof. apply existsb_app. Qed.

Lemma includes_slash_remove_spaces (s : JSString) :
  includes_slash (remove_spaces s) = includes_slash s.
Proof.
  induction s as [|u s IH]; [done|].
  rewrite remove_spaces_cons, includes_slash_cons.
  destruct (is_space u) eqn:Hu.
  - by rewrite (is_space_slash u Hu).
  - by rewrite includes_slash_cons, IH.
Qed.

Lemma split_slash_app (s t : JSString) :
  includes_slash s = false ->
  split_slash (s ++ slash :: t) = s :: split_slash t.
Proof.
  induction s as [|u s IH]; [done|].
  rewrite includes_slash_cons. intros [Hu Hs]%orb_false_elim.
  cbn. by rewrite Hu, (IH Hs).
Qed.

Lemma split_slash_none (s : JSString) :
  includes_slash s = false -> split_slash s = [s].
Proof.
  induction s as [|u s IH]; [done|].
  rewrite includes_slash_cons. intros [Hu Hs]%orb_false_elim.
  cbn. by rewrite Hu, (IH Hs).
Qed.

Lemma starts_with_before_lt (pattern s t : JSString) :
  Forall (fun p => p <> 60%N) pattern ->
  starts_with pattern (s ++ 60%N :: t) = starts_with pattern s.
Proof.
  intros Hpat. revert s. induction Hpat as [|p pattern Hp _ IH]; intros s.
  - by destruct s.
  - destruct s as [|u s]; cbn.
    + by apply N.eqb_neq in Hp as ->.
    + by rewrite IH.
Qed.

Lemma starts_with_tag_before_lt (pattern : JSString) (u : N) (s t : JSString) :
  Forall (fun p => p <> 60%N) pattern ->
  starts_with (60%N :: pattern) ((u :: s) ++ 60%N :: t)
  = starts_with (60%N :: pattern) (u :: s).
Proof.
  intros Hpat. cbn [app starts_with]. by rewrite starts_with_before_lt.
Qed.

(** A tag cannot end in text that is appended behind a ["<"]. *)
Lemma br_tag_length_before_lt (u : N) (s t : JSString) :
  br_tag_length ((u :: s) ++ 60%N :: t) = br_tag_length (u :: s).
Proof.
  unfold br_tag_length.
  change (units "<br />") with (60 :: [98; 114; 32; 47; 62])%N.
  change (units "<br >") with (60 :: [98; 114; 32; 62])%N.
  change (units "<br/>") with (60 :: [98; 114; 47; 62])%N.
  change (units "<br>") with (60 :: [98; 114; 62])%N.
  rewrite !starts_with_tag_before_lt; [done|..];
    repeat (apply Forall_cons; split; [done|]); apply Forall_nil_2.
Qed.

Lemma br_tag_length_bounds (s : JSString) (n : nat) :
  br_tag_length s = Some n -> (1 <= n <= length s)%nat.
Proof.
  assert (Hlen : forall pattern s', starts_with pattern s' = true ->
            (length pattern <= length s')%nat).
  { induction pattern as [|p pattern IH]; intros [|u s']; cbn;
      try (intros; lia); try done.
    intros [_ Hrest]%andb_prop. apply IH in Hrest. lia. }
  unfold br_tag_length.
  repeat (match goal with
          | |- context [starts_with ?pat s] =>
              destruct (starts_with pat s) eqn:Hst;
              [apply Hlen in Hst; cbn in Hst; intros [= <-]; lia|clear Hst]
          end).
  done.
Qed.

Lemma remove_br_from_trailing (s : JSString) (skip : nat) :
  (skip <= length s)%nat ->
  remove_br_from skip (s ++ units "<br>") = remove_br_from skip s.
Proof.
  revert skip. induction s as [|u s IH]; intros skip Hskip.
  - by replace skip with 0%nat by (cbn in Hskip; lia).
  - destruct skip as [|skip].
    + cbn [remove_br_from app].
      change (u :: s ++ units "<br>")
        with ((u :: s) ++ 60%N :: units "br>").
      rewrite br_tag_length_before_lt.
      destruct (br_tag_length (u :: s)) as [n|] eqn:Hn.
      * apply br_tag_length_bounds in Hn. cbn in Hn.
        change (s ++ 60%N :: units "br>") with (s ++ units "<br>").
        apply IH. lia.
      * f_equal. apply (IH 0%nat). lia.
    + cbn. apply IH. cbn in Hskip. lia.
Qed.

Lemma remove_br_without_lt (s : JSString) :
  Forall (fun u => u <> 60%N) s -> remove_br s = s.
Proof.
  unfold remove_br. induction 1 as [|u s Hu _ IH]; [done|].
  cbn [remove_br_from].
  assert (br_tag_length (u :: s) = None) as ->.
  { unfold br_tag_length.
    change (units "<br />") with (60 :: [98; 114; 32; 47; 62])%N.
    change (units "<br >") with (60 :: [98; 114; 32; 62])%N.
    change (units "<br/>") with (60 :: [98; 114; 47; 62])%N.
    change (units "<br>") with (60 :: [98; 114; 62])%N.
    cbn [starts_with].
    apply not_eq_sym, N.eqb_neq in Hu. by rewrite Hu. }
  by rewrite IH.
Qed.

(** ** [parseTableEntry] *)

Section ParseTableEntry.
Context {Num : Type} `{JSNumber Num}.
Variable Number_of_string : JSString -> Num.
Variable Number_of_undefined : Num.

Local Abbreviation parse :=
  (parseTableEntry Number_of_string Number_of_undefined).

Lemma parseTableEntry_slash (s0 s1 tail : JSString) :
  includes_slash s0 = false -> includes_slash s1 = false ->
  tail = [] \/ (exists rest, tail = slash :: rest) ->
  parse (s0 ++ slash :: s1 ++ tail)
  = num_div (Number_of_string (remove_spaces s0))
            (Number_of_string (remove_spaces s1)).
Proof.
  intros H0 H1 Htail. unfold parseTableEntry.
  rewrite includes_slash_app, includes_slash_cons, N.eqb_refl, orb_true_r.
  rewrite remove_spaces_app, remove_spaces_cons, remove_spaces_app.
  change (is_space slash) with false. cbv iota.
  rewrite split_slash_app by by rewrite includes_slash_remove_spaces.
  destruct Htail as [->|[rest ->]].
  - rewrite app_nil_r.
    by rewrite split_slash_none by by rewrite includes_slash_remove_spaces.
  - rewrite remove_spaces_cons. change (is_space slash) with false. cbv iota.
    by rewrite split_slash_app by by rewrite includes_slash_remove_spaces.
Qed.

(** X17: an entry with a slash is read as a fraction: the number before the
    first slash divided by the number between the first and the second
    slash, white space removed from both.  Whatever follows a second slash is
    ignored, and tags are not removed. *)
Theorem parseTableEntry_fraction (s0 s1 rest : JSString) :
  includes_slash s0 = false -> includes_slash s1 = false ->
  parse (s0 ++ slash :: s1)
  = num_div (Number_of_string (remove_spaces s0))
            (Number_of_string (remove_spaces s1)) /\
  parse (s0 ++ slash :: s1 ++ slash :: rest) = parse (s0 ++ slash :: s1).
Proof.
  intros H0 H1.
  pose proof (parseTableEntry_slash s0 s1 [] H0 H1 (or_introl eq_refl)) as Hone.
  rewrite app_nil_r in Hone. split; [exact Hone|]. rewrite Hone.
  apply parseTableEntry_slash; [done..|]. right. by exists rest.
Qed.

(** X18: white space is ignored wherever it stands, in an entry with a
    slash and in an entry without ["<"]. *)
Theorem parseTableEntry_spaces (html : JSString) :
  includes_slash html = true \/ Forall (fun u => u <> 60%N) html ->
  parse (remove_spaces html) = parse html.
Proof.
  intros Hcase. unfold parseTableEntry.
  rewrite includes_slash_remove_spaces, remove_spaces_idemp.
  destruct (includes_slash html) eqn:Hslash; [done|].
  destruct Hcase as [Hc|Hlt]; [discriminate Hc|].
  rewrite (remove_br_without_lt html Hlt).
  rewrite remove_br_without_lt; [by rewrite remove_spaces_idemp|].
  clear Hslash. induction Hlt as [|u s Hu _ IH]; [by constructor|].
  rewrite remove_spaces_cons. destruct (is_space u); [done|by constructor].
Qed.

(** X19: in an entry without a slash, a [<br>] in front of the text or
    behind it is ignored. *)
Theorem parseTableEntry_br (s : JSString) :
  includes_slash s = false ->
  parse (s ++ units "<br>") = parse s /\ parse (units "<br>" ++ s) = parse s.
Proof.
  intros Hs. unfold parseTableEntry.
  rewrite !includes_slash_app, Hs.
  change (includes_slash (units "<br>")) with false. cbn [orb].
  split.
  - unfold remove_br. by rewrite remove_br_from_trailing by lia.
  - reflexivity.
Qed.

(** X20: a self-closing [<br/>] is not removed: its slash makes the entry a
    fraction, whose denominator is the number read from [">"]. *)
Theorem parseTableEntry_br_self_closing (s : JSString) :
  includes_slash s = false ->
  parse (s ++ units "<br/>")
  = num_div (Number_of_string (remove_spaces (s ++ units "<br")))
            (Number_of_string (units ">")).
Proof.
  intros Hs.
  change (units "<br/>") with (units "<br" ++ slash :: units ">" ++ []).
  rewrite app_assoc.
  rewrite parseTableEntry_slash; [done| |done|by left].
  by rewrite includes_slash_app, Hs.
Qed.

End ParseTableEntry.

Lemma parseTableEntry_fraction_witness :
  includes_slash (units "1 ") = false /\
  includes_slash (units " 4") = false /\
  parseTableEntry (decimal 0) 0%Q (units "1 " ++ slash :: units " 4")
  = num_div (decimal 0 (remove_spaces (units "1 ")))
            (decimal 0 (remove_spaces (units " 4"))) /\
  parseTableEntry (decimal 0) 0%Q
    (units "1 " ++ slash :: units " 4" ++ slash :: units "7")
  = parseTableEntry (decimal 0) 0%Q (units "1 " ++ slash :: units " 4").
Proof.
  split; [reflexivity|]. split; [reflexivity|].
  exact (parseTableEntry_fraction (decimal 0) 0%Q (units "1 ") (units " 4")
           (units "7") eq_refl eq_refl).
Defined.

Lemma parseTableEntry_spaces_witness :
  (includes_slash (units " 12 5 ") = true \/
   Forall (fun u => u <> 60%N) (units " 12 5 ")) /\
  parseTableEntry (decimal 0) 0%Q (remove_spaces (units " 12 5 "))
  = parseTableEntry (decimal 0) 0%Q (units " 12 5 ").
Proof.
  assert (Hlt : Forall (fun u => u <> 60%N) (units " 12 5 ")).
  { repeat (apply Forall_cons; split; [intros Hc; discriminate Hc|]).
    apply Forall_nil_2. }
  split; [right; exact Hlt|].
  exact (parseTableEntry_spaces (decimal 0) 0%Q (units " 12 5 ")
           (or_intror Hlt)).
Defined.

Lemma parseTableEntry_br_witness :
  includes_slash (units "0.5") = false /\
  parseTableEntry (decimal 0) 0%Q (units "0.5" ++ units "<br>")
  = parseTableEntry (decimal 0) 0%Q (units "0.5") /\
  parseTableEntry (decimal 0) 0%Q (units "<br>" ++ units "0.5")
  = parseTableEntry (decimal 0) 0%Q (units "0.5").
Proof.
  split; [reflexivity|].
  exact (parseTableEntry_br (decimal 0) 0%Q (units "0.5") eq_refl).
Defined.

Lemma parseTableEntry_br_self_closing_witness :
  includes_slash (units "3") = false /\
  parseTableEntry (decimal 0) 0%Q (units "3" ++ units "<br/>")
  = num_div (decimal 0 (remove_spaces (units "3" ++ units "<br")))
            (decimal 0 (units ">")).
Proof.
  split; [reflexivity|].
  exact (parseTableEntry_br_self_closing (decimal 0) 0%Q (units "3") eq_refl).
Defined.

(** [parseTableEntry] on examples, digits read in decimal: a fraction, a
    fraction with a third part, an entry with white space and a tag. *)
Example parseTableEntry_examples :
  (parseTableEntry (decimal (-1)) (-1)%Q (units "1/4"),
   parseTableEntry (decimal (-1)) (-1)%Q (units " 3 / 12 / 5"),
   parseTableEntry (decimal (-1)) (-1)%Q (units "<br> 1 7<br >"),
   parseTableEntry (decimal (-1)) (-1)%Q (units "17<br/>"))
  = ((1 / 4)%Q, (3 / 12)%Q, 17%Q, ((-1) / (-1))%Q).
Proof. vm_compute. reflexivity. Qed.

(** ** The cells of the table *)

Section Cells.

Lemma set_cell_Some (table : HTMLTableElement) (r c : nat) (html : JSString) :
  is_Some (cell table r c) ->
  exists table', set_cell table r c html = Some table'.
Proof.
  unfold cell, set_cell. destruct (table !! r) as [row|]; cbn; [|by intros []].
  destruct (row !! c); cbn; [by eexists|by intros []].
Qed.

Lemma set_cell_None (table : HTMLTableElement) (r c : nat) (html : JSString) :
  cell table r c = None -> set_cell table r c html = None.
Proof.
  unfold cell, set_cell. destruct (table !! r) as [row|]; cbn; [|done].
  by intros ->.
Qed.

Lemma cell_set_cell (table table' : HTMLTableElement) (r c : nat)
    (html : JSString) (r' c' : nat) :
  set_cell table r c html = Some table' ->
  cell table' r' c'
  = if decide (r' = r /\ c' = c) then Some html else cell table r' c'.
Proof.
  unfold cell, set_cell. destruct (table !! r) as [row|] eqn:Hrow; cbn; [|done].
  destruct (row !! c) as [old|] eqn:Hold; cbn; [|done]. intros [= <-].
  apply lookup_lt_Some in Hrow as Hr. apply lookup_lt_Some in Hold as Hc.
  destruct (decide (r' = r)) as [->|Hne].
  - rewrite list_lookup_insert_eq by done. cbn.
    destruct (decide (c' = c)) as [->|Hnc].
    + rewrite list_lookup_insert_eq by done. by rewrite decide_True.
    + rewrite list_lookup_insert_ne by done. rewrite Hrow. cbn.
      rewrite decide_False; [done|]. by intros [_ ?].
  - rewrite list_lookup_insert_ne by done.
    rewrite decide_False; [done|]. by intros [? _].
Qed.

Lemma set_cell_shape (table table' : HTMLTableElement) (r c : nat)
    (html : JSString) :
  set_cell table r c html = Some table' ->
  length table' = length table /\
  forall r', length <$> table' !! r' = length <$> table !! r'.
Proof.
  unfold set_cell. destruct (table !! r) as [row|] eqn:Hrow; cbn; [|done].
  destruct (row !! c) as [old|] eqn:Hold; cbn; [|done]. intros [= <-].
  split; [by rewrite length_insert|]. intros r'.
  apply lookup_lt_Some in Hrow as Hr.
  destruct (decide (r' = r)) as [->|Hne].
  - rewrite list_lookup_insert_eq by done. rewrite Hrow. cbn.
    by rewrite length_insert.
  - by rewrite list_lookup_insert_ne by done.
Qed.

Lemma set_cell_None_iff (table : HTMLTableElement) (r c : nat)
    (html : JSString) :
  set_cell table r c html = None <-> cell table r c = None.
Proof.
  split; [|apply set_cell_None].
  intros Hset. destruct (cell table r c) as [old|] eqn:Hcell; [|done].
  destruct (set_cell_Some table r c html) as [table' Hsome]; [by eexists|].
  congruence.
Qed.

Lemma set_cell_Some_cell (table table' : HTMLTableElement) (r c : nat)
    (html : JSString) :
  set_cell table r c html = Some table' -> cell table r c <> None.
Proof. intros Hset Hnone. apply (set_cell_None _ _ _ html) in Hnone. congruence. Qed.

(** An assignment to a cell makes no cell appear or disappear. *)
Lemma cell_set_cell_None (table table' : HTMLTableElement) (r c : nat)
    (html : JSString) :
  set_cell table r c html = Some table' ->
  forall r' c' : nat, cell table' r' c' = None <-> cell table r' c' = None.
Proof.
  intros Hset r' c'. rewrite (cell_set_cell _ _ _ _ _ r' c' Hset).
  case_decide as Hrc; [|done]. destruct Hrc as [-> ->].
  apply set_cell_Some_cell in Hset. split; [done|]. intros Hnone. done.
Qed.

End Cells.

Section TableRoundTrip.
Context {Num : Type} `{JSNumber Num}.
Variable Number_of_string : JSString -> Num.
Variable Number_of_undefined : Num.
Variable String_of_number : Num -> JSString.

Local Abbreviation parse :=
  (parseTableEntry Number_of_string Number_of_undefined).

(** X21: [applyPreset] and [getWindowBounds] agree on the cells.  On a
    table that has the four cells (rows 1 and 2, columns 1 and 2),
    [applyPreset] returns, and [getWindowBounds] then reads each bound back
    from the string written for it: [a1] and [a2] in row 1, [b1] and [b2] in
    row 2.  No other cell is changed, and the table keeps its rows. *)
Theorem applyPreset_getWindowBounds (table : HTMLTableElement)
    (preset : WindowCoordinates Num) :
  is_Some (cell table 1 1) -> is_Some (cell table 2 1) ->
  is_Some (cell table 1 2) -> is_Some (cell table 2 2) ->
  exists table',
    applyPreset String_of_number table preset = (table', None) /\
    getWindowBounds Number_of_string Number_of_undefined table'
    = inr {| win_a1 := parse (String_of_number (win_a1 preset));
             win_b1 := parse (String_of_number (win_b1 preset));
             win_a2 := parse (String_of_number (win_a2 preset));
             win_b2 := parse (String_of_number (win_b2 preset)) |} /\
    length table' = length table /\
    forall r c : nat,
      ~ ((r = 1 \/ r = 2) /\ (c = 1 \/ c = 2))%nat ->
      cell table' r c = cell table r c.
Proof.
  intros H11 H21 H12 H22. unfold applyPreset.
  destruct (set_cell_Some table 1 1 (String_of_number (win_a1 preset)) H11)
    as [t1 Ht1].
  rewrite Ht1.
  destruct (set_cell_Some t1 2 1 (String_of_number (win_b1 preset)))
    as [t2 Ht2].
  { rewrite (cell_set_cell _ _ _ _ _ 2 1 Ht1). by rewrite decide_False by lia. }
  rewrite Ht2.
  destruct (set_cell_Some t2 1 2 (String_of_number (win_a2 preset)))
    as [t3 Ht3].
  { rewrite (cell_set_cell _ _ _ _ _ 1 2 Ht2). rewrite decide_False by lia.
    rewrite (cell_set_cell _ _ _ _ _ 1 2 Ht1). by rewrite decide_False by lia. }
  rewrite Ht3.
  destruct (set_cell_Some t3 2 2 (String_of_number (win_b2 preset)))
    as [t4 Ht4].
  { rewrite (cell_set_cell _ _ _ _ _ 2 2 Ht3). rewrite decide_False by lia.
    rewrite (cell_set_cell _ _ _ _ _ 2 2 Ht2). rewrite decide_False by lia.
    rewrite (cell_set_cell _ _ _ _ _ 2 2 Ht1). by rewrite decide_False by lia. }
  rewrite Ht4. exists t4. split; [done|].
  assert (Hcell : forall r c, cell t4 r c
            = if decide (r = 2 /\ c = 2)%nat
              then Some (String_of_number (win_b2 preset))
              else if decide (r = 1 /\ c = 2)%nat
              then Some (String_of_number (win_a2 preset))
              else if decide (r = 2 /\ c = 1)%nat
              then Some (String_of_number (win_b1 preset))
              else if decide (r = 1 /\ c = 1)%nat
              then Some (String_of_number (win_a1 preset))
              else cell table r c).
  { intros r c.
    rewrite (cell_set_cell _ _ _ _ _ r c Ht4). case_decide; [done|].
    rewrite (cell_set_cell _ _ _ _ _ r c Ht3). case_decide; [done|].
    rewrite (cell_set_cell _ _ _ _ _ r c Ht2). case_decide; [done|].
    by rewrite (cell_set_cell _ _ _ _ _ r c Ht1). }
  split; [|split].
  - unfold getWindowBounds. rewrite !Hcell.
    repeat (rewrite decide_True by lia || rewrite decide_False by lia). done.
  - apply set_cell_shape in Ht1 as [Hl1 _], Ht2 as [Hl2 _], Ht3 as [Hl3 _],
      Ht4 as [Hl4 _]. congruence.
  - intros r c Hother. rewrite Hcell.
    repeat (rewrite decide_False by lia). done.
Qed.

Lemma getWindowBounds_inl (table : HTMLTableElement) :
  getWindowBounds Number_of_string Number_of_undefined table = inl TypeError
  <-> cell table 1 1 = None \/ cell table 2 1 = None \/
      cell table 1 2 = None \/ cell table 2 2 = None.
Proof.
  clear String_of_number. unfold getWindowBounds.
  destruct (cell table 1 1), (cell table 2 1), (cell table 1 2),
    (cell table 2 2); split; try done; try tauto; intros [|[|[|]]]; done.
Qed.

(** X22: [applyPreset] and [getWindowBounds] need the same table.  A preset
    can be written without a throw exactly into the tables whose bounds can
    be read: [applyPreset] throws its TypeError if and only if
    [getWindowBounds] throws one on the table as it was before, whatever
    the preset is and however numbers and strings are converted.  (The
    cells that [applyPreset] writes before it reaches a missing one do not
    make any cell appear or disappear.) *)
Theorem applyPreset_throws_with_getWindowBounds (table : HTMLTableElement)
    (preset : WindowCoordinates Num) :
  (applyPreset String_of_number table preset).2 = Some TypeError
  <-> getWindowBounds Number_of_string Number_of_undefined table
      = inl TypeError.
Proof.
  rewrite getWindowBounds_inl. unfold applyPreset.
  destruct (set_cell table 1 1 (String_of_number (win_a1 preset)))
    as [t1|] eqn:H1.
  2:{ apply set_cell_None_iff in H1. cbn. split; auto. }
  pose proof (cell_set_cell_None _ _ _ _ _ H1) as E1.
  apply set_cell_Some_cell in H1.
  destruct (set_cell t1 2 1 (String_of_number (win_b1 preset)))
    as [t2|] eqn:H2.
  2:{ apply set_cell_None_iff, E1 in H2. cbn. split; auto. }
  pose proof (cell_set_cell_None _ _ _ _ _ H2) as E2.
  apply set_cell_Some_cell in H2. rewrite E1 in H2.
  destruct (set_cell t2 1 2 (String_of_number (win_a2 preset)))
    as [t3|] eqn:H3.
  2:{ apply set_cell_None_iff, E2, E1 in H3. cbn. split; auto. }
  pose proof (cell_set_cell_None _ _ _ _ _ H3) as E3.
  apply set_cell_Some_cell in H3. rewrite E2, E1 in H3.
  destruct (set_cell t3 2 2 (String_of_number (win_b2 preset)))
    as [t4|] eqn:H4.
  2:{ apply set_cell_None_iff, E3, E2, E1 in H4. cbn. split; auto. }
  apply set_cell_Some_cell in H4. rewrite E3, E2, E1 in H4.
  cbn. split; [done|]. intros [?|[?|[?|?]]]; done.
Qed.

(** X23: the assignments of [applyPreset] made before a throw stay.  On a
    table with the cell of [a1] and without the cell of [b1], the call
    throws after it has written [a1]; nothing else has changed. *)
Theorem applyPreset_throws_late (table : HTMLTableElement)
    (preset : WindowCoordinates Num) :
  is_Some (cell table 1 1) -> cell table 2 1 = None ->
  exists table',
    applyPreset String_of_number table preset = (table', Some TypeError) /\
    cell table' 1 1 = Some (String_of_number (win_a1 preset)) /\
    forall r c : nat, ~ (r = 1 /\ c = 1)%nat -> cell table' r c = cell table r c.
Proof.
  intros H11 H21. unfold applyPreset.
  destruct (set_cell_Some table 1 1 (String_of_number (win_a1 preset)) H11)
    as [t1 Ht1].
  rewrite Ht1. rewrite set_cell_None.
  2:{ rewrite (cell_set_cell _ _ _ _ _ 2 1 Ht1). by rewrite decide_False by lia. }
  exists t1. split; [done|]. split.
  - rewrite (cell_set_cell _ _ _ _ _ 1 1 Ht1). by rewrite decide_True.
  - intros r c Hother. rewrite (cell_set_cell _ _ _ _ _ r c Ht1).
    by rewrite decide_False.
Qed.

End TableRoundTrip.

Lemma applyPreset_getWindowBounds_witness :
  is_Some (cell table_page 1 1) /\ is_Some (cell table_page 2 1) /\
  is_Some (cell table_page 1 2) /\ is_Some (cell table_page 2 2) /\
  exists table',
    applyPreset digit_string table_page
      {| win_a1 := 3%Q; win_b1 := 12%Q; win_a2 := 0%Q; win_b2 := 405%Q |}
    = (table', None) /\
    getWindowBounds (decimal 0) 0%Q table'
    = inr {| win_a1 := parseTableEntry (decimal 0) 0%Q (digit_string 3%Q);
             win_b1 := parseTableEntry (decimal 0) 0%Q (digit_string 12%Q);
             win_a2 := parseTableEntry (decimal 0) 0%Q (digit_string 0%Q);
             win_b2 := parseTableEntry (decimal 0) 0%Q (digit_string 405%Q) |} /\
    length table' = length table_page /\
    forall r c : nat,
      ~ ((r = 1 \/ r = 2) /\ (c = 1 \/ c = 2))%nat ->
      cell table' r c = cell table_page r c.
Proof.
  assert (Hcell : forall r c : nat, (r = 1 \/ r = 2)%nat -> (c = 1 \/ c = 2)%nat ->
            is_Some (cell table_page r c)).
  { intros r c [-> | ->] [-> | ->]; by eexists. }
  split; [apply Hcell; auto|]. split; [apply Hcell; auto|].
  split; [apply Hcell; auto|]. split; [apply Hcell; auto|].
  exact (applyPreset_getWindowBounds (decimal 0) 0%Q digit_string table_page
           {| win_a1 := 3%Q; win_b1 := 12%Q; win_a2 := 0%Q; win_b2 := 405%Q |}
           (Hcell 1%nat 1%nat (or_introl eq_refl) (or_introl eq_refl))
           (Hcell 2%nat 1%nat (or_intror eq_refl) (or_introl eq_refl))
           (Hcell 1%nat 2%nat (or_introl eq_refl) (or_intror eq_refl))
           (Hcell 2%nat 2%nat (or_intror eq_refl) (or_intror eq_refl))).
Defined.

(** A preset written to the page's table and read back. *)
Example applyPreset_getWindowBounds_example :
  getWindowBounds (decimal 0) 0%Q
    (applyPreset digit_string table_page
       {| win_a1 := 3%Q; win_b1 := 12%Q; win_a2 := 0%Q; win_b2 := 405%Q |}).1
  = inr {| win_a1 := 3%Q; win_b1 := 12%Q; win_a2 := 0%Q; win_b2 := 405%Q |}.
Proof. vm_compute. reflexivity. Qed.

Lemma applyPreset_throws_late_witness :
  is_Some (cell table_short 1 1) /\ cell table_short 2 1 = None /\
  exists table',
    applyPreset digit_string table_short
      {| win_a1 := 3%Q; win_b1 := 12%Q; win_a2 := 0%Q; win_b2 := 405%Q |}
    = (table', Some TypeError) /\
    cell table' 1 1 = Some (digit_string 3%Q) /\
    forall r c : nat, ~ (r = 1 /\ c = 1)%nat ->
      cell table' r c = cell table_short r c.
Proof.
  assert (H11 : is_Some (cell table_short 1 1)) by by eexists.
  split; [exact H11|]. split; [reflexivity|].
  exact (applyPreset_throws_late digit_string table_short
           {| win_a1 := 3%Q; win_b1 := 12%Q; win_a2 := 0%Q; win_b2 := 405%Q |}
           H11 eq_refl).
Defined.

(** ** DrawingCanvas *)

Section DrawingCanvasSteps.
Context {N : Type} `{JSNumber N}.

Lemma parseAction_down (event : DrawingCanvas.MouseEvent N)
  (this : DrawingCanvas.t N) :
  DrawingCanvas.parseAction "down" event this
  = DrawingCanvas.perform (DrawingCanvas.dot event)
      (DrawingCanvas.set_drawing true (DrawingCanvas.track event this)).
Proof. reflexivity. Qed.

Lemma parseAction_move_drawing (event : DrawingCanvas.MouseEvent N)
  (this : DrawingCanvas.t N) :
  DrawingCanvas.drawing this = true ->
  DrawingCanvas.parseAction "move" event this
  = DrawingCanvas.draw (DrawingCanvas.track event this).
Proof.
  intros Hd. destruct this as [cv ops w h dr prev curr].
  cbn in Hd. subst dr. reflexivity.
Qed.

Lemma parseAction_idle_step (action : string)
  (event : DrawingCanvas.MouseEvent N) (this : DrawingCanvas.t N) :
  DrawingCanvas.drawing this = false -> action <> "down" ->
  DrawingCanvas.parseAction action event this = this.
Proof.
  intros Hd Ha. destruct this as [cv ops w h dr prev curr].
  cbn in Hd. subst dr. unfold DrawingCanvas.parseAction.
  rewrite (bool_decide_eq_false_2 _ Ha).
  cbn [DrawingCanvas.drawing andb orb]. rewrite andb_false_r.
  destruct (bool_decide (action = "up") || bool_decide (action = "out"));
    cbn [DrawingCanvas.drawing DrawingCanvas.set_drawing andb];
    rewrite andb_false_r; reflexivity.
Qed.

Lemma parseAction_stop (action : string)
  (event : DrawingCanvas.MouseEvent N) (this : DrawingCanvas.t N) :
  action = "up" \/ action = "out" ->
  DrawingCanvas.parseAction action event this
  = DrawingCanvas.set_drawing false this.
Proof. intros [-> | ->]; reflexivity. Qed.

Lemma parse_all_idle (actions : list (string * DrawingCanvas.MouseEvent N))
  (this : DrawingCanvas.t N) :
  DrawingCanvas.drawing this = false ->
  Forall (fun ae => ae.1 <> "down") actions ->
  DrawingCanvas.parse_all actions this = this.
Proof.
  intros Hd Hall. induction Hall as [|[action event] actions Ha _ IH];
    [reflexivity|].
  unfold DrawingCanvas.parse_all in *. cbn [foldl fst snd] in *.
  rewrite parseAction_idle_step by assumption. exact IH.
Qed.

Lemma last_cons_default {A : Type} (l : list A) (p d : A) :
  List.last (p :: l) d = List.last l p.
Proof.
  revert p d. induction l as [|q l IH]; intros p d; [reflexivity|].
  change (List.last (p :: q :: l) d) with (List.last (q :: l) d).
  rewrite IH. symmetry. apply IH.
Qed.

Lemma parse_all_moves (moves : list (DrawingCanvas.MouseEvent N))
  (this : DrawingCanvas.t N) :
  DrawingCanvas.drawing this = true ->
  let st := DrawingCanvas.parse_all ((fun e => ("move", e)) <$> moves) this in
  DrawingCanvas.ctx st
  = DrawingCanvas.ctx this
    ++ DrawingCanvas.polyline (DrawingCanvas.currCoordinate this)
         (DrawingCanvas.point <$> moves)
  /\ DrawingCanvas.drawing st = true
  /\ DrawingCanvas.currCoordinate st
     = List.last (DrawingCanvas.point <$> moves)
         (DrawingCanvas.currCoordinate this)
  /\ DrawingCanvas.canvas st = DrawingCanvas.canvas this.
Proof.
  revert this. induction moves as [|e moves IH]; intros this Hd.
  - cbn. rewrite app_nil_r. auto.
  - cbn zeta. unfold DrawingCanvas.parse_all. cbn [fmap list_fmap foldl fst snd].
    rewrite parseAction_move_drawing by assumption.
    destruct (IH (DrawingCanvas.draw (DrawingCanvas.track e this)))
      as (Hc & Hdr & Hcur & Hcv); [exact Hd|].
    unfold DrawingCanvas.parse_all in *.
    rewrite Hc, Hdr, Hcur, Hcv. cbn [DrawingCanvas.polyline].
    split; [|split; [reflexivity|split; [|reflexivity]]].
    + cbn. rewrite <- app_assoc. reflexivity.
    + cbn [DrawingCanvas.draw DrawingCanvas.track DrawingCanvas.perform
           DrawingCanvas.currCoordinate].
      symmetry. apply last_cons_default.
Qed.

End DrawingCanvasSteps.

Section DrawingCanvasProperties.
Context {N : Type} `{JSNumber N}.

Lemma parse_all_app (xs ys : list (string * DrawingCanvas.MouseEvent N))
  (this : DrawingCanvas.t N) :
  DrawingCanvas.parse_all (xs ++ ys) this
  = DrawingCanvas.parse_all ys (DrawingCanvas.parse_all xs this).
Proof. apply foldl_app. Qed.

Lemma parse_all_press_moves (press : DrawingCanvas.MouseEvent N)
  (moves : list (DrawingCanvas.MouseEvent N)) (this : DrawingCanvas.t N) :
  let st :=
    DrawingCanvas.parse_all
      (("down", press) :: ((fun e => ("move", e)) <$> moves)) this in
  DrawingCanvas.ctx st
  = DrawingCanvas.ctx this ++ DrawingCanvas.dot press
    ++ DrawingCanvas.polyline (DrawingCanvas.point press)
         (DrawingCanvas.point <$> moves)
  /\ DrawingCanvas.drawing st = true
  /\ DrawingCanvas.currCoordinate st
     = List.last (DrawingCanvas.point <$> moves) (DrawingCanvas.point press)
  /\ DrawingCanvas.canvas st = DrawingCanvas.canvas this.
Proof.
  cbn zeta.
  change (DrawingCanvas.parse_all
            (("down", press) :: ((fun e => ("move", e)) <$> moves)) this)
    with (DrawingCanvas.parse_all ((fun e => ("move", e)) <$> moves)
            (DrawingCanvas.parseAction "down" press this)).
  rewrite parseAction_down.
  destruct (parse_all_moves moves
              (DrawingCanvas.perform (DrawingCanvas.dot press)
                 (DrawingCanvas.set_drawing true
                    (DrawingCanvas.track press this))))
    as (Hc & Hd & Hcur & Hcv); [reflexivity|].
  rewrite Hc, Hd, Hcur, Hcv. cbn. rewrite <- app_assoc. auto.
Qed.

Lemma listener_action (type action : string) :
  DrawingCanvas.listener type = Some action ->
  (action = "down" <-> type = "mousedown")
  /\ (action = "move" <-> type = "mousemove")
  /\ (action = "up" \/ action = "out"
      <-> type = "mouseup" \/ type = "mouseout").
Proof.
  unfold DrawingCanvas.listener. intros Hl.
  repeat case_bool_decide; simplify_eq;
    (split; [|split]); split; intros; simplify_eq; auto;
    repeat match goal with Hor : _ \/ _ |- _ => destruct Hor end;
    simplify_eq.
Qed.

Lemma dispatch_all_parse_all
  (events : list (string * DrawingCanvas.MouseEvent N))
  (this : DrawingCanvas.t N) :
  DrawingCanvas.dispatch_all events this
  = DrawingCanvas.parse_all
      (omap (fun te => (fun action => (action, te.2))
                         <$> DrawingCanvas.listener te.1) events) this.
Proof.
  revert this. induction events as [|[type ev] events IH]; intros this;
    [reflexivity|].
  unfold DrawingCanvas.dispatch_all, DrawingCanvas.parse_all in *.
  cbn [foldl omap list_omap fst snd]. rewrite IH.
  unfold DrawingCanvas.dispatch.
  destruct (DrawingCanvas.listener type); reflexivity.
Qed.

Lemma parseAction_draws_only (action : string)
  (event : DrawingCanvas.MouseEvent N) (this : DrawingCanvas.t N) :
  exists ops,
    DrawingCanvas.ctx (DrawingCanvas.parseAction action event this)
    = DrawingCanvas.ctx this ++ ops
    /\ Forall (fun op => DrawingCanvas.is_setting op = false) ops.
Proof.
  destruct this as [cv ops0 w h dr prev curr].
  unfold DrawingCanvas.parseAction.
  destruct (bool_decide (action = "down")) eqn:Hdown;
    destruct (bool_decide (action = "move")) eqn:Hmove;
    destruct (bool_decide (action = "up") || bool_decide (action = "out"));
    destruct dr; cbn;
    first [ exists []; split; [symmetry; apply app_nil_r|constructor]
          | eexists; split;
            [rewrite <- ?app_assoc; reflexivity
            |repeat constructor] ].
Qed.

(** X24: Nothing happens until the mouse is pressed: while the canvas is
    not drawing, any sequence of actions without a ['down'] (moves,
    releases, leaves, unknown actions) performs no operation on the
    context and leaves every field of the object as it is. *)
Theorem parseAction_idle_until_pressed
  (actions : list (string * DrawingCanvas.MouseEvent N))
  (this : DrawingCanvas.t N) :
  DrawingCanvas.drawing this = false ->
  Forall (fun ae => ae.1 <> "down") actions ->
  DrawingCanvas.parse_all actions this = this.
Proof. apply parse_all_idle. Qed.

(** X25: A press followed by moves draws the dot of the press, a square
    of the context's line width at the pointer, and then one stroked
    segment per move, each starting where the one before ended: the
    polyline through the pointer positions, relative to the canvas.  The
    canvas is drawing afterwards and its current coordinate is the last
    pointer position. *)
Theorem parseAction_press_and_drag (press : DrawingCanvas.MouseEvent N)
  (moves : list (DrawingCanvas.MouseEvent N)) (this : DrawingCanvas.t N) :
  let st :=
    DrawingCanvas.parse_all
      (("down", press) :: ((fun e => ("move", e)) <$> moves)) this in
  DrawingCanvas.ctx st
  = DrawingCanvas.ctx this ++ DrawingCanvas.dot press
    ++ DrawingCanvas.polyline (DrawingCanvas.point press)
         (DrawingCanvas.point <$> moves)
  /\ DrawingCanvas.drawing st = true
  /\ DrawingCanvas.currCoordinate st
     = List.last (DrawingCanvas.point <$> moves) (DrawingCanvas.point press).
Proof.
  destruct (parse_all_press_moves press moves this) as (Hc & Hd & Hcur & _).
  auto.
Qed.

(** X26: A whole gesture through the listeners: a [mousedown], any
    [mousemove]s, then a [mouseup] or a [mouseout], followed by any events
    other than a [mousedown].  The context receives the dot and the
    polyline of the gesture and nothing else: what follows the release
    draws nothing, and the canvas is not drawing at the end. *)
Theorem dispatch_gesture (press release : DrawingCanvas.MouseEvent N)
  (moves : list (DrawingCanvas.MouseEvent N)) (stop : string)
  (rest : list (string * DrawingCanvas.MouseEvent N))
  (this : DrawingCanvas.t N) :
  stop = "mouseup" \/ stop = "mouseout" ->
  Forall (fun te => te.1 <> "mousedown") rest ->
  let st :=
    DrawingCanvas.dispatch_all
      (("mousedown", press) :: ((fun e => ("mousemove", e)) <$> moves)
       ++ (stop, release) :: rest) this in
  DrawingCanvas.ctx st
  = DrawingCanvas.ctx this ++ DrawingCanvas.dot press
    ++ DrawingCanvas.polyline (DrawingCanvas.point press)
         (DrawingCanvas.point <$> moves)
  /\ DrawingCanvas.drawing st = false.
Proof.
  intros Hstop Hrest. cbn zeta. rewrite dispatch_all_parse_all.
  change (("mousedown", press) :: ((fun e => ("mousemove", e)) <$> moves)
          ++ (stop, release) :: rest)
    with ((("mousedown", press) :: ((fun e => ("mousemove", e)) <$> moves))
          ++ (stop, release) :: rest).
  rewrite omap_app, parse_all_app.
  assert (Hfirst :
    omap (fun te : string * DrawingCanvas.MouseEvent N =>
            (fun action => (action, te.2)) <$> DrawingCanvas.listener te.1)
         (("mousedown", press) :: ((fun e => ("mousemove", e)) <$> moves))
    = ("down", press) :: ((fun e => ("move", e)) <$> moves)).
  { cbn [omap list_omap fst snd]. change (DrawingCanvas.listener "mousedown")
      with (Some "down"). cbn [fmap option_fmap option_map]. f_equal.
    induction moves as [|m moves IH]; [reflexivity|].
    cbn [fmap list_fmap omap list_omap fst snd].
    change (DrawingCanvas.listener "mousemove") with (Some "move").
    cbn [fmap option_fmap option_map]. f_equal. exact IH. }
  rewrite Hfirst. clear Hfirst.
  destruct (parse_all_press_moves press moves this) as (Hc & Hd & _ & _).
  cbn zeta in Hc, Hd.
  set (mid := DrawingCanvas.parse_all
                (("down", press) :: ((fun e => ("move", e)) <$> moves)) this)
    in *.
  cbn [omap list_omap fst snd].
  assert (Hl : exists action,
             DrawingCanvas.listener stop = Some action
             /\ (action = "up" \/ action = "out")).
  { destruct Hstop as [-> | ->]; eexists; (split; [reflexivity|]); auto. }
  destruct Hl as (action & -> & Haction).
  cbn [fmap option_fmap option_map].
  change (DrawingCanvas.parse_all ((action, release) :: ?l) mid)
    with (DrawingCanvas.parse_all l
            (DrawingCanvas.parseAction action release mid)).
  rewrite parseAction_stop by exact Haction.
  rewrite parse_all_idle.
  - cbn [DrawingCanvas.set_drawing DrawingCanvas.ctx DrawingCanvas.drawing].
    auto.
  - reflexivity.
  - clear -Hrest. induction Hrest as [|[type ev] rest Ht _ IH];
      [constructor|].
    cbn [omap list_omap fst snd] in *.
    destruct (DrawingCanvas.listener type) as [action|] eqn:Hl;
      cbn [fmap option_fmap option_map]; [|exact IH].
    constructor; [|exact IH].
    cbn [fst]. intros ->. apply listener_action in Hl. apply Ht, Hl.
    reflexivity.
Qed.

(** X27: [clear] resets both coordinates to the corner (0, 0) but leaves
    the [drawing] flag alone: when the canvas is cleared in the middle of
    a stroke, the next move strokes a segment from the corner of the
    canvas to the pointer. *)
Theorem clear_while_drawing (event : DrawingCanvas.MouseEvent N)
  (this : DrawingCanvas.t N) :
  DrawingCanvas.drawing this = true ->
  DrawingCanvas.ctx
    (DrawingCanvas.parseAction "move" event (DrawingCanvas.clear this))
  = DrawingCanvas.ctx this
    ++ [DrawingCanvas.putImageData_createImageData
          (width (DrawingCanvas.canvas this))
          (height (DrawingCanvas.canvas this))]
    ++ DrawingCanvas.segment DrawingCanvas.zero (DrawingCanvas.point event).
Proof.
  intros Hd. rewrite parseAction_move_drawing by exact Hd.
  cbn. rewrite <- app_assoc. reflexivity.
Qed.

(** X28: Drawing never touches the tools or the image: whatever actions
    are parsed, the operations added to the context are path, fill and
    stroke calls only: no assignment to [lineWidth], [strokeStyle] or
    [fillStyle] and no [putImageData]. *)
Theorem parseAction_keeps_tools
  (actions : list (string * DrawingCanvas.MouseEvent N))
  (this : DrawingCanvas.t N) :
  exists ops,
    DrawingCanvas.ctx (DrawingCanvas.parse_all actions this)
    = DrawingCanvas.ctx this ++ ops
    /\ Forall (fun op => DrawingCanvas.is_setting op = false) ops.
Proof.
  revert this. induction actions as [|[action ev] actions IH]; intros this.
  - exists []. split; [symmetry; apply app_nil_r|constructor].
  - change (DrawingCanvas.parse_all ((action, ev) :: actions) this)
      with (DrawingCanvas.parse_all actions
              (DrawingCanvas.parseAction action ev this)).
    destruct (IH (DrawingCanvas.parseAction action ev this))
      as (ops2 & -> & Hops2).
    destruct (parseAction_draws_only action ev this) as (ops1 & -> & Hops1).
    exists (ops1 ++ ops2). split; [symmetry; apply app_assoc|].
    apply Forall_app; auto.
Qed.

End DrawingCanvasProperties.

Lemma parseAction_idle_until_pressed_witness :
  DrawingCanvas.drawing pad = false /\
  Forall (fun ae : string * DrawingCanvas.MouseEvent Q => ae.1 <> "down")
    [("move", pointer 20 30); ("up", pointer 20 30);
     ("out", pointer 200 30); ("wheel", pointer 20 30)] /\
  DrawingCanvas.parse_all
    [("move", pointer 20 30); ("up", pointer 20 30);
     ("out", pointer 200 30); ("wheel", pointer 20 30)] pad = pad.
Proof.
  assert (Hall :
    Forall (fun ae : string * DrawingCanvas.MouseEvent Q => ae.1 <> "down")
      [("move", pointer 20 30); ("up", pointer 20 30);
       ("out", pointer 200 30); ("wheel", pointer 20 30)])
    by (repeat constructor; cbn; discriminate).
  split; [reflexivity|]. split; [exact Hall|].
  exact (parseAction_idle_until_pressed _ pad eq_refl Hall).
Defined.

Lemma dispatch_gesture_witness :
  ("mouseout" = "mouseup" \/ "mouseout" = "mouseout") /\
  Forall (fun te : string * DrawingCanvas.MouseEvent Q =>
            te.1 <> "mousedown")
    [("mousemove", pointer 50 50); ("mouseup", pointer 50 50);
     ("keydown", pointer 50 50)] /\
  let st :=
    DrawingCanvas.dispatch_all
      (("mousedown", pointer 18 28)
       :: ((fun e => ("mousemove", e)) <$> [pointer 19 30; pointer 21 33])
       ++ ("mouseout", pointer 120 33)
       :: [("mousemove", pointer 50 50); ("mouseup", pointer 50 50);
           ("keydown", pointer 50 50)]) pad in
  DrawingCanvas.ctx st
  = DrawingCanvas.ctx pad ++ DrawingCanvas.dot (pointer 18 28)
    ++ DrawingCanvas.polyline (DrawingCanvas.point (pointer 18 28))
         (DrawingCanvas.point <$> [pointer 19 30; pointer 21 33])
  /\ DrawingCanvas.drawing st = false.
Proof.
  assert (Hrest :
    Forall (fun te : string * DrawingCanvas.MouseEvent Q =>
              te.1 <> "mousedown")
      [("mousemove", pointer 50 50); ("mouseup", pointer 50 50);
       ("keydown", pointer 50 50)])
    by (repeat constructor; cbn; discriminate).
  split; [right; reflexivity|]. split; [exact Hrest|].
  exact (dispatch_gesture (pointer 18 28) (pointer 120 33)
           [pointer 19 30; pointer 21 33] "mouseout" _ pad
           (or_intror eq_refl) Hrest).
Defined.

Lemma clear_while_drawing_witness :
  let this := DrawingCanvas.parseAction "down" (pointer 18 28) pad in
  DrawingCanvas.drawing this = true /\
  DrawingCanvas.ctx
    (DrawingCanvas.parseAction "move" (pointer 19 30)
       (DrawingCanvas.clear this))
  = DrawingCanvas.ctx this
    ++ [DrawingCanvas.putImageData_createImageData
          (width (DrawingCanvas.canvas this))
          (height (DrawingCanvas.canvas this))]
    ++ DrawingCanvas.segment DrawingCanvas.zero
         (DrawingCanvas.point (pointer 19 30)).
Proof.
  split; [reflexivity|].
  exact (clear_while_drawing (pointer 19 30)
           (DrawingCanvas.parseAction "down" (pointer 18 28) pad) eq_refl).
Defined.

(** The gesture of the witness, operation by operation. *)
Example dispatch_gesture_operations :
  DrawingCanvas.ctx
    (DrawingCanvas.dispatch_all
       [("mousedown", pointer 18 28); ("mousemove", pointer 19 30);
        ("mousemove", pointer 21 33); ("mouseout", pointer 120 33);
        ("mousemove", pointer 50 50)] pad)
  = [DrawingCanvas.set_lineWidth 9%Q; DrawingCanvas.set_strokeStyle "black";
     DrawingCanvas.beginPath; DrawingCanvas.fillRect 10 20 9 9;
     DrawingCanvas.closePath;
     DrawingCanvas.beginPath; DrawingCanvas.moveTo 10 20;
     DrawingCanvas.lineTo 11 22; DrawingCanvas.stroke;
     DrawingCanvas.closePath;
     DrawingCanvas.beginPath; DrawingCanvas.moveTo 11 22;
     DrawingCanvas.lineTo 13 25; DrawingCanvas.stroke;
     DrawingCanvas.closePath]%Q.
Proof. vm_compute. reflexivity. Qed.
